(** * Protocol client and process supervisor of xhs-mcp

    A shallow embedding of [src/clients/chrome_devtools.py]
    (class [ChromeDevToolsClient]) and [src/utils/browser_guard.py]
    (class [BrowserGuard]), with the properties the specification states
    about them.

    The first part holds the model: the values and exceptions of the
    Python code, its string and URL primitives, the client (target
    resolution, the pending table, the receive loop, [send], [close])
    with the cooperative scheduler its tasks run under, the command
    façade, and the process supervisor.  The second part holds the
    properties.

    Conventions.
    - Python [str] values are modelled as [string] (byte strings; the
      case mapping of [lower] is the ASCII one).
    - Python [int] is unbounded and is modelled as [Z].
    - Python [float] coordinates and times are idealised as exact
      rationals [Q].
    - A Python exception is a value of [exn]; a call that may raise
      returns [res A]. *)

From Stdlib Require Import ZArith QArith Qabs String Ascii List Sorted Lia Lqa Bool.
From stdpp Require Import base option list gmap strings.

#[local] Set Warnings "-register-all".
Local Open Scope Z_scope.
Local Open Scope string_scope.
Local Open Scope list_scope.

(** ** Values exchanged with the browser *)

(** A decoded JSON document, as [json.loads] yields it.  A Python [dict]
    is an association list with pairwise distinct keys. *)
Inductive json : Type :=
  | JNull
  | JBool (b : bool)
  | JInt (z : Z)
  | JFloat (q : Q)
  | JStr (s : string)
  | JArr (l : list json)
  | JObj (l : list (string * json)).

(** [d.get(k)] on a decoded object. *)
Fixpoint dict_get (k : string) (d : list (string * json)) : option json :=
  match d with
  | [] => None
  | (k', v) :: d' => if String.eqb k k' then Some v else dict_get k d'
  end.

(** [k in d]. *)
Definition dict_has (k : string) (d : list (string * json)) : bool :=
  match dict_get k d with Some _ => true | None => false end.

(** Python truthiness of a decoded JSON value. *)
Definition truthy (v : json) : bool :=
  match v with
  | JNull => false
  | JBool b => b
  | JInt z => negb (Z.eqb z 0)
  | JFloat q => negb (Qeq_bool q 0)
  | JStr s => negb (String.eqb s "")
  | JArr l => match l with [] => false | _ => true end
  | JObj l => match l with [] => false | _ => true end
  end.

(** ** Exceptions *)

Inductive exn : Type :=
  | ValueError (msg : string)
  | TypeError (msg : string)
  | AttributeError (msg : string)
  | KeyError (key : string)
  | AssertionError
  | RuntimeError (payload : json)       (* RuntimeError(data["error"]) *)
  | RuntimeErrorMsg (msg : string)      (* RuntimeError("...") *)
  | HTTPStatusError (status : Z)        (* httpx.HTTPStatusError *)
  | TransportError (msg : string)       (* httpx / websockets I/O failures *)
  | CancelledError.                     (* asyncio.CancelledError *)

(** [isinstance(e, Exception)]: everything above derives from
    [Exception] except [asyncio.CancelledError], which derives from
    [BaseException]; an [except Exception] clause does not catch it. *)
Definition is_Exception (e : exn) : bool :=
  match e with
  | CancelledError => false
  | _ => true
  end.

Inductive res (A : Type) : Type :=
  | Ok (a : A)
  | Raise (e : exn).
Arguments Ok {A} a.
Arguments Raise {A} e.

Definition res_bind {A B} (m : res A) (k : A -> res B) : res B :=
  match m with
  | Ok a => k a
  | Raise e => Raise e
  end.

Notation "x <-- m ;; k" := (res_bind m (fun x => k))
  (at level 100, m at next level, right associativity).

(** ** String primitives used by the client *)

Module Str.

(** [s.startswith(p)] *)
Fixpoint startswith (s p : string) : bool :=
  match p, s with
  | EmptyString, _ => true
  | String c p', String d s' => Ascii.eqb c d && startswith s' p'
  | String _ _, EmptyString => false
  end.

Definition chars (s : string) : list ascii := list_ascii_of_string s.
Definition of_chars (l : list ascii) : string := string_of_list_ascii l.

Definition rev (s : string) : string := of_chars (List.rev (chars s)).

(** [s.endswith(p)] *)
Definition endswith (s p : string) : bool := startswith (rev s) (rev p).

Definition is_upper (c : ascii) : bool :=
  let n := nat_of_ascii c in (65 <=? n)%nat && (n <=? 90)%nat.

Definition lower_char (c : ascii) : ascii :=
  if is_upper c then ascii_of_nat (nat_of_ascii c + 32) else c.

(** [s.lower()] *)
Fixpoint lower (s : string) : string :=
  match s with
  | EmptyString => EmptyString
  | String c s' => String (lower_char c) (lower s')
  end.

(** [c in s] *)
Fixpoint contains (c : ascii) (s : string) : bool :=
  match s with
  | EmptyString => false
  | String d s' => Ascii.eqb c d || contains c s'
  end.

(** [s.partition(c)] as [(head, found, tail)]. *)
Fixpoint partition (c : ascii) (s : string) : string * bool * string :=
  match s with
  | EmptyString => (EmptyString, false, EmptyString)
  | String d s' =>
      if Ascii.eqb c d then (EmptyString, true, s')
      else let '(h, f, t) := partition c s' in (String d h, f, t)
  end.

(** The third component of [s.rpartition(c)]: what follows the last
    [c], or all of [s] when [c] does not occur. *)
Fixpoint after_last (c : ascii) (s : string) : string :=
  match s with
  | EmptyString => EmptyString
  | String d s' =>
      if contains c s' then after_last c s'
      else if Ascii.eqb c d then s' else s
  end.

(** The longest prefix of [s] that holds none of the characters [cs]. *)
Fixpoint take_until (cs : list ascii) (s : string) : string :=
  match s with
  | EmptyString => EmptyString
  | String d s' =>
      if existsb (Ascii.eqb d) cs then EmptyString
      else String d (take_until cs s')
  end.

Fixpoint filter (keep : ascii -> bool) (s : string) : string :=
  match s with
  | EmptyString => EmptyString
  | String d s' => if keep d then String d (filter keep s') else filter keep s'
  end.

Fixpoint lstrip (drop : ascii -> bool) (s : string) : string :=
  match s with
  | EmptyString => EmptyString
  | String d s' => if drop d then lstrip drop s' else s
  end.

Fixpoint forallb (p : ascii -> bool) (s : string) : bool :=
  match s with
  | EmptyString => true
  | String d s' => p d && forallb p s'
  end.

Definition is_empty (s : string) : bool :=
  match s with EmptyString => true | _ => false end.

(** [p in s] for strings *)
Fixpoint has_substring (p s : string) : bool :=
  startswith s p ||
  match s with
  | EmptyString => false
  | String _ s' => has_substring p s'
  end.

End Str.

(** ** [urllib.parse.urlparse(url).hostname]

  The standard-library routine the client calls to extract a host.
  The model follows [urlsplit] for text URLs: leading C0-control and
  space characters are stripped, tab / CR / LF are removed, a scheme
  is split off when the text before the first [:] is a valid scheme,
  the network location is what follows a leading [//] up to the first
  of [/ ? #], and the [hostname] property drops user-info and port
  and lower-cases the rest.  [urlsplit] raises [ValueError] on
  unbalanced brackets in the network location and on a bracketed
  host that is not an IP literal; the latter test is the parameter
  [check_bracketed_host]. *)
Module Url.

Definition is_alpha (c : ascii) : bool :=
  let n := nat_of_ascii c in
  ((65 <=? n) && (n <=? 90) || (97 <=? n) && (n <=? 122))%nat.

Definition is_digit (c : ascii) : bool :=
  let n := nat_of_ascii c in ((48 <=? n) && (n <=? 57))%nat.

Definition is_scheme_char (c : ascii) : bool :=
  is_alpha c || is_digit c
  || Ascii.eqb c "+" || Ascii.eqb c "-" || Ascii.eqb c ".".

Definition is_c0_or_space (c : ascii) : bool :=
  (nat_of_ascii c <=? 32)%nat.

Definition is_unsafe (c : ascii) : bool :=
  let n := nat_of_ascii c in
  ((n =? 9) || (n =? 10) || (n =? 13))%nat.

(** The URL with its scheme (if any) removed. *)
Definition drop_scheme (url : string) : string :=
  let '(h, found, t) := Str.partition ":" url in
  match h with
  | String c _ =>
      if found && is_alpha c && Str.forallb is_scheme_char h then t else url
  | EmptyString => url
  end.

Definition netloc (url : string) : string :=
  let u := Str.filter (fun c => negb (is_unsafe c))
                      (Str.lstrip is_c0_or_space url) in
  let u := drop_scheme u in
  match u with
  | String "/" (String "/" rest) => Str.take_until ["/"; "?"; "#"]%char rest
  | _ => EmptyString
  end.

Section Hostname.
Variable check_bracketed_host : string -> bool.

(** [urlsplit]'s validation of the network location. *)
Definition check_netloc (nl : string) : res unit :=
    let o := Str.contains "[" nl in
    let c := Str.contains "]" nl in
    if (o && negb c) || (c && negb o) then Raise (ValueError "Invalid IPv6 URL")
    else if o && c then
      let '(_, _, t) := Str.partition "[" nl in
      let '(b, _, _) := Str.partition "]" t in
      if check_bracketed_host b then Ok tt
      else Raise (ValueError "Invalid IPv6 URL")
    else Ok tt.

(** The [hostname] property: [None] when the host is empty. *)
Definition hostinfo (nl : string) : string :=
    let hi := Str.after_last "@" nl in
    let '(h, have_open_br, bracketed) := Str.partition "[" hi in
    if have_open_br then
      let '(hn, _, _) := Str.partition "]" bracketed in hn
    else
      let '(hn, _, _) := Str.partition ":" hi in hn.

Definition lower_host (h : string) : string :=
    let '(name, pct, zone) := Str.partition "%" h in
    Str.lower name +:+ (if pct then "%" else "") +:+ zone.

Definition hostname (url : string) : res (option string) :=
    let nl := netloc url in
    _ <-- check_netloc nl ;;
    let h := hostinfo nl in
    if Str.is_empty h then Ok None else Ok (Some (lower_host h)).
End Hostname.

End Url.

(** ** The DevTools client: data *)

(** An entry of the discovery list ([/json/list]) or the description of
    a freshly created target ([/json/new]): a JSON object with string
    fields, each of which may be missing. *)
Record target_entry : Type := TargetEntry {
  t_type : option string;                 (* "type" *)
  t_webSocketDebuggerUrl : option string; (* "webSocketDebuggerUrl" *)
  t_url : option string;                  (* "url" *)
  t_id : option string;                   (* "id" *)
  t_title : option string                 (* "title" *)
}.

Inductive http_body : Type :=
  | BodyTargets (targets : list target_entry)
  | BodyTarget (data : target_entry)
  | BodyOther.

Record http_response : Type := HttpResponse {
  status_code : Z;
  body : http_body
}.

(** The HTTP endpoint of the browser, as the client observes it. *)
Record http_env : Type := HttpEnv {
  http_get : string -> res http_response;
  http_post : string -> json -> res http_response
}.

(** What the client does to the outside world, in program order. *)
Inductive effect : Type :=
  | HttpGet (url : string)
  | HttpPost (url : string) (payload : json)
  | WsConnect (ws_url : string) (conn : nat)
  | WsSend (conn : nat) (payload : json)
  | WsClose (conn : nat)
  | CreateReadTask (conn : nat)
  | CallHandler (handler : nat) (data : json).

(** The fields of [ChromeDevToolsClient].  Objects with identity (the
    WebSocket connection, the futures of the pending table, the handler
    callables) are named by natural numbers; [_lock] lives in the
    scheduler state. *)
Record client : Type := Client {
  base_url : string;
  initial_url : string;
  session : option nat;
  target_id : option string;
  _reused_existing : bool;
  _msg_id : Z;
  _allowed_host : option string;
  _pending_requests : gmap Z nat;
  _event_handlers : gmap string (list nat);
  _read_task : option nat
}.

Definition set_session (v : option nat) (c : client) : client :=
  {| base_url := base_url c; initial_url := initial_url c; session := v;
     target_id := target_id c; _reused_existing := _reused_existing c;
     _msg_id := _msg_id c; _allowed_host := _allowed_host c;
     _pending_requests := _pending_requests c;
     _event_handlers := _event_handlers c; _read_task := _read_task c |}.

Definition set_target (tid : option string) (reused : bool) (c : client) : client :=
  {| base_url := base_url c; initial_url := initial_url c; session := session c;
     target_id := tid; _reused_existing := reused;
     _msg_id := _msg_id c; _allowed_host := _allowed_host c;
     _pending_requests := _pending_requests c;
     _event_handlers := _event_handlers c; _read_task := _read_task c |}.

Definition set_msg_id (n : Z) (c : client) : client :=
  {| base_url := base_url c; initial_url := initial_url c; session := session c;
     target_id := target_id c; _reused_existing := _reused_existing c;
     _msg_id := n; _allowed_host := _allowed_host c;
     _pending_requests := _pending_requests c;
     _event_handlers := _event_handlers c; _read_task := _read_task c |}.

Definition set_pending (p : gmap Z nat) (c : client) : client :=
  {| base_url := base_url c; initial_url := initial_url c; session := session c;
     target_id := target_id c; _reused_existing := _reused_existing c;
     _msg_id := _msg_id c; _allowed_host := _allowed_host c;
     _pending_requests := p;
     _event_handlers := _event_handlers c; _read_task := _read_task c |}.

Definition set_handlers (h : gmap string (list nat)) (c : client) : client :=
  {| base_url := base_url c; initial_url := initial_url c; session := session c;
     target_id := target_id c; _reused_existing := _reused_existing c;
     _msg_id := _msg_id c; _allowed_host := _allowed_host c;
     _pending_requests := _pending_requests c;
     _event_handlers := h; _read_task := _read_task c |}.

Definition set_read_task (t : option nat) (c : client) : client :=
  {| base_url := base_url c; initial_url := initial_url c; session := session c;
     target_id := target_id c; _reused_existing := _reused_existing c;
     _msg_id := _msg_id c; _allowed_host := _allowed_host c;
     _pending_requests := _pending_requests c;
     _event_handlers := _event_handlers c; _read_task := t |}.

(** ** Target resolution *)

Section Resolver.

(** [urllib]'s bracketed-host validation and [urllib.parse.quote] with
    the safe set of the client are library routines. *)
Variable check_bracketed_host : string -> bool.
Variable quote : string -> string.
(** [src.config.CHROME_REMOTE_URL] *)
Variable CHROME_REMOTE_URL : string.

Definition urlparse_hostname : string -> res (option string) :=
  Url.hostname check_bracketed_host.

Definition _derive_host (url : string) : res (option string) :=
  if Str.is_empty url || Str.startswith url "about:" then Ok None
  else
    h <-- urlparse_hostname url ;;
    match h with
    | None => Ok None
    | Some h => if Str.is_empty h then Ok None else Ok (Some (Str.lower h))
    end.

(** [ChromeDevToolsClient.__init__] *)
Definition init (base : option string) (initial : string) : res client :=
  allowed <-- _derive_host initial ;;
  Ok {| base_url := match base with
                    | Some b => if Str.is_empty b then CHROME_REMOTE_URL else b
                    | None => CHROME_REMOTE_URL
                    end;
        initial_url := initial;
        session := None;
        target_id := None;
        _reused_existing := false;
        _msg_id := 0;
        _allowed_host := allowed;
        _pending_requests := ∅;
        _event_handlers := ∅;
        _read_task := None |}.

(** [(parsed.hostname or "").lower()] *)
Definition target_host (target_url : string) : res string :=
  h <-- urlparse_hostname target_url ;;
  Ok (Str.lower (default "" h)).

Definition _can_reuse_target (c : client) (target_url : string) : res bool :=
  if Str.is_empty target_url then Ok false
  else if Str.startswith target_url "about:blank" then Ok true
  else
    match _allowed_host c with
    | None => Ok false
    | Some allowed =>
        if Str.is_empty allowed then Ok false
        else
          host <-- target_host target_url ;;
          if Str.is_empty host then Ok false
          else if String.eqb host allowed then Ok true
          else Ok (Str.endswith host ("." +:+ allowed))
    end.

(** The test at the head of the discovery loop:
    [entry.get("type") != "page" or not entry.get("webSocketDebuggerUrl")]
    is false. *)
Definition usable_page (entry : target_entry) : bool :=
  match t_type entry, t_webSocketDebuggerUrl entry with
  | Some ty, Some ws => String.eqb ty "page" && negb (Str.is_empty ws)
  | _, _ => false
  end.

(** The loop over the discovery list: [inl ws] is the early return of a
    reusable page, [inr fallback] the fall-through with the first usable
    page (if any). *)
Fixpoint scan_targets (c : client) (targets : list target_entry)
    (fallback_entry : option target_entry)
    : res (string + option target_entry) :=
  match targets with
  | [] => Ok (inr fallback_entry)
  | entry :: rest =>
      if negb (usable_page entry) then scan_targets c rest fallback_entry
      else
        let fallback_entry :=
          match fallback_entry with
          | None => Some entry
          | Some _ => fallback_entry
          end in
        reuse <-- _can_reuse_target c (default "" (t_url entry)) ;;
        if reuse then Ok (inl (default "" (t_webSocketDebuggerUrl entry)))
        else scan_targets c rest fallback_entry
  end.

(** [resp.raise_for_status()] *)
Definition raise_for_status (r : http_response) : res unit :=
  if ((200 <=? status_code r) && (status_code r <? 300))%Z then Ok tt
  else Raise (HTTPStatusError (status_code r)).

Definition list_url (c : client) : string := base_url c +:+ "/json/list".
Definition new_get_url (c : client) : string :=
  base_url c +:+ "/json/new?" +:+ quote (initial_url c).
Definition new_post_url (c : client) : string := base_url c +:+ "/json/new".
Definition new_post_body (c : client) : json :=
  JObj [("url", JStr (initial_url c))].

(** [data["webSocketDebuggerUrl"], data["id"]] of the creation reply. *)
Definition created_pair (r : http_response) : res (string * string) :=
  match body r with
  | BodyTarget data =>
      match t_webSocketDebuggerUrl data, t_id data with
      | Some ws, Some id => Ok (ws, id)
      | None, _ => Raise (KeyError "webSocketDebuggerUrl")
      | _, None => Raise (KeyError "id")
      end
  | _ => Raise (ValueError "json")
  end.

(** The body of the [try] block of [_create_target]. *)
Definition try_create (c : client) (env : http_env)
    : res (string * string) * list effect :=
  match http_get env (new_get_url c) with
  | Raise e => (Raise e, [HttpGet (new_get_url c)])
  | Ok resp =>
      if (status_code resp =? 405)%Z then
        let tr := [HttpGet (new_get_url c);
                   HttpPost (new_post_url c) (new_post_body c)] in
        match http_post env (new_post_url c) (new_post_body c) with
        | Raise e => (Raise e, tr)
        | Ok resp => (_ <-- raise_for_status resp ;; created_pair resp, tr)
        end
      else (_ <-- raise_for_status resp ;; created_pair resp,
            [HttpGet (new_get_url c)])
  end.

Definition blocked_message : string :=
  "Chrome refused to create a new DevTools target; open the site manually in the debugging profile and retry.".

(** The [except httpx.HTTPStatusError] clause. *)
Definition on_create_failure (fallback_entry : option target_entry)
    (r : res (string * string)) : res (string * string) :=
  match r with
  | Raise (HTTPStatusError status) =>
      match (status =? 405)%Z, fallback_entry with
      | true, Some fe =>
          Ok (default "" (t_webSocketDebuggerUrl fe), default "existing" (t_id fe))
      | true, None => Raise (RuntimeErrorMsg blocked_message)
      | false, _ => Raise (HTTPStatusError status)
      end
  | _ => r
  end.

Definition _create_target (c : client) (env : http_env)
    : res (string * string) * list effect :=
  match http_get env (list_url c) with
  | Raise e => (Raise e, [HttpGet (list_url c)])
  | Ok list_resp =>
      match raise_for_status list_resp, body list_resp with
      | Raise e, _ => (Raise e, [HttpGet (list_url c)])
      | Ok _, BodyTargets targets =>
          match scan_targets c targets None with
          | Raise e => (Raise e, [HttpGet (list_url c)])
          | Ok (inl ws) => (Ok (ws, "existing"), [HttpGet (list_url c)])
          | Ok (inr fallback_entry) =>
              let '(r, tr) := try_create c env in
              (on_create_failure fallback_entry r, HttpGet (list_url c) :: tr)
          end
      | Ok _, _ => (Raise (ValueError "json"), [HttpGet (list_url c)])
      end
  end.

End Resolver.

(** ** Closing the client

    [close()]: closes the channel when there is one, then issues the
    best-effort HTTP close-by-id call when [target_id] is set and the
    target is not marked as reused. *)
Definition close_url (c : client) (tid : string) : string :=
  base_url c +:+ "/json/close/" +:+ tid.

Definition close_http (c : client) : list effect :=
  match target_id c with
  | Some tid =>
      if negb (Str.is_empty tid) && negb (_reused_existing c)
      then [HttpGet (close_url c tid)] else []
  | None => []
  end.

Definition close (c : client) : client * list effect :=
  let ws := match session c with Some conn => [WsClose conn] | None => [] end in
  (set_target None false (set_session None c), ws ++ close_http c).

(** The assignments of [_ensure_connection_locked] that follow a
    successful [_create_target]. *)
Definition adopt_target (tid : string) (c : client) : client :=
  set_target (Some tid) (String.eqb tid "existing") c.

(** ** Futures and the cooperative scheduler *)

Inductive fut_state : Type :=
  | FPending
  | FResult (v : json)
  | FException (e : exn)
  | FCancelled.

(** [future.done()] *)
Definition fut_done (s : fut_state) : bool :=
  match s with FPending => false | _ => true end.

(** [await future], once the future is done. *)
Definition await_result (s : fut_state) : option (res json) :=
  match s with
  | FPending => None
  | FResult v => Some (Ok v)
  | FException e => Some (Raise e)
  | FCancelled => Some (Raise CancelledError)
  end.

(** Who performs a step: a task running [send], the background
    [_read_loop] of a connection, or a call of [close]. *)
Inductive actor : Type :=
  | Caller (t : nat)
  | Reader (conn : nat)
  | Closer.

(** What is recorded of a run: the outside effects, and the insertion
    of a slot into the pending table. *)
Inductive event : Type :=
  | Eff (e : effect)
  | Register (msg_id : Z) (fut : nat).

(** Where a task running [send(method, params)] is suspended. *)
Inductive pc : Type :=
  | WaitLock                            (* async with self._lock *)
  | AwaitEnable (k : nat) (fut : nat)   (* in _ensure_connection_locked *)
  | AwaitReply (fut : nat)              (* in the caller's own _send_locked *)
  | Finished (r : res json).

Record task : Type := Task {
  t_method : string;
  t_params : option json;
  t_pc : pc
}.

Record world : Type := World {
  cl : client;
  futures : list fut_state;      (* the asyncio.Future objects, by identity *)
  conns : list bool;             (* the connection objects: is it closed? *)
  readers : gset nat;            (* connections whose _read_loop is running *)
  lock : option nat;             (* holder of self._lock *)
  tasks : gmap nat task;
  trace : list (actor * event)   (* oldest first *)
}.

Definition with_cl (f : client -> client) (w : world) : world :=
  {| cl := f (cl w); futures := futures w; conns := conns w; readers := readers w;
     lock := lock w; tasks := tasks w; trace := trace w |}.
Definition with_futures (f : list fut_state) (w : world) : world :=
  {| cl := cl w; futures := f; conns := conns w; readers := readers w;
     lock := lock w; tasks := tasks w; trace := trace w |}.
Definition with_conns (f : list bool) (w : world) : world :=
  {| cl := cl w; futures := futures w; conns := f; readers := readers w;
     lock := lock w; tasks := tasks w; trace := trace w |}.
Definition with_readers (f : gset nat) (w : world) : world :=
  {| cl := cl w; futures := futures w; conns := conns w; readers := f;
     lock := lock w; tasks := tasks w; trace := trace w |}.
Definition with_lock (f : option nat) (w : world) : world :=
  {| cl := cl w; futures := futures w; conns := conns w; readers := readers w;
     lock := f; tasks := tasks w; trace := trace w |}.
Definition with_tasks (f : gmap nat task) (w : world) : world :=
  {| cl := cl w; futures := futures w; conns := conns w; readers := readers w;
     lock := lock w; tasks := f; trace := trace w |}.
Definition with_trace (f : list (actor * event)) (w : world) : world :=
  {| cl := cl w; futures := futures w; conns := conns w; readers := readers w;
     lock := lock w; tasks := tasks w; trace := f |}.

Definition record (a : actor) (evs : list event) (w : world) : world :=
  with_trace (trace w ++ map (pair a) evs) w.

Definition conn_closed (w : world) (conn : nat) : bool :=
  default true (conns w !! conn).

Definition set_pc (t : nat) (p : pc) (w : world) : world :=
  with_tasks (alter (fun tk => {| t_method := t_method tk;
                                  t_params := t_params tk; t_pc := p |}) t
                    (tasks w)) w.

(** Leaving [async with self._lock] with outcome [r]. *)
Definition finish (t : nat) (r : res json) (w : world) : world :=
  with_lock None (set_pc t (Finished r) w).

(** The frame [_send_locked] serialises. *)
Definition payload_of (msg_id : Z) (method : string) (params : option json) : json :=
  JObj ([("id", JInt msg_id); ("method", JStr method)]
        ++ match params with
           | Some p => if truthy p then [("params", p)] else []
           | None => []
           end).

(** [_send_locked] up to its suspension on the future: the slot is
    registered, then the frame is handed to the channel, which raises
    when the connection is closed. *)
Definition _send_locked (a : actor) (method : string) (params : option json)
    (w : world) : res nat * world :=
  match session (cl w) with
  | None => (Raise AssertionError, w)
  | Some conn =>
      let msg_id := (_msg_id (cl w) + 1)%Z in
      let fut := length (futures w) in
      let w1 :=
        record a [Register msg_id fut]
          (with_futures (futures w ++ [FPending])
             (with_cl (fun c => set_pending (<[msg_id := fut]> (_pending_requests c))
                                  (set_msg_id msg_id c)) w)) in
      if conn_closed w conn
      then (Raise (TransportError "connection closed"), w1)
      else (Ok fut, record a [Eff (WsSend conn (payload_of msg_id method params))] w1)
  end.

(** ** The receive loop *)

(** The key a decoded ["id"] denotes in the pending table, whose keys
    are integers: [True == 1] and [1.0 == 1] hash alike in Python; an
    unhashable id raises [TypeError]. *)
Definition pending_key (v : json) : res (option Z) :=
  match v with
  | JInt z => Ok (Some z)
  | JBool b => Ok (Some (if b then 1 else 0)%Z)
  | JFloat q =>
      if (Z.rem (Qnum q) (Zpos (Qden q)) =? 0)%Z
      then Ok (Some (Z.quot (Qnum q) (Zpos (Qden q)))) else Ok None
  | JStr _ | JNull => Ok None
  | JArr _ | JObj _ => Raise (TypeError "unhashable")
  end.

(** What a response frame delivers to its future. *)
Definition outcome_of (d : list (string * json)) : fut_state :=
  match dict_get "error" d with
  | Some err => FException (RuntimeError err)
  | None => FResult (default JNull (dict_get "result" d))
  end.

(** [if not future.done(): future.set_...]: a future is resolved once. *)
Definition resolve (fut : nat) (s : fut_state) (futs : list fut_state)
    : list fut_state :=
  match futs !! fut with
  | Some FPending => <[fut := s]> futs
  | _ => futs
  end.

(** One iteration of [async for raw in self.session], on the decoded
    frame.  A failure inside the iteration is logged and changes
    nothing.  Handlers are external callables: their invocation is
    recorded. *)
Definition _read_loop_body (conn : nat) (data : json) (w : world) : world :=
  match data with
  | JObj d =>
      match dict_get "id" d with
      | Some (JNull) | None =>
          match dict_get "method" d with
          | Some (JStr method) =>
              if Str.is_empty method then w
              else record (Reader conn)
                     (map (fun h => Eff (CallHandler h data))
                          (default [] (_event_handlers (cl w) !! method))) w
          | _ => w
          end
      | Some msg_id =>
          match pending_key msg_id with
          | Ok (Some n) =>
              match _pending_requests (cl w) !! n with
              | Some fut =>
                  with_futures (resolve fut (outcome_of d) (futures w))
                    (with_cl (fun c => set_pending (delete n (_pending_requests c)) c) w)
              | None => w
              end
          | _ => w
          end
      end
  | _ => w
  end.

(** The [finally] clause of [_read_loop]. *)
Definition cancel_all (pending : gmap Z nat) (futs : list fut_state)
    : list fut_state :=
  foldr (fun fut acc => resolve fut FCancelled acc) futs
        (map snd (map_to_list pending)).

Definition _read_loop_finally (w : world) : world :=
  with_futures (cancel_all (_pending_requests (cl w)) (futures w))
    (with_cl (set_pending ∅) w).

(** [on(event, handler)] *)
Definition on (ev : string) (handler : nat) (c : client) : client :=
  set_handlers (<[ev := default [] (_event_handlers c !! ev) ++ [handler]]>
                  (_event_handlers c)) c.

(** ** Steps of the scheduler

    The tasks of the event loop interleave at their suspension points.
    A step runs one task from one suspension point to the next.  The
    awaits of connection establishment (HTTP discovery, opening the
    channel), of handing a frame to the channel and of [close] complete
    within the step of the task that issues them.  Tasks are not
    cancelled from outside, and event handlers, which are callables of
    the application, leave the client alone. *)
Inductive label : Type :=
  | Call (t : nat) (method : string) (params : option json)
      (* a task enters send(method, params) *)
  | Acquire (t : nat) (env : http_env) (connect_ok : bool)
      (* the task obtains the lock and runs to its first future *)
  | Resume (t : nat)
      (* the future the task awaits is done *)
  | Deliver (conn : nat) (data : json)
      (* the read loop of conn receives a frame *)
  | ReaderEnd (conn : nat)
      (* the iteration over conn ends, cleanly or by fault *)
  | Drop (conn : nat)
      (* the peer closes conn *)
  | CloseClient
      (* close() *)
  | On (ev : string) (handler : nat).

Module Scheduler.

Section Steps.

Variable check_bracketed_host : string -> bool.
Variable quote : string -> string.
(** Whether the connection objects of the installed [websockets]
    expose the attribute [closed]; [getattr(session, "closed", True)]
    yields [True] when they do not. *)
Variable ws_exposes_closed : bool.

(** The early return of [_ensure_connection_locked]. *)
Definition connected (w : world) : bool :=
  match session (cl w) with
  | Some conn => ws_exposes_closed && negb (conn_closed w conn)
  | None => false
  end.

(** [_ensure_connection_locked] up to its first suspension on a future:
    [Ok None] when the channel is usable as it is, [Ok (Some fut)] when
    a channel was opened and the reply to [Page.enable] is awaited. *)
Definition _ensure_connection_locked (t : nat) (env : http_env)
    (connect_ok : bool) (w : world) : res (option nat) * world :=
  if connected w then (Ok None, w)
  else
    let '(r, effs) := _create_target check_bracketed_host quote (cl w) env in
    let w1 := record (Caller t) (map Eff effs) w in
    match r with
    | Raise e => (Raise e, w1)
    | Ok (ws_url, tid) =>
        let w2 := with_cl (adopt_target tid) w1 in
        if connect_ok then
          let conn := length (conns w2) in
          let w3 :=
            record (Caller t) [Eff (WsConnect ws_url conn); Eff (CreateReadTask conn)]
              (with_readers ({[conn]} ∪ readers w2)
                 (with_conns (conns w2 ++ [false])
                    (with_cl (fun c => set_read_task (Some conn)
                                         (set_session (Some conn) c)) w2))) in
          match _send_locked (Caller t) "Page.enable" None w3 with
          | (Ok fut, w4) => (Ok (Some fut), w4)
          | (Raise e, w4) => (Raise e, w4)
          end
        else (Raise (TransportError "connect"), w2)
    end.

(** Suspend [t] on the future of a command, or leave [send] when the
    command could not be issued. *)
Definition issue (t : nat) (method : string) (params : option json)
    (next : nat -> pc) (w : world) : world :=
  match _send_locked (Caller t) method params w with
  | (Ok fut, w1) => set_pc t (next fut) w1
  | (Raise e, w1) => finish t (Raise e) w1
  end.

Definition acquire (t : nat) (tk : task) (env : http_env) (connect_ok : bool)
    (w : world) : world :=
  match _ensure_connection_locked t env connect_ok (with_lock (Some t) w) with
  | (Raise e, w1) => finish t (Raise e) w1
  | (Ok (Some fut), w1) => set_pc t (AwaitEnable 0 fut) w1
  | (Ok None, w1) => issue t (t_method tk) (t_params tk) AwaitReply w1
  end.

Definition resume (t : nat) (tk : task) (w : world) : option world :=
  match t_pc tk with
  | AwaitEnable k fut =>
      match futures w !! fut ≫= await_result with
      | None => None
      | Some (Raise e) => Some (finish t (Raise e) w)
      | Some (Ok _) =>
          Some match k with
               | O => issue t "Runtime.enable" None (AwaitEnable 1) w
               | S O => issue t "Network.enable" None (AwaitEnable 2) w
               | _ => issue t (t_method tk) (t_params tk) AwaitReply w
               end
      end
  | AwaitReply fut =>
      match futures w !! fut ≫= await_result with
      | None => None
      | Some r => Some (finish t r w)
      end
  | _ => None
  end.

Definition close_client (w : world) : world :=
  let '(c', effs) := close (cl w) in
  let w1 := match session (cl w) with
            | Some conn => with_conns (<[conn := true]> (conns w)) w
            | None => w
            end in
  record Closer (map Eff effs) (with_cl (fun _ => c') w1).

Definition step (l : label) (w : world) : option world :=
  match l with
  | Call t method params =>
      match tasks w !! t with
      | None => Some (with_tasks (<[t := Task method params WaitLock]> (tasks w)) w)
      | Some _ => None
      end
  | Acquire t env connect_ok =>
      match lock w, tasks w !! t with
      | None, Some tk =>
          match t_pc tk with
          | WaitLock => Some (acquire t tk env connect_ok w)
          | _ => None
          end
      | _, _ => None
      end
  | Resume t =>
      match tasks w !! t with
      | Some tk => resume t tk w
      | None => None
      end
  | Deliver conn data =>
      if decide (conn ∈ readers w) then Some (_read_loop_body conn data w)
      else None
  | ReaderEnd conn =>
      if decide (conn ∈ readers w)
      then Some (with_readers (readers w ∖ {[conn]})
                   (with_conns (<[conn := true]> (conns w))
                      (_read_loop_finally w)))
      else None
  | Drop conn => Some (with_conns (<[conn := true]> (conns w)) w)
  | CloseClient => Some (close_client w)
  | On ev handler => Some (with_cl (on ev handler) w)
  end.

(** A schedule, run from left to right. *)
Fixpoint exec (ls : list label) (w : world) : option world :=
  match ls with
  | [] => Some w
  | l :: ls' =>
      match step l w with
      | Some w' => exec ls' w'
      | None => None
      end
  end.

(** A client fresh from [__init__], before any task runs. *)
Definition boot (c : client) : world :=
  {| cl := c; futures := []; conns := []; readers := ∅; lock := None;
     tasks := ∅; trace := [] |}.

Definition fresh_client (c : client) : Prop :=
  session c = None /\ _msg_id c = 0%Z /\ _pending_requests c = ∅.

Definition reachable (w : world) : Prop :=
  exists c ls, fresh_client c /\ exec ls (boot c) = Some w.

(** The events of the run that task [t] performed, in order. *)
Definition log_of (t : nat) (w : world) : list event :=
  omap (fun '(a, e) => match a with
                       | Caller t' => if decide (t' = t) then Some e else None
                       | _ => None
                       end) (trace w).

(** The ids registered in the pending table, in order of registration. *)
Definition registered_ids (w : world) : list Z :=
  omap (fun '(_, e) => match e with Register n _ => Some n | _ => None end)
       (trace w).

(** Task [t] has a command of its own on the wire and no outcome yet. *)
Definition outstanding (w : world) (t : nat) : Prop :=
  exists tk fut, tasks w !! t = Some tk /\ t_pc tk = AwaitReply fut.

Definition pc_of (w : world) (t : nat) : option pc :=
  t_pc <$> tasks w !! t.

End Steps.

End Scheduler.

Import Scheduler.

(** ** The command façade

    The façade is built on [send] alone.  Here the outcome of the
    [k]-th [send] a façade operation issues is an input: [Ok result]
    when the reply carried a result, [Raise e] when [send] raised. *)
Module Facade.

Definition evaluate_params (expression : string) : json :=
  JObj [("expression", JStr expression); ("awaitPromise", JBool true);
        ("returnByValue", JBool true)].

(** ["value" in remote] followed by [remote["value"]] or [remote]. *)
Definition pick_value (remote : json) : res json :=
  match remote with
  | JObj d =>
      match dict_get "value" d with
      | Some v => Ok v
      | None => Ok remote
      end
  | JStr s =>
      if Str.has_substring "value" s then Raise (TypeError "string indices")
      else Ok remote
  | JArr l =>
      if existsb (fun x => match x with
                           | JStr s => String.eqb s "value"
                           | _ => false
                           end) l
      then Raise (TypeError "list indices") else Ok remote
  | _ => Raise (TypeError "not iterable")
  end.

(** [evaluate], given the outcome of its [send]. *)
Definition evaluate (sent : res json) : res json :=
  result <-- sent ;;
  match result with
  | JObj d => pick_value (default (JObj []) (dict_get "result" d))
  | _ => Raise (AttributeError "get")
  end.

(** The loop of [wait_for_expression].  [clock] lists the successive
    readings of the event-loop clock at the loop test, [sends k] is the
    outcome of the [send] of attempt [k].  [None]: the call is still
    polling when the readings end. *)
Fixpoint poll_expression (sends : nat -> res json) (deadline : Q)
    (k : nat) (clock : list Q) : option (res (option json)) :=
  match clock with
  | [] => None
  | now :: clock' =>
      if Qlt_le_dec now deadline then
        match evaluate (sends k) with
        | Ok result =>
            if truthy result then Some (Ok (Some result))
            else poll_expression sends deadline (S k) clock'
        | Raise e =>
            if is_Exception e
            then poll_expression sends deadline (S k) clock'
            else Some (Raise e)
        end
      else Some (Ok None)
  end.

(** [wait_for_expression(expression, timeout, interval)]: [start] is
    the clock reading that fixes the deadline. *)
Definition wait_for_expression (sends : nat -> res json) (start : Q)
    (clock : list Q) (timeout : Q) : option (res (option json)) :=
  poll_expression sends (start + timeout) 0 clock.

(** *** Synthetic input *)

Record mouse_event : Type := MouseEvent {
  m_type : string;
  m_x : Q;
  m_y : Q;
  m_button : option string;
  m_buttons : option Z
}.

(** The parameters [dispatch_mouse_event] sends with
    [Input.dispatchMouseEvent]. *)
Definition mouse_params (m : mouse_event) : json :=
  JObj ([("type", JStr (m_type m)); ("x", JFloat (m_x m)); ("y", JFloat (m_y m));
         ("modifiers", JInt 0); ("clickCount", JInt 1)]
        ++ match m_button m with Some b => [("button", JStr b)] | None => [] end
        ++ match m_buttons m with Some b => [("buttons", JInt b)] | None => [] end).

Inductive action : Type :=
  | Dispatch (m : mouse_event)     (* await dispatch_mouse_event(...) *)
  | Sleep (seconds : Q).           (* await asyncio.sleep(...) *)

(** [t * t * (3 - 2 * t)] *)
Definition smoothstep (t : Q) : Q := t * t * (3 - 2 * t).

(** Python's [max(a, b)]: [b] only when it is greater. *)
Definition pymax (a b : Q) : Q := if Qlt_le_dec a b then b else a.

(** The position of step [step] of [steps] without its jitter. *)
Definition eased (from to : Q) (steps : Z) (step : nat) : Q :=
  from + (to - from) * smoothstep (inject_Z (Z.of_nat step) / inject_Z steps).

Definition pace (duration : Q) (steps : Z) : Q :=
  pymax (duration / inject_Z steps) (2 # 100).

(** The body of the loop [for step in range(1, steps)]. *)
Definition drag_step (start finish : Q * Q) (duration : Q) (steps : Z)
    (jitter : nat -> Q * Q) (step : nat) : list action :=
  [Dispatch (MouseEvent "mouseMoved"
               (eased (fst start) (fst finish) steps step + fst (jitter step))
               (eased (snd start) (snd finish) steps step + snd (jitter step))
               (Some "none") (Some 1%Z));
   Sleep (pace duration steps)].

(** [drag_mouse(start, end, duration, steps)]: what the coroutine
    awaits, in order, when none of its sends raises.  [jitter step] is
    the pair drawn by [random.uniform] at that step. *)
Definition drag_mouse (start finish : Q * Q) (duration : Q) (steps : Z)
    (jitter : nat -> Q * Q) : list action :=
  let steps := Z.max steps 2 in
  [Dispatch (MouseEvent "mouseMoved" (fst start) (snd start) (Some "none") (Some 0%Z));
   Dispatch (MouseEvent "mousePressed" (fst start) (snd start) (Some "left") (Some 1%Z))]
  ++ flat_map (drag_step start finish duration steps jitter)
              (seq 1 (Z.to_nat steps - 1))
  ++ [Dispatch (MouseEvent "mouseMoved" (fst finish) (snd finish) (Some "none") (Some 1%Z));
      Dispatch (MouseEvent "mouseReleased" (fst finish) (snd finish) (Some "left") (Some 0%Z))].

End Facade.

(** ** The process supervisor ([BrowserGuard]) *)
Module Guard.

(** The constants of [src.config] the supervisor reads. *)
Record config : Type := Config {
  CHROME_BINARY : string;
  CHROME_EXTRA_ARGS : list string;   (* shlex.split of the raw setting *)
  CHROME_REMOTE_HOST : string;
  CHROME_REMOTE_PORT : string;
  CHROME_USER_DATA_DIR : string;
  CHROME_STARTUP_TIMEOUT : Q
}.

Record guard : Type := BrowserGuard {
  binary : string;
  auto_close : bool;
  headless : bool;
  manage_process : bool;
  extra_args : list string;
  _proc : option nat;
  _started_here : bool
}.

(** What the supervisor observes of the machine: the answer of the
    [k]-th reachability probe, the [k]-th reading of the clock, the
    return code the child shows at the [k]-th poll, and whether the
    [k]-th spawn fails. *)
Record env : Type := Env {
  alive : nat -> bool;
  now : nat -> Q;
  returncode : nat -> option Z;
  spawn_error : nat -> option exn
}.

Record state : Type := State {
  g : guard;
  probes : nat;                  (* probes made so far *)
  reads : nat;                   (* clock readings so far *)
  polls : nat;                   (* return-code polls so far *)
  spawned : list (list string)   (* argv of every process spawned *)
}.

Section Supervisor.

Variable cfg : config.
Variable world : env.

(** [_parse_extra_args] *)
Definition _parse_extra_args (parts : list string) : list string :=
  List.filter (fun part => negb (Str.is_empty part)) parts.

(** [BrowserGuard.__init__], with [manage_process] and the other
    switches already resolved against the configuration. *)
Definition new_guard (auto_close headless manage_process : bool) : guard :=
  {| binary := CHROME_BINARY cfg; auto_close := auto_close;
     headless := headless; manage_process := manage_process;
     extra_args := _parse_extra_args (CHROME_EXTRA_ARGS cfg);
     _proc := None; _started_here := false |}.

Definition start (gd : guard) : state :=
  {| g := gd; probes := 0; reads := 0; polls := 0; spawned := [] |}.

(** [_devtools_alive]: every failure of the probe is [False]. *)
Definition _devtools_alive (s : state) : bool * state :=
  (alive world (probes s),
   {| g := g s; probes := S (probes s); reads := reads s; polls := polls s;
      spawned := spawned s |}).

Definition read_clock (s : state) : Q * state :=
  (now world (reads s),
   {| g := g s; probes := probes s; reads := S (reads s); polls := polls s;
      spawned := spawned s |}).

Definition poll_returncode (s : state) : option Z * state :=
  (match _proc (g s) with Some _ => returncode world (polls s) | None => None end,
   {| g := g s; probes := probes s; reads := reads s; polls := S (polls s);
      spawned := spawned s |}).

Definition launch_args (gd : guard) : list string :=
  [binary gd;
   "--remote-debugging-port=" +:+ CHROME_REMOTE_PORT cfg;
   "--remote-debugging-address=" +:+ CHROME_REMOTE_HOST cfg;
   "--user-data-dir=" +:+ CHROME_USER_DATA_DIR cfg;
   "--no-first-run";
   "--no-default-browser-check"]
  ++ (if headless gd then ["--headless=new"; "--window-size=1920,1080"]
      else ["--start-maximized"; "--disable-software-rasterizer";
            "--disable-blink-features=AutomationControlled";
            "--disable-infobars"; "--exclude-switches=enable-automation";
            "--use-mock-keychain"])
  ++ extra_args gd.

(** [_launch]: the lock files are removed (failures are logged), then
    the process is spawned; [_proc] and [_started_here] are set only
    when the spawn succeeds. *)
Definition _launch (s : state) : res unit * state :=
  match spawn_error world (length (spawned s)) with
  | Some e => (Raise e, s)
  | None =>
      (Ok tt,
       {| g := {| binary := binary (g s); auto_close := auto_close (g s);
                  headless := headless (g s);
                  manage_process := manage_process (g s);
                  extra_args := extra_args (g s);
                  _proc := Some (length (spawned s));
                  _started_here := true |};
          probes := probes s; reads := reads s; polls := polls s;
          spawned := spawned s ++ [launch_args (g s)] |})
  end.

Definition exited_message : string := "Chrome exited during start-up".
Definition timeout_message : string :=
  "the DevTools port did not come up within the start-up timeout".

(** The loop of [_wait_until_ready]; [fuel] bounds its iterations and
    [None] says the bound was reached. *)
Fixpoint wait_loop (fuel : nat) (deadline : Q) (s : state)
    : option (res unit * state) :=
  match fuel with
  | O => None
  | S fuel' =>
      let '(t, s1) := read_clock s in
      if Qlt_le_dec t deadline then
        let '(up, s2) := _devtools_alive s1 in
        if up then Some (Ok tt, s2)
        else
          let '(code, s3) := poll_returncode s2 in
          match code with
          | Some _ => Some (Raise (RuntimeErrorMsg exited_message), s3)
          | None => wait_loop fuel' deadline s3
          end
      else Some (Raise (RuntimeErrorMsg timeout_message), s1)
  end.

Definition _wait_until_ready (fuel : nat) (s : state) : option (res unit * state) :=
  let '(t, s1) := read_clock s in
  wait_loop fuel (t + CHROME_STARTUP_TIMEOUT cfg) s1.

Definition unavailable_message : string :=
  "the DevTools port is unavailable and process management is disabled".

(** [ensure]; calls are serialised by [_launch_lock]. *)
Definition ensure (fuel : nat) (s : state) : option (res bool * state) :=
  let '(up, s1) := _devtools_alive s in
  if up then Some (Ok false, s1)
  else if negb (manage_process (g s1))
  then Some (Raise (RuntimeErrorMsg unavailable_message), s1)
  else
    match _launch s1 with
    | (Raise e, s2) => Some (Raise e, s2)
    | (Ok _, s2) =>
        match _wait_until_ready fuel s2 with
        | None => None
        | Some (Raise e, s3) => Some (Raise e, s3)
        | Some (Ok _, s3) => Some (Ok true, s3)
        end
    end.

(** [n] calls of [ensure] one after the other: the outcome of each
    call and the state it leaves. *)
Fixpoint ensure_many (fuel n : nat) (s : state)
    : option (list (res bool * state)) :=
  match n with
  | O => Some []
  | S n' =>
      match ensure fuel s with
      | None => None
      | Some (r, s1) =>
          match ensure_many fuel n' s1 with
          | None => None
          | Some runs => Some ((r, s1) :: runs)
          end
      end
  end.

(** The state the [i]-th call of a sequence starts from. *)
Definition state_before (s : state) (runs : list (res bool * state)) (i : nat)
    : state :=
  match i with
  | O => s
  | S i' => default s (snd <$> runs !! i')
  end.

(** The endpoint, once reachable, stays reachable. *)
Definition no_endpoint_loss : Prop :=
  forall i j : nat, (i <= j)%nat -> alive world i = true -> alive world j = true.

Definition returned_true (r : res bool * state) : bool :=
  match fst r with Ok true => true | _ => false end.

(** The clock passes the deadline of a launch that starts in [s]
    within [d] further readings. *)
Definition clock_advances (s : state) (d : nat) : Prop :=
  (now world (reads s) + CHROME_STARTUP_TIMEOUT cfg <= now world (reads s + 1 + d))%Q.

End Supervisor.

End Guard.

(** ** Vocabulary of the statements *)

(** A match of the target's host against the allowed host: the allowed
    host is present and non-empty, and the target's host is equal to it
    or ends with a dot followed by it. *)
Definition host_matches (check_bracketed_host : string -> bool)
    (c : client) (target_url : string) : Prop :=
  exists allowed host,
    _allowed_host c = Some allowed /\ allowed <> "" /\
    target_host check_bracketed_host target_url = Ok host /\
    (host = allowed \/ Str.endswith host ("." +:+ allowed) = true).

(** The future a suspended task awaits. *)
Definition awaits (w : world) (t : nat) (fut : nat) : Prop :=
  exists tk, tasks w !! t = Some tk /\
             (t_pc tk = AwaitReply fut \/ exists k, t_pc tk = AwaitEnable k fut).

(** A task inside the critical section of [send]: it holds the lock
    and is suspended on a future. *)
Definition in_flight (w : world) (t : nat) : Prop :=
  exists fut, awaits w t fut.

(** The lock discipline of [send]: whoever is suspended on a future
    holds the lock. *)
Definition lock_inv (w : world) : Prop :=
  forall t fut, awaits w t fut -> lock w = Some t.

(** Labels of the send path and of the receive loop. *)
Definition is_send_path (l : label) : bool :=
  match l with Acquire _ _ _ | Resume _ => true | _ => false end.

Definition is_receive_loop (l : label) : bool :=
  match l with Deliver _ _ | ReaderEnd _ => true | _ => false end.

(** What a step of task [t] does to the task table and the lock: the
    program counter of [t] moves to [p], and the lock is released when
    [p] is final. *)
Definition moves (t : nat) (p : pc) (lk : option nat) (w w' : world) : Prop :=
  tasks w' = alter (fun tk => Task (t_method tk) (t_params tk) p) t (tasks w)
  /\ lock w' = match p with Finished _ => None | _ => lk end
  /\ p <> WaitLock.

(** The part of the state the pending table lives in: the id counter,
    the table, the ids registered so far and the futures. *)
Definition view (w : world) : Z * gmap Z nat * list Z * list fut_state :=
  (_msg_id (cl w), _pending_requests (cl w), registered_ids w, futures w).

(** At most one registration: the counter is incremented and the new
    id is bound to a new future. *)
Definition registers (v v' : Z * gmap Z nat * list Z * list fut_state) : Prop :=
  let '(n, pending, ids, futs) := v in
  v' = v \/
  v' = ((n + 1)%Z, <[(n + 1)%Z := length futs]> pending, ids ++ [(n + 1)%Z],
        futs ++ [FPending]).

(** No id above the counter is in the pending table or was registered,
    and the ids were registered in increasing order. *)
Definition ids_inv (w : world) : Prop :=
  (forall n fut, _pending_requests (cl w) !! n = Some fut -> (n <= _msg_id (cl w))%Z)
  /\ Forall (fun n => (n <= _msg_id (cl w))%Z) (registered_ids w)
  /\ StronglySorted Z.lt (registered_ids w).

(** The futures in the pending table are unresolved and pairwise
    distinct. *)
Definition live_inv (w : world) : Prop :=
  forall n fut, _pending_requests (cl w) !! n = Some fut ->
    futures w !! fut = Some FPending
    /\ forall n', _pending_requests (cl w) !! n' = Some fut -> n' = n.

(** ** The script of a lazy connection

    What a task that finds no usable channel does before its own
    command goes out: the discovery and creation requests [resolution],
    the opening of the channel, the start of the receive loop, and the
    three enabling commands, with ids [n+1 .. n+3]; its own command has
    id [n+4]. *)
Definition enable_name (i : nat) : string :=
  match i with
  | O => "Page.enable"
  | S O => "Runtime.enable"
  | _ => "Network.enable"
  end.

Definition enable_events (conn : nat) (n : Z) (f0 : nat) (i : nat) : list event :=
  [Register (n + 1 + Z.of_nat i)%Z (f0 + i)%nat;
   Eff (WsSend conn (payload_of (n + 1 + Z.of_nat i)%Z (enable_name i) None))].

Definition handshake (conn : nat) (n : Z) (f0 : nat) (k : nat) : list event :=
  flat_map (enable_events conn n f0) (seq 0 k).

Definition own_events (conn : nat) (n : Z) (f0 : nat) (method : string)
    (params : option json) : list event :=
  [Register (n + 4)%Z (f0 + 3)%nat;
   Eff (WsSend conn (payload_of (n + 4)%Z method params))].

Definition opening (resolution : list effect) (ws_url : string) (conn : nat)
    : list event :=
  map Eff resolution ++ [Eff (WsConnect ws_url conn); Eff (CreateReadTask conn)].

Definition connect_script (resolution : list effect) (ws_url : string)
    (conn : nat) (n : Z) (f0 : nat) (method : string) (params : option json)
    : list event :=
  opening resolution ws_url conn ++ handshake conn n f0 3
  ++ own_events conn n f0 method params.

(** The channel address [_create_target] returned, if it returned. *)
Definition resolved_url (r : res (string * string)) : string :=
  match r with Ok (ws_url, _) => ws_url | Raise _ => "" end.

(** Where a task that started a lazy connection stands: its events so
    far are [L0] followed by the part of the script it has reached. *)
Definition lazy_inv (t : nat) (m : string) (p : option json)
    (L0 pre : list event) (conn : nat) (n : Z) (f0 : nat) (w : world) : Prop :=
  exists tk,
    tasks w !! t = Some tk /\ t_method tk = m /\ t_params tk = p /\
    match t_pc tk with
    | WaitLock => False
    | AwaitEnable k fut =>
        (k <= 2)%nat
        /\ log_of t w = L0 ++ pre ++ handshake conn n f0 (S k)
        /\ _msg_id (cl w) = (n + 1 + Z.of_nat k)%Z
        /\ length (futures w) = (f0 + k + 1)%nat
        /\ (session (cl w) = Some conn \/ session (cl w) = None)
    | AwaitReply _ | Finished (Ok _) =>
        log_of t w = L0 ++ pre ++ handshake conn n f0 3 ++ own_events conn n f0 m p
    | Finished (Raise _) =>
        log_of t w `prefix_of`
          (L0 ++ pre ++ handshake conn n f0 3 ++ own_events conn n f0 m p)
    end.

(** The actor of a step. *)
Definition actor_of (l : label) : actor :=
  match l with
  | Acquire t _ _ | Resume t | Call t _ _ => Caller t
  | Deliver conn _ | ReaderEnd conn | Drop conn => Reader conn
  | CloseClient | On _ _ => Closer
  end.

(** The mouse events and the pauses of a gesture, each in order. *)
Definition dispatched (acts : list Facade.action) : list Facade.mouse_event :=
  omap (fun a => match a with Facade.Dispatch m => Some m | Facade.Sleep _ => None end) acts.

Definition sleeps (acts : list Facade.action) : list Q :=
  omap (fun a => match a with Facade.Sleep d => Some d | Facade.Dispatch _ => None end) acts.

(** The interpolated move of step [step]. *)
Definition interpolated (start finish : Q * Q) (steps : Z) (jitter : nat -> Q * Q)
    (step : nat) : Facade.mouse_event :=
  Facade.MouseEvent "mouseMoved"
    (Facade.eased (fst start) (fst finish) steps step + fst (jitter step))
    (Facade.eased (snd start) (snd finish) steps step + snd (jitter step))
    (Some "none") (Some 1%Z).

(** An attempt of a polling helper that yields nothing: the evaluation
    gave a falsy value or raised an ordinary exception. *)
Definition quiet (sends : nat -> res json) (k : nat) : Prop :=
  match Facade.evaluate (sends k) with
  | Ok v => truthy v = false
  | Raise e => is_Exception e = true
  end.

(** ** Concrete runs

    A browser at [http://127.0.0.1:9222] and a client created for
    [https://example.com], used to evaluate the model. *)
Module Scenario.

Definition chk (_ : string) : bool := true.
(** [quote] leaves [https://example.com] as it is. *)
Definition quote (s : string) : string := s.
Definition base : string := "http://127.0.0.1:9222".

Definition c0 : client :=
  {| base_url := base; initial_url := "https://example.com";
     session := None; target_id := None; _reused_existing := false;
     _msg_id := 0; _allowed_host := Some "example.com";
     _pending_requests := ∅; _event_handlers := ∅; _read_task := None |}.

Definition page (id url : string) : target_entry :=
  {| t_type := Some "page";
     t_webSocketDebuggerUrl := Some ("ws://127.0.0.1:9222/devtools/page/" +:+ id);
     t_url := Some url; t_id := Some id; t_title := Some "tab" |}.

Definition respond (status : Z) (b : http_body) : res http_response :=
  Ok {| status_code := status; body := b |}.

(** The browser shows no page and creates one on request. *)
Definition fresh_env : http_env :=
  {| http_get := fun url =>
       if String.eqb url (base +:+ "/json/list") then respond 200 (BodyTargets [])
       else respond 200 (BodyTarget (page "N" "https://example.com"));
     http_post := fun _ _ => respond 405 BodyOther |}.

(** The browser shows a page of the allowed site. *)
Definition page_env : http_env :=
  {| http_get := fun url =>
       if String.eqb url (base +:+ "/json/list")
       then respond 200 (BodyTargets [page "A" "https://example.com/p"])
       else respond 200 (BodyTarget (page "N" "https://example.com"));
     http_post := fun _ _ => respond 405 BodyOther |}.

(** The browser shows a page of another site and answers 405 to both
    ways of creating a target. *)
Definition blocked_env : http_env :=
  {| http_get := fun url =>
       if String.eqb url (base +:+ "/json/list")
       then respond 200 (BodyTargets [page "T1" "https://other.com/"])
       else respond 405 BodyOther;
     http_post := fun _ _ => respond 405 BodyOther |}.

Definition reply (n : Z) (result : json) : json :=
  JObj [("id", JInt n); ("result", result)].

Definition run (ls : list label) : world :=
  default (boot c0) (exec chk quote true ls (boot c0)).

(** Task 1 connects, has its three enabling commands answered and is
    left waiting for the reply to its own command; task 2 has entered
    [send] meanwhile. *)
Definition one_outstanding : list label :=
  [Call 1 "Runtime.evaluate" (Some (Facade.evaluate_params "1"));
   Call 2 "Page.navigate" (Some (JObj [("url", JStr "https://example.com")]));
   Acquire 1 fresh_env true;
   Deliver 0 (reply 1 (JObj [])); Resume 1;
   Deliver 0 (reply 2 (JObj [])); Resume 1;
   Deliver 0 (reply 3 (JObj [])); Resume 1].

End Scenario.

Module ScenarioLazy.

(** Task 1 has entered [send]; nothing else has happened. *)
Definition called : list label :=
  [Call 1 "Runtime.evaluate" (Some (Facade.evaluate_params "1"))].

(** The browser answers the three enabling commands. *)
Definition answered : list label :=
  [Deliver 0 (Scenario.reply 1 (JObj [])); Resume 1;
   Deliver 0 (Scenario.reply 2 (JObj [])); Resume 1;
   Deliver 0 (Scenario.reply 3 (JObj [])); Resume 1].

End ScenarioLazy.

Module ScenarioClose.

(** A task connects; the browser is the one given. *)
Definition connect (env : http_env) : list label :=
  [Call 1 "Page.navigate" (Some (JObj [("url", JStr "https://example.com")]));
   Acquire 1 env true].

End ScenarioClose.

(** A gesture without jitter. *)
Definition no_jitter (_ : nat) : Q * Q := (0, 0)%Q.

(** What Chrome answers to [Runtime.evaluate] of the expression [false]. *)
Definition evaluates_to_false : res json :=
  Ok (JObj [("result", JObj [("type", JStr "boolean"); ("value", JBool false)])]).

Module ScenarioGuard.

Definition cfg : Guard.config :=
  {| Guard.CHROME_BINARY := "google-chrome";
     Guard.CHROME_EXTRA_ARGS := ["--no-sandbox"];
     Guard.CHROME_REMOTE_HOST := "127.0.0.1";
     Guard.CHROME_REMOTE_PORT := "9222";
     Guard.CHROME_USER_DATA_DIR := "/data/chrome-profile";
     Guard.CHROME_STARTUP_TIMEOUT := 40 |}.

(** The endpoint answers from the third probe on; the clock advances
    by 0.4 s per reading; the child keeps running; spawning works. *)
Definition world : Guard.env :=
  {| Guard.alive := fun k => (2 <=? k)%nat;
     Guard.now := fun k => (inject_Z (Z.of_nat k) * (4 # 10))%Q;
     Guard.returncode := fun _ => None;
     Guard.spawn_error := fun _ => None |}.

Definition guard : Guard.guard := Guard.new_guard cfg true true true.

End ScenarioGuard.

(** ** Further operations of the client

    The operations of [ChromeDevToolsClient] built on [send] that the
    façade above leaves out. *)
Module Probe.

(** A command as [send] receives it: the method and the parameters. *)
Definition command : Type := (string * option json)%type.

(** [ready_state == "complete"] *)
Definition is_complete (ready_state : json) : bool :=
  match ready_state with
  | JStr s => String.eqb s "complete"
  | _ => false
  end.

(** The loop of [wait_for_ready]; [clock] and [sends] are as in
    [Facade.poll_expression].  An attempt that raises an [Exception]
    counts as [ready_state = None]. *)
Fixpoint poll_ready (sends : nat -> res json) (deadline : Q)
    (k : nat) (clock : list Q) : option (res bool) :=
  match clock with
  | [] => None
  | now :: clock' =>
      if Qlt_le_dec now deadline then
        match Facade.evaluate (sends k) with
        | Ok ready_state =>
            if is_complete ready_state then Some (Ok true)
            else poll_ready sends deadline (S k) clock'
        | Raise e =>
            if is_Exception e
            then poll_ready sends deadline (S k) clock'
            else Some (Raise e)
        end
      else Some (Ok false)
  end.

(** [wait_for_ready(timeout)] *)
Definition wait_for_ready (sends : nat -> res json) (start : Q)
    (clock : list Q) (timeout : Q) : option (res bool) :=
  poll_ready sends (start + timeout) 0 clock.

(** The clip rectangle built from [contentSize]. *)
Definition content_clip (content : json) : res json :=
  match content with
  | JObj d =>
      Ok (JObj [("x", JInt 0); ("y", JInt 0);
                ("width", default (JInt 800) (dict_get "width" d));
                ("height", default (JInt 600) (dict_get "height" d));
                ("scale", JInt 1)])
  | _ => Raise (AttributeError "get")
  end.

(** The body of the [try] block of [capture_screenshot], given the
    outcome of [send("Page.getLayoutMetrics")]. *)
Definition metrics_clip (sent : res json) : res json :=
  layout_metrics <-- sent ;;
  match layout_metrics with
  | JObj d => content_clip (default (JObj []) (dict_get "contentSize" d))
  | _ => Raise (AttributeError "get")
  end.

Definition screenshot_params (clip : option json) : json :=
  JObj ([("format", JStr "png")]
        ++ match clip with Some c => [("clip", c)] | None => [] end).

Definition layout_command : command := ("Page.getLayoutMetrics", None).
Definition capture_command (clip : option json) : command :=
  ("Page.captureScreenshot", Some (screenshot_params clip)).

(** [result.get("data")] of the reply to [Page.captureScreenshot];
    Python's [None] is [JNull]. *)
Definition screenshot_data (sent : res json) : res json :=
  result <-- sent ;;
  match result with
  | JObj d => Ok (default JNull (dict_get "data" d))
  | _ => Raise (AttributeError "get")
  end.

(** The branch of [capture_screenshot] without a clip of the caller. *)
Definition capture_unclipped (sends : nat -> res json) (full_page : bool)
    : res json * list command :=
  if full_page then
    match metrics_clip (sends 0%nat) with
    | Ok c => (screenshot_data (sends 1%nat),
               [layout_command; capture_command (Some c)])
    | Raise e =>
        if is_Exception e
        then (screenshot_data (sends 1%nat),
              [layout_command; capture_command None])
        else (Raise e, [layout_command])
    end
  else (screenshot_data (sends 0%nat), [capture_command None]).

(** [capture_screenshot(full_page, clip)]: the outcome and the commands
    handed to [send], in order; [sends k] is the outcome of the [k]-th
    of them. *)
Definition capture_screenshot (sends : nat -> res json) (full_page : bool)
    (clip : option json) : res json * list command :=
  match clip with
  | Some c =>
      if truthy c
      then (screenshot_data (sends 0%nat), [capture_command (Some c)])
      else capture_unclipped sends full_page
  | None => capture_unclipped sends full_page
  end.

End Probe.

(** ** Stopping the managed browser *)
Module Teardown.

Import Guard.

(** How an attempt to stop the child ends: it exits within the time
    allowed, the wait times out ([asyncio.TimeoutError]), or the signal
    or the wait raises. *)
Inductive exit_wait : Type :=
  | Exited
  | TimedOut
  | Failed (e : exn).

(** What the supervisor does to its child. *)
Inductive proc_action : Type :=
  | Terminate (pid : nat)
  | Kill (pid : nat).

(** Whether an [except Exception] clause catches the way the attempt
    ended; [asyncio.TimeoutError] derives from [Exception]. *)
Definition caught (o : exit_wait) : bool :=
  match o with
  | Exited => false
  | TimedOut => true
  | Failed e => is_Exception e
  end.

(** The [finally] clause of [shutdown]. *)
Definition released (gd : guard) : guard :=
  {| binary := binary gd; auto_close := auto_close gd; headless := headless gd;
     manage_process := manage_process gd; extra_args := extra_args gd;
     _proc := None; _started_here := false |}.

(** What an attempt that is not caught leaves to the caller. *)
Definition escaping (o : exit_wait) : res unit :=
  match o with
  | Failed e => if is_Exception e then Ok tt else Raise e
  | _ => Ok tt
  end.

(** [shutdown]: [graceful] is how [terminate()] and the wait of 3 s
    end, [forced] how [kill()] and the wait of 2 s end. *)
Definition shutdown (graceful forced : exit_wait) (gd : guard)
    : res unit * guard * list proc_action :=
  match _proc gd with
  | None => (Ok tt, gd, [])
  | Some pid =>
      if caught graceful
      then (escaping forced, released gd, [Terminate pid; Kill pid])
      else (escaping graceful, released gd, [Terminate pid])
  end.

Definition with_guard (gd : guard) (s : state) : state :=
  {| g := gd; probes := probes s; reads := reads s; polls := polls s;
     spawned := spawned s |}.

(** The calls an owner of the supervisor makes. *)
Inductive op : Type :=
  | DoEnsure
  | DoShutdown (graceful forced : exit_wait).

Section Lifecycle.

Variable cfg : config.
Variable world : env.

(** [lifecycle()] around a [with] body.  The body receives [started]
    and may itself use the supervisor; [None] says that [ensure] or the
    body did not come to an end within the bound. *)
Definition lifecycle {A : Type} (fuel : nat)
    (body : bool -> state -> option (res A * state))
    (graceful forced : exit_wait) (s : state)
    : option (res A * state * list proc_action) :=
  match ensure cfg world fuel s with
  | None => None
  | Some (Raise e, s1) => Some (Raise e, s1, [])
  | Some (Ok started, s1) =>
      match body started s1 with
      | None => None
      | Some (r, s2) =>
          if started && auto_close (g s2) then
            let '(stopped, gd, acts) := shutdown graceful forced (g s2) in
            Some (match stopped with Raise e => Raise e | Ok _ => r end,
                  with_guard gd s2, acts)
          else Some (r, s2, [])
      end
  end.

Definition run_op (fuel : nat) (o : op) (s : state)
    : option (state * list proc_action) :=
  match o with
  | DoEnsure =>
      match ensure cfg world fuel s with
      | Some (_, s1) => Some (s1, [])
      | None => None
      end
  | DoShutdown graceful forced =>
      let '(_, gd, acts) := shutdown graceful forced (g s) in
      Some (with_guard gd s, acts)
  end.

(** A sequence of calls, one after the other, with what they did to
    child processes. *)
Fixpoint run_ops (fuel : nat) (os : list op) (s : state)
    : option (state * list proc_action) :=
  match os with
  | [] => Some (s, [])
  | o :: os' =>
      match run_op fuel o s with
      | None => None
      | Some (s1, acts) =>
          match run_ops fuel os' s1 with
          | None => None
          | Some (s2, acts') => Some (s2, acts ++ acts')
          end
      end
  end.

End Lifecycle.

(** The handle and the ownership mark go together, and the handle
    names the process spawned last. *)
Definition owned (s : state) : Prop :=
  (_started_here (g s) = true <-> is_Some (_proc (g s)))
  /\ forall pid, _proc (g s) = Some pid -> S pid = length (spawned s).

Definition pid_of (a : proc_action) : nat :=
  match a with Terminate pid | Kill pid => pid end.

End Teardown.

(** ** Waiting for a login ([AutomationService._wait_for_login]) *)
Module Workflow.

(** What the loop reads of a [LoginStatusResponse]. *)
Record login_response : Type := LoginResponse {
  success : bool;
  state : string        (* response.status.state *)
}.

Definition _POLLABLE_STATES : list string :=
  ["needs_qr_scan"; "captcha_gate"; "unknown"].

(** [state in _POLLABLE_STATES] *)
Definition pollable (st : string) : bool :=
  existsb (String.eqb st) _POLLABLE_STATES.

Inductive login_step : Type :=
  | Probed (attempt : nat)                   (* ensure_login_status() *)
  | Noted (attempt : nat) (st : string)      (* diagnostics.append(...) *)
  | Slept (interval : Q).                    (* asyncio.sleep(interval) *)

(** The loop over [range(1, attempts + 1)] with the iterations [todo]
    left; [probe k] is the outcome of the call of
    [ensure_login_status] in iteration [k]. *)
Fixpoint login_loop (probe : nat -> res login_response) (attempts : Z)
    (interval : Q) (todo : list nat) (latest_response : option login_response)
    : res login_response * list login_step :=
  match todo with
  | [] =>
      (match latest_response with
       | Some r => Ok r
       | None => Raise AssertionError
       end, [])
  | attempt :: todo' =>
      match probe attempt with
      | Raise e => (Raise e, [Probed attempt])
      | Ok response =>
          let steps := [Probed attempt; Noted attempt (state response)] in
          if success response then (Ok response, steps)
          else if negb (pollable (state response)) then (Ok response, steps)
          else
            let pause :=
              if (Z.of_nat attempt <? attempts)%Z then [Slept interval] else [] in
            let '(r, rest) :=
              login_loop probe attempts interval todo' (Some response) in
            (r, steps ++ pause ++ rest)
      end
  end.

Definition _wait_for_login (probe : nat -> res login_response) (attempts : Z)
    (interval : Q) : res login_response * list login_step :=
  login_loop probe attempts interval (seq 1 (Z.to_nat attempts)) None.

Definition probes_of (steps : list login_step) : list nat :=
  omap (fun s => match s with Probed k => Some k | _ => None end) steps.

Definition pauses_of (steps : list login_step) : list Q :=
  omap (fun s => match s with Slept d => Some d | _ => None end) steps.

(** An attempt after which the loop goes on: the probe answered
    without success, in a state worth polling. *)
Definition pending_login (probe : nat -> res login_response) (k : nat) : Prop :=
  exists r, probe k = Ok r /\ success r = false /\ pollable (state r) = true.

(** How the wait ends at attempt [j]: with the error of the probe, or
    with its answer, which is a success, a state not worth polling, or
    the answer of the last attempt allowed. *)
Definition ends_at (probe : nat -> res login_response) (attempts : Z)
    (j : nat) (r : res login_response) : Prop :=
  match probe j with
  | Raise e => r = Raise e
  | Ok response =>
      r = Ok response
      /\ (success response = true \/ pollable (state response) = false
          \/ Z.of_nat j = attempts)
  end.

End Workflow.

(** ** Vocabulary of the further properties *)

(** The handlers a schedule registers for [ev], in order. *)
Definition handlers_registered (ev : string) (ls : list label) : list nat :=
  omap (fun l => match l with
                 | On ev' handler => if String.eqb ev' ev then Some handler else None
                 | _ => None
                 end) ls.

(** A frame of the event branch of [_read_loop]: no id, and a
    non-empty method name. *)
Definition event_frame (d : list (string * json)) (ev : string) : Prop :=
  (dict_get "id" d = None \/ dict_get "id" d = Some JNull)
  /\ dict_get "method" d = Some (JStr ev) /\ ev <> "".

(** The session names a connection object that exists. *)
Definition session_inv (w : world) : Prop :=
  forall conn, session (cl w) = Some conn -> (conn < length (conns w))%nat.

(** A usable page the reuse policy turns down. *)
Definition turned_down (check_bracketed_host : string -> bool) (c : client)
    (entry : target_entry) : Prop :=
  usable_page entry = true ->
  _can_reuse_target check_bracketed_host c (default "" (t_url entry)) = Ok false.

(** The interval between two coordinates, widened by [r] on each side. *)
Definition within (a b r x : Q) : Prop :=
  ((a - r <= x \/ b - r <= x) /\ (x <= a + r \/ x <= b + r))%Q.

(** A page of another site whose description lacks the id. *)
Definition anonymous_page : target_entry :=
  {| t_type := Some "page";
     t_webSocketDebuggerUrl := Some "ws://127.0.0.1:9222/devtools/page/T2";
     t_url := Some "https://other.com/"; t_id := None; t_title := None |}.

(** What Chrome answers to [Runtime.evaluate] of [document.readyState]. *)
Definition ready_reply (st : string) : res json :=
  Ok (JObj [("result", JObj [("type", JStr "string"); ("value", JStr st)])]).

(** The browser shows that page and answers 405 to both ways of
    creating a target. *)
Definition anonymous_env : http_env :=
  {| http_get := fun url =>
       if String.eqb url (Scenario.base +:+ "/json/list")
       then Scenario.respond 200 (BodyTargets [anonymous_page])
       else Scenario.respond 405 BodyOther;
     http_post := fun _ _ => Scenario.respond 405 BodyOther |}.

(** The step in which a task obtains the lock. *)
Definition is_acquire (l : label) : bool :=
  match l with Acquire _ _ _ => true | _ => false end.

(** The steps by which the client loses the channel [conn]: the peer
    closes it, its receive loop ends, or the owner calls [close]. *)
Definition loses (conn : nat) (l : label) : Prop :=
  l = Drop conn \/ l = ReaderEnd conn \/ l = CloseClient.

(** An attempt of [wait_for_ready] that does not end the wait: the
    evaluation gave something other than ["complete"] or raised an
    ordinary exception. *)
Definition not_ready (sends : nat -> res json) (k : nat) : Prop :=
  match Facade.evaluate (sends k) with
  | Ok v => Probe.is_complete v = false
  | Raise e => is_Exception e = true
  end.

(** Whether the caller of [capture_screenshot] gave a clip that counts
    ([if clip:]). *)
Definition given_clip (clip : option json) : bool :=
  match clip with Some c => truthy c | None => false end.

(** ** Further concrete runs *)
Module ScenarioMore.

(** The reply to the outstanding command of [Scenario.one_outstanding]
    arrives and task 1 returns; task 2 still waits for the lock. *)
Definition settled : list label :=
  [Deliver 0 (Scenario.reply 4 (JObj [])); Resume 1].

Definition idle : list label := Scenario.one_outstanding ++ settled.

(** Handlers 7 and 9 are registered for one event, handler 8 for
    another, before and after the client connects. *)
Definition listening : list label :=
  [On "Network.responseReceived" 7; On "Network.loadingFinished" 8]
  ++ Scenario.one_outstanding ++ [On "Network.responseReceived" 9].

Definition response_received : list (string * json) :=
  [("method", JStr "Network.responseReceived");
   ("params", JObj [("requestId", JStr "42.1")])].

(** The peer closes the connection; a late frame and a registration
    follow. *)
Definition after_drop : list label :=
  [Deliver 0 (Scenario.reply 9 (JObj [])); On "Page.loadEventFired" 1].

(** A page that is still loading at the first two attempts. *)
Definition slow_page (k : nat) : res json :=
  if (k <? 2)%nat then ready_reply "loading" else ready_reply "complete".

Definition ticks : list Q := [0; 5 # 10; 1; 20]%Q.

(** The owner starts the browser, fails to stop it gracefully, and
    asks for it again. *)
Definition restart : list Teardown.op :=
  [Teardown.DoEnsure; Teardown.DoShutdown Teardown.TimedOut Teardown.Exited;
   Teardown.DoEnsure].

(** A [with] body that raises. *)
Definition failing_body (started : bool) (s : Guard.state)
    : option (res bool * Guard.state) :=
  Some (Raise (ValueError "workflow"), s).

(** The browser lists a page whose address has an unbalanced bracket
    before a page of the allowed site. *)
Definition broken_page : target_entry := Scenario.page "B" "http://[::1/x".

Definition broken_env : http_env :=
  {| http_get := fun url =>
       if String.eqb url (Scenario.base +:+ "/json/list")
       then Scenario.respond 200
              (BodyTargets [broken_page; Scenario.page "A" "https://example.com/p"])
       else Scenario.respond 200 (BodyTarget (Scenario.page "N" "https://example.com"));
     http_post := fun _ _ => Scenario.respond 405 BodyOther |}.

(** The endpoint never answers and the child exits at once. *)
Definition crashing_world : Guard.env :=
  {| Guard.alive := fun _ => false;
     Guard.now := fun k => (inject_Z (Z.of_nat k) * (4 # 10))%Q;
     Guard.returncode := fun _ => Some 127%Z;
     Guard.spawn_error := fun _ => None |}.

End ScenarioMore.

(** * Properties *)

(** ** Strings *)

Lemma is_empty_true (s : string) : Str.is_empty s = true <-> s = "".
Proof. destruct s; simpl; split; congruence. Qed.

Lemma is_empty_false (s : string) : Str.is_empty s = false <-> s <> "".
Proof. destruct s; simpl; split; congruence. Qed.

Lemma rev_nonempty (c : ascii) (s : string) : Str.rev (String c s) <> "".
Proof.
  unfold Str.rev, Str.chars, Str.of_chars. simpl.
  destruct (List.rev (list_ascii_of_string s)); simpl; discriminate.
Qed.

Lemma endswith_empty (p : string) : p <> "" -> Str.endswith "" p = false.
Proof.
  intros Hp. destruct p as [|c p]; [congruence|].
  unfold Str.endswith. pose proof (rev_nonempty c p) as Hr.
  destruct (Str.rev (String c p)); [congruence | reflexivity].
Qed.

(** ** The reuse policy *)

Section ReusePolicy.

Variable check_bracketed_host : string -> bool.
Variable CHROME_REMOTE_URL : string.

Local Abbreviation can_reuse := (_can_reuse_target check_bracketed_host).
Local Abbreviation host_of := (target_host check_bracketed_host).
Local Abbreviation host_matches := (host_matches check_bracketed_host).

Lemma can_reuse_iff (c : client) (target_url : string) :
  can_reuse c target_url = Ok true <->
  Str.startswith target_url "about:blank" = true \/ host_matches c target_url.
Proof.
  unfold _can_reuse_target, host_matches.
  destruct (Str.is_empty target_url) eqn:Hurl.
  { apply is_empty_true in Hurl; subst target_url. split; [discriminate|].
    intros [H | (a & h & Ha & Hne & Hh & Hm)]; [discriminate H|].
    exfalso. unfold target_host, urlparse_hostname in Hh.
    vm_compute in Hh. injection Hh as <-.
    destruct Hm as [<- | Hm]; [congruence|].
    rewrite endswith_empty in Hm; [discriminate|]. discriminate. }
  destruct (Str.startswith target_url "about:blank") eqn:Hblank.
  { split; auto. }
  destruct (_allowed_host c) as [allowed|] eqn:Hallowed.
  2:{ split; [discriminate|].
      intros [H | (a & h & Ha & _)]; discriminate. }
  destruct (Str.is_empty allowed) eqn:Hae.
  { apply is_empty_true in Hae. split; [discriminate|].
    intros [H | (a & h & Ha & Hne & _)]; [discriminate|]. congruence. }
  apply is_empty_false in Hae.
  destruct (host_of target_url) as [host|e] eqn:Hhost; simpl.
  2:{ split; [discriminate|].
      intros [H | (a & h & _ & _ & Hh & _)]; discriminate. }
  destruct (Str.is_empty host) eqn:Hhe.
  { apply is_empty_true in Hhe; subst host. split; [discriminate|].
    intros [H | (a & h & Ha & Hne & Hh & Hm)]; [discriminate|].
    injection Ha as <-. injection Hh as <-.
    destruct Hm as [Hm | Hm]; [congruence|].
    rewrite endswith_empty in Hm; [discriminate|]. discriminate. }
  destruct (String.eqb host allowed) eqn:Heq.
  { apply String.eqb_eq in Heq. split; [|reflexivity].
    intros _. right. exists allowed, host. auto. }
  apply String.eqb_neq in Heq. split.
  - intros H. injection H as H. right. exists allowed, host. auto.
  - intros [H | (a & h & Ha & Hne & Hh & Hm)]; [discriminate|].
    injection Ha as <-. injection Hh as <-.
    destruct Hm as [Hm | Hm]; [congruence | now rewrite Hm].
Qed.

Lemma never_reusable (c : client) (target_url : string) :
  Str.startswith target_url "about:blank" = false ->
  _allowed_host c = None \/ host_of target_url = Ok "" \/
    (exists e, host_of target_url = Raise e) ->
  can_reuse c target_url <> Ok true.
Proof.
  intros Hblank Hcase Hreuse. apply can_reuse_iff in Hreuse.
  destruct Hreuse as [H | (a & h & Ha & Hne & Hh & Hm)]; [congruence|].
  destruct Hcase as [Hn | [He | [e He]]]; try congruence.
  rewrite Hh in He. injection He as ->.
  destruct Hm as [<- | Hm]; [congruence|].
  rewrite endswith_empty in Hm; [discriminate|]. discriminate.
Qed.

(** C4.  For every target URL the reuse decision is [True] exactly when
    the URL starts with [about:blank], or the allowed host taken from
    the initial URL is non-empty and the target's host is that host or
    ends with a dot followed by it.  A URL that does not start with
    [about:blank] is never reusable when its host is empty or cannot
    be parsed, or when there is no allowed host.  For a client created
    for [https://example.com], the pages [https://example.com/p] and
    [https://sub.example.com/p] are reusable and [https://other.com] is
    not, and [about:blank] is reusable; for a client created for
    [about:blank] there is no allowed host, and only [about:blank]
    pages are reusable. *)
Theorem reuse_policy :
  (forall c target_url,
      can_reuse c target_url = Ok true <->
      Str.startswith target_url "about:blank" = true \/ host_matches c target_url)
  /\ (forall c target_url,
         Str.startswith target_url "about:blank" = false ->
         _allowed_host c = None \/ host_of target_url = Ok "" \/
           (exists e, host_of target_url = Raise e) ->
         can_reuse c target_url <> Ok true)
  /\ (forall base, exists c,
         init check_bracketed_host CHROME_REMOTE_URL base "https://example.com" = Ok c
         /\ _allowed_host c = Some "example.com"
         /\ can_reuse c "https://example.com/p" = Ok true
         /\ can_reuse c "https://sub.example.com/p" = Ok true
         /\ can_reuse c "https://other.com" = Ok false
         /\ can_reuse c "about:blank" = Ok true)
  /\ (forall base, exists c,
         init check_bracketed_host CHROME_REMOTE_URL base "about:blank" = Ok c
         /\ _allowed_host c = None
         /\ can_reuse c "about:blank" = Ok true
         /\ can_reuse c "https://example.com/p" = Ok false).
Proof.
  split; [exact can_reuse_iff|]. split; [exact never_reusable|]. split.
  - intros base. eexists. split; [reflexivity|].
    repeat split; vm_compute; reflexivity.
  - intros base. eexists. split; [reflexivity|].
    repeat split; vm_compute; reflexivity.
Qed.

End ReusePolicy.

(** ** Futures *)

Lemma resolve_lookup_eq (fut : nat) (s : fut_state) (futs : list fut_state) :
  futs !! fut = Some FPending -> resolve fut s futs !! fut = Some s.
Proof.
  intros H. unfold resolve. rewrite H.
  apply list_lookup_insert_eq. by eapply lookup_lt_Some.
Qed.

Lemma resolve_lookup_ne (fut fut' : nat) (s : fut_state) (futs : list fut_state) :
  fut <> fut' -> resolve fut s futs !! fut' = futs !! fut'.
Proof.
  intros H. unfold resolve.
  destruct (futs !! fut) as [[]|]; try reflexivity.
  by apply list_lookup_insert_ne.
Qed.

Lemma resolve_lookup_done (fut fut' : nat) (s s' : fut_state) (futs : list fut_state) :
  futs !! fut' = Some s' -> s' <> FPending -> resolve fut s futs !! fut' = Some s'.
Proof.
  intros H Hd. destruct (decide (fut = fut')) as [->|Hne].
  - unfold resolve. rewrite H. by destruct s'.
  - by rewrite resolve_lookup_ne.
Qed.

Lemma resolve_length (fut : nat) (s : fut_state) (futs : list fut_state) :
  length (resolve fut s futs) = length futs.
Proof.
  unfold resolve. destruct (futs !! fut) as [[]|]; try reflexivity.
  apply length_insert.
Qed.

Lemma cancel_list_done (l : list nat) (futs : list fut_state) fut s :
  futs !! fut = Some s -> s <> FPending ->
  foldr (fun f acc => resolve f FCancelled acc) futs l !! fut = Some s.
Proof.
  intros H Hs. induction l as [|f l IH]; simpl; [done|].
  by eapply resolve_lookup_done.
Qed.

Lemma cancel_list_out (l : list nat) (futs : list fut_state) fut :
  fut ∉ l ->
  foldr (fun f acc => resolve f FCancelled acc) futs l !! fut = futs !! fut.
Proof.
  induction l as [|f l IH]; simpl; [done|]. intros Hn.
  apply not_elem_of_cons in Hn as [Hne Hn].
  rewrite resolve_lookup_ne; auto.
Qed.

Lemma cancel_list_in (l : list nat) (futs : list fut_state) fut :
  fut ∈ l -> futs !! fut = Some FPending ->
  foldr (fun f acc => resolve f FCancelled acc) futs l !! fut = Some FCancelled.
Proof.
  induction l as [|f l IH]; simpl; intros Hin Hp.
  - by apply elem_of_nil in Hin.
  - destruct (decide (f = fut)) as [->|Hne].
    + destruct (decide (fut ∈ l)) as [Hl|Hl].
      * eapply resolve_lookup_done; [by apply IH | done].
      * apply resolve_lookup_eq. by rewrite cancel_list_out.
    + rewrite resolve_lookup_ne by done. apply IH; [|done].
      apply elem_of_cons in Hin as [->|]; done.
Qed.

Lemma cancel_all_pending (pending : gmap Z nat) (futs : list fut_state) n fut :
  pending !! n = Some fut -> futs !! fut = Some FPending ->
  cancel_all pending futs !! fut = Some FCancelled.
Proof.
  intros Hn Hp. apply cancel_list_in; [|done].
  apply list_elem_of_fmap. exists (n, fut). split; [done|].
  by apply elem_of_map_to_list.
Qed.

Lemma cancel_all_done (pending : gmap Z nat) (futs : list fut_state) fut s :
  futs !! fut = Some s -> s <> FPending -> cancel_all pending futs !! fut = Some s.
Proof. apply cancel_list_done. Qed.

Lemma cancel_all_other (pending : gmap Z nat) (futs : list fut_state) fut :
  (forall n, pending !! n <> Some fut) ->
  cancel_all pending futs !! fut = futs !! fut.
Proof.
  intros Hn. apply cancel_list_out. intros Hin.
  apply list_elem_of_fmap in Hin as ([n f] & -> & Hin).
  apply elem_of_map_to_list in Hin. by apply (Hn n).
Qed.


(** ** Frame properties of the steps *)

Section Steps.

Variable check_bracketed_host : string -> bool.
Variable quote : string -> string.
Variable ws_exposes_closed : bool.

Local Abbreviation step := (step check_bracketed_host quote ws_exposes_closed).
Local Abbreviation exec := (exec check_bracketed_host quote ws_exposes_closed).
Local Abbreviation reachable := (reachable check_bracketed_host quote ws_exposes_closed).
Local Abbreviation ensure_connection :=
  (_ensure_connection_locked check_bracketed_host quote ws_exposes_closed).
Local Abbreviation acquire := (acquire check_bracketed_host quote ws_exposes_closed).

Lemma exec_app (ls1 ls2 : list label) (w : world) :
  exec (ls1 ++ ls2) w = exec ls1 w ≫= exec ls2.
Proof.
  revert w. induction ls1 as [|l ls1 IH]; intros w; simpl; [done|].
  destruct (step l w); simpl; auto.
Qed.

Lemma exec_invariant (P : world -> Prop) :
  (forall l w w', P w -> step l w = Some w' -> P w') ->
  forall ls w w', P w -> exec ls w = Some w' -> P w'.
Proof.
  intros Hstep ls. induction ls as [|l ls IH]; intros w w' HP Hex; simpl in Hex.
  - by injection Hex as <-.
  - destruct (step l w) as [w1|] eqn:Hs; [|discriminate]. eauto.
Qed.

Lemma reachable_step (l : label) (w w' : world) :
  reachable w -> step l w = Some w' -> reachable w'.
Proof.
  intros (c & ls & Hc & Hex) Hs. exists c, (ls ++ [l]). split; [done|].
  rewrite exec_app, Hex. simpl. by rewrite Hs.
Qed.

Lemma reachable_exec (ls : list label) (w w' : world) :
  reachable w -> exec ls w = Some w' -> reachable w'.
Proof.
  intros Hr. apply (exec_invariant reachable); [|done].
  intros l w1 w2 H1 H2. by eapply reachable_step.
Qed.

Lemma reachable_invariant (P : world -> Prop) :
  (forall c, fresh_client c -> P (boot c)) ->
  (forall l w w', P w -> step l w = Some w' -> P w') ->
  forall w, reachable w -> P w.
Proof.
  intros H0 Hs w (c & ls & Hc & Hex).
  eapply exec_invariant; [exact Hs | by apply H0 | exact Hex].
Qed.

(** *** [_send_locked] *)

Lemma send_locked_frame a m p w r w' :
  _send_locked a m p w = (r, w') ->
  tasks w' = tasks w /\ lock w' = lock w /\ readers w' = readers w
  /\ conns w' = conns w /\ session (cl w') = session (cl w)
  /\ _event_handlers (cl w') = _event_handlers (cl w).
Proof.
  unfold _send_locked. destruct (session (cl w)) as [conn|] eqn:Hs.
  - destruct (conn_closed w conn); intros [= <- <-]; simpl; rewrite ?Hs; auto 10.
  - intros [= <- <-]. rewrite Hs. auto 10.
Qed.

Lemma ensure_connection_frame t env ok w r w' :
  ensure_connection t env ok w = (r, w') ->
  tasks w' = tasks w /\ lock w' = lock w.
Proof.
  unfold _ensure_connection_locked. destruct (connected _ w).
  { intros [= <- <-]. auto. }
  destruct (_create_target _ _ _ _) as [[[ws tid]|e] effs].
  2:{ intros [= <- <-]. auto. }
  destruct ok.
  2:{ intros [= <- <-]. auto. }
  match goal with |- context [_send_locked ?a ?m ?p ?w0] =>
    destruct (_send_locked a m p w0) as [r1 w4] eqn:Hsl end.
  apply send_locked_frame in Hsl as (Ht & Hl & _). simpl in Ht, Hl.
  destruct r1; intros [= <- <-]; auto.
Qed.

Lemma tasks_set_pc t p w :
  tasks (set_pc t p w)
  = alter (fun tk => Task (t_method tk) (t_params tk) p) t (tasks w).
Proof. reflexivity. Qed.

Lemma issue_moves t m pr next w :
  (forall fut, exists fut', next fut = AwaitReply fut' \/ exists k, next fut = AwaitEnable k fut') ->
  exists p, moves t p (lock w) w (issue t m pr next w).
Proof.
  intros Hnext. unfold issue.
  destruct (_send_locked (Caller t) m pr w) as [[fut|e] w1] eqn:Hsl;
    apply send_locked_frame in Hsl as (Ht & Hl & _).
  - exists (next fut). unfold moves. simpl. rewrite Ht, Hl.
    destruct (Hnext fut) as [f' [-> | [k ->]]]; done.
  - exists (Finished (Raise e)). unfold moves. simpl. by rewrite Ht.
Qed.

Lemma acquire_moves t tk env ok w :
  exists p, moves t p (Some t) w (acquire t tk env ok w).
Proof.
  unfold Scheduler.acquire.
  destruct (ensure_connection t env ok (with_lock (Some t) w)) as [[[fut|]|e] w1] eqn:He;
    apply ensure_connection_frame in He as (Ht & Hl); simpl in Ht, Hl.
  - exists (AwaitEnable 0 fut). unfold moves. simpl. by rewrite Ht, Hl.
  - destruct (issue_moves t (t_method tk) (t_params tk) AwaitReply w1) as (p & H1 & H2 & H3).
    { intros f. exists f. by left. }
    exists p. unfold moves. by rewrite H1, H2, Ht, Hl.
  - exists (Finished (Raise e)). unfold moves. simpl. by rewrite Ht.
Qed.

Lemma resume_moves t tk w w' :
  resume t tk w = Some w' -> exists p, moves t p (lock w) w w'.
Proof.
  unfold resume. destruct (t_pc tk) as [|k fut|fut|r]; try discriminate.
  - destruct (futures w !! fut ≫= await_result) as [[v|e]|]; try discriminate.
    + intros [= <-]. destruct k as [|[|k]]; apply issue_moves; intros f; exists f;
        [right; by exists 1%nat | right; by exists 2%nat | by left].
    + intros [= <-]. exists (Finished (Raise e)). by unfold moves.
  - destruct (futures w !! fut ≫= await_result) as [r|]; try discriminate.
    intros [= <-]. exists (Finished r). by unfold moves.
Qed.

(** Steps of the receive loop, of [close], of [on] and of the peer
    leave the tasks and the lock alone. *)
Lemma step_other_frame l w w' :
  is_send_path l = false -> (forall t m p, l <> Call t m p) ->
  step l w = Some w' -> tasks w' = tasks w /\ lock w' = lock w.
Proof.
  intros Hl Hc. destruct l; try discriminate; simpl.
  - by specialize (Hc t method params).
  - case_decide; [|discriminate]. intros [= <-].
    unfold _read_loop_body. repeat case_match; simpl; auto.
  - case_decide; [|discriminate]. intros [= <-]. auto.
  - intros [= <-]. auto.
  - intros [= <-]. unfold close_client. destruct (close (cl w)) as [c' effs].
    destruct (session (cl w)); simpl; auto.
  - intros [= <-]. auto.
Qed.

Lemma awaits_moves t p lk w w' t' fut :
  moves t p lk w w' -> awaits w' t' fut ->
  (t' = t /\ is_Some (tasks w !! t)
   /\ (p = AwaitReply fut \/ exists k, p = AwaitEnable k fut))
  \/ (t' <> t /\ awaits w t' fut).
Proof.
  intros (Ht & Hl & Hp) (tk & Htk & Hpc). rewrite Ht in Htk.
  destruct (decide (t' = t)) as [->|Hne].
  - left. rewrite lookup_alter_eq in Htk.
    destruct (tasks w !! t) as [tk0|] eqn:H0; [|discriminate].
    injection Htk as <-. simpl in Hpc. eauto.
  - right. rewrite lookup_alter_ne in Htk by done. split; [done|]. by exists tk.
Qed.

Lemma lock_inv_step l w w' : lock_inv w -> step l w = Some w' -> lock_inv w'.
Proof.
  intros Hinv Hs. destruct (is_send_path l) eqn:Hsp.
  - destruct l; try discriminate; simpl in Hs.
    + destruct (lock w) eqn:Hlk; [discriminate|].
      destruct (tasks w !! t) as [tk|] eqn:Htk; [|discriminate].
      destruct (t_pc tk) eqn:Hpc; try discriminate. injection Hs as <-.
      destruct (acquire_moves t tk env connect_ok w) as (p & Hm).
      intros t' fut Ha. destruct (awaits_moves _ _ _ _ _ _ _ Hm Ha)
        as [(-> & _ & Hp) | (Hne & Ha')].
      * destruct Hm as (_ & -> & _). by destruct Hp as [-> | [k ->]].
      * apply Hinv in Ha'. congruence.
    + destruct (tasks w !! t) as [tk|] eqn:Htk; [|discriminate].
      assert (Hat : exists fut, awaits w t fut).
      { unfold resume in Hs. destruct (t_pc tk) eqn:Hpc; try discriminate;
          eexists; exists tk; eauto. }
      destruct Hat as [fut0 Hat]. apply Hinv in Hat.
      destruct (resume_moves _ _ _ _ Hs) as (p & Hm).
      intros t' fut Ha. destruct (awaits_moves _ _ _ _ _ _ _ Hm Ha)
        as [(-> & _ & Hp) | (Hne & Ha')].
      * destruct Hm as (_ & -> & _). by destruct Hp as [-> | [k ->]].
      * apply Hinv in Ha'. congruence.
  - destruct l; try discriminate.
    + simpl in Hs. destruct (tasks w !! t) eqn:Htk; [discriminate|].
      injection Hs as <-. intros t' fut (tk & Htk' & Hpc). simpl in *.
      destruct (decide (t' = t)) as [->|Hne].
      * rewrite lookup_insert_eq in Htk'. injection Htk' as <-.
        simpl in Hpc. destruct Hpc as [? | [? ?]]; discriminate.
      * rewrite lookup_insert_ne in Htk' by done. apply (Hinv t' fut). by exists tk.
    + apply step_other_frame in Hs as [Ht Hl]; [|done|done].
      intros t' fut (tk & Htk & Hpc). rewrite Hl. apply (Hinv t' fut).
      exists tk. by rewrite <- Ht.
    + apply step_other_frame in Hs as [Ht Hl]; [|done|done].
      intros t' fut (tk & Htk & Hpc). rewrite Hl. apply (Hinv t' fut).
      exists tk. by rewrite <- Ht.
    + apply step_other_frame in Hs as [Ht Hl]; [|done|done].
      intros t' fut (tk & Htk & Hpc). rewrite Hl. apply (Hinv t' fut).
      exists tk. by rewrite <- Ht.
    + apply step_other_frame in Hs as [Ht Hl]; [|done|done].
      intros t' fut (tk & Htk & Hpc). rewrite Hl. apply (Hinv t' fut).
      exists tk. by rewrite <- Ht.
    + apply step_other_frame in Hs as [Ht Hl]; [|done|done].
      intros t' fut (tk & Htk & Hpc). rewrite Hl. apply (Hinv t' fut).
      exists tk. by rewrite <- Ht.
Qed.

Lemma lock_inv_reachable w : reachable w -> lock_inv w.
Proof.
  apply reachable_invariant.
  - intros c _ t fut (tk & Htk & _). simpl in Htk. by rewrite lookup_empty in Htk.
  - apply lock_inv_step.
Qed.

End Steps.

(** ** Serialisation of [send] *)

Lemma scenario_reachable (ls : list label) (w : world) :
  exec Scenario.chk Scenario.quote true ls (boot Scenario.c0) = Some w ->
  reachable Scenario.chk Scenario.quote true w.
Proof. intros H. exists Scenario.c0, ls. by repeat split. Qed.

Lemma in_flight_unique chk quote wsx (w : world) (t1 t2 : nat) :
  reachable chk quote wsx w -> in_flight w t1 -> in_flight w t2 -> t1 = t2.
Proof.
  intros Hr [f1 H1] [f2 H2]. apply lock_inv_reachable in Hr.
  apply Hr in H1. apply Hr in H2. congruence.
Qed.

Lemma outstanding_in_flight (w : world) (t : nat) : outstanding w t -> in_flight w t.
Proof. intros (tk & fut & Htk & Hpc). exists fut, tk. auto. Qed.

(** C2, as stated, fails: in no reachable state do two tasks have a
    command of their own outstanding; and in the run where task 1 waits
    for its reply, task 2 cannot start, whatever the browser answers. *)
Lemma two_sends_never_outstanding :
  (~ exists chk quote wsx w t1 t2,
        reachable chk quote wsx w /\ t1 <> t2
        /\ outstanding w t1 /\ outstanding w t2)
  /\ outstanding (Scenario.run Scenario.one_outstanding) 1
  /\ pc_of (Scenario.run Scenario.one_outstanding) 2 = Some WaitLock
  /\ log_of 2 (Scenario.run Scenario.one_outstanding) = []
  /\ (forall env ok,
         step Scenario.chk Scenario.quote true (Acquire 2 env ok)
              (Scenario.run Scenario.one_outstanding) = None).
Proof.
  split.
  { intros (chk & quote & wsx & w & t1 & t2 & Hr & Hne & H1 & H2).
    apply Hne. eapply in_flight_unique; eauto using outstanding_in_flight. }
  split.
  { eexists _, _. split; vm_compute; reflexivity. }
  split; [vm_compute; reflexivity|]. split; [vm_compute; reflexivity|].
  intros env ok. vm_compute. reflexivity.
Qed.

(** C2 (amended).  [send] holds the lock of the client from the check
    of the connection until its own reply has arrived or failed:
    whenever a task is suspended inside [send], it holds the lock, no
    other task is inside, and no other task can enter, so at most one
    command is outstanding at a time. *)
Theorem send_is_serialized chk quote wsx (w : world) (t1 : nat) :
  reachable chk quote wsx w ->
  in_flight w t1 ->
  lock w = Some t1
  /\ (forall t2, in_flight w t2 -> t2 = t1)
  /\ (forall t2, outstanding w t2 -> t2 = t1)
  /\ (forall t2 env ok, step chk quote wsx (Acquire t2 env ok) w = None).
Proof.
  intros Hr [f1 H1]. pose proof (lock_inv_reachable _ _ _ _ Hr) as Hinv.
  pose proof (Hinv _ _ H1) as Hl. split; [done|]. split; [|split].
  - intros t2 [f2 H2]. apply Hinv in H2. congruence.
  - intros t2 H2. apply outstanding_in_flight in H2 as [f2 H2].
    apply Hinv in H2. congruence.
  - intros t2 env ok. simpl. by rewrite Hl.
Qed.

Lemma send_is_serialized_witness :
  lock (Scenario.run Scenario.one_outstanding) = Some 1%nat
  /\ (forall t2, in_flight (Scenario.run Scenario.one_outstanding) t2 -> t2 = 1%nat)
  /\ (forall t2, outstanding (Scenario.run Scenario.one_outstanding) t2 -> t2 = 1%nat)
  /\ (forall t2 env ok,
         step Scenario.chk Scenario.quote true (Acquire t2 env ok)
              (Scenario.run Scenario.one_outstanding) = None).
Proof.
  apply (send_is_serialized Scenario.chk Scenario.quote true).
  - apply (scenario_reachable Scenario.one_outstanding). vm_compute. reflexivity.
  - exists 3%nat. eexists. split; [vm_compute; reflexivity|]. left. reflexivity.
Defined.

(** ** Registrations *)

Section Registrations.

Variable check_bracketed_host : string -> bool.
Variable quote : string -> string.
Variable ws_exposes_closed : bool.

Local Abbreviation step := (step check_bracketed_host quote ws_exposes_closed).
Local Abbreviation reachable := (reachable check_bracketed_host quote ws_exposes_closed).
Local Abbreviation ensure_connection :=
  (_ensure_connection_locked check_bracketed_host quote ws_exposes_closed).
Local Abbreviation acquire := (acquire check_bracketed_host quote ws_exposes_closed).

Lemma registered_ids_record a evs w :
  registered_ids (record a evs w)
  = registered_ids w
    ++ omap (fun e => match e with Register n _ => Some n | _ => None end) evs.
Proof.
  unfold registered_ids, record. simpl. rewrite omap_app. f_equal.
  induction evs as [|e evs IH]; [done|]. destruct e; simpl; [exact IH | f_equal; exact IH].
Qed.

Lemma registered_ids_record_eff a effs w :
  registered_ids (record a (map Eff effs) w) = registered_ids w.
Proof.
  rewrite registered_ids_record.
  replace (omap _ (map Eff effs)) with (@nil Z); [by rewrite app_nil_r|].
  induction effs; simpl; auto.
Qed.

Lemma omap_handlers (d : json) (hs : list nat) :
  omap (fun e => match e with Register n _ => Some n | _ => None end)
       (map (fun h => Eff (CallHandler h d)) hs) = [].
Proof. induction hs; simpl; auto. Qed.

Lemma send_locked_view a m p w r w' :
  _send_locked a m p w = (r, w') -> registers (view w) (view w').
Proof.
  unfold _send_locked, registers, view.
  destruct (session (cl w)) as [conn|]; [|intros [= <- <-]; by left].
  destruct (conn_closed w conn); intros [= <- <-]; right; simpl;
    rewrite ?registered_ids_record; simpl; rewrite ?app_nil_r;
    unfold registered_ids; simpl; reflexivity.
Qed.

Lemma ensure_connection_view t env ok w r w' :
  ensure_connection t env ok w = (r, w') -> registers (view w) (view w').
Proof.
  unfold _ensure_connection_locked. destruct (connected _ w).
  { intros [= <- <-]. unfold registers, view. by left. }
  destruct (_create_target _ _ _ _) as [[[ws tid]|e] effs].
  2:{ intros [= <- <-]. unfold registers, view. left.
      by rewrite registered_ids_record_eff. }
  destruct ok.
  2:{ intros [= <- <-]. unfold registers, view. left. simpl.
      change (registered_ids (with_cl (adopt_target tid) ?w0)) with (registered_ids w0).
      by rewrite registered_ids_record_eff. }
  match goal with |- context [_send_locked ?a ?m ?p ?w0] =>
    destruct (_send_locked a m p w0) as [r1 w4] eqn:Hsl;
    assert (Hr : registered_ids w0 = registered_ids w);
    [| assert (Hv : view w0 = view w) by (unfold view; rewrite Hr; reflexivity)] end.
  { rewrite registered_ids_record. simpl omap. rewrite app_nil_r.
    rewrite <- (registered_ids_record_eff (Caller t) effs w). reflexivity. }
  apply send_locked_view in Hsl. rewrite Hv in Hsl.
  destruct r1; intros [= <- <-]; exact Hsl.
Qed.

Lemma issue_view t m p next w : registers (view w) (view (issue t m p next w)).
Proof.
  unfold issue. destruct (_send_locked (Caller t) m p w) as [[fut|e] w1] eqn:Hsl;
    apply send_locked_view in Hsl; exact Hsl.
Qed.

Lemma ensure_connection_early t env ok w w' :
  ensure_connection t env ok w = (Ok None, w') -> w' = w.
Proof.
  unfold _ensure_connection_locked. destruct (connected _ w).
  { by intros [= <-]. }
  destruct (_create_target _ _ _ _) as [[[ws tid]|e] effs]; [|discriminate].
  destruct ok; [|discriminate].
  match goal with |- context [_send_locked ?a ?m ?p ?w0] =>
    destruct (_send_locked a m p w0) as [[]] end; discriminate.
Qed.

Lemma acquire_view t tk env ok w : registers (view w) (view (acquire t tk env ok w)).
Proof.
  unfold Scheduler.acquire.
  destruct (ensure_connection t env ok (with_lock (Some t) w)) as [[[fut|]|e] w1] eqn:He.
  - apply ensure_connection_view in He. exact He.
  - apply ensure_connection_early in He as ->.
    apply (issue_view t (t_method tk) (t_params tk) AwaitReply (with_lock (Some t) w)).
  - apply ensure_connection_view in He. exact He.
Qed.

Lemma resume_view t tk w w' : resume t tk w = Some w' -> registers (view w) (view w').
Proof.
  unfold resume. destruct (t_pc tk) as [|k fut|fut|r]; try discriminate.
  - destruct (futures w !! fut ≫= await_result) as [[v|e]|]; try discriminate.
    + intros [= <-]. destruct k as [|[|k]]; apply issue_view.
    + intros [= <-]. unfold registers, view. by left.
  - destruct (futures w !! fut ≫= await_result) as [r|]; try discriminate.
    intros [= <-]. unfold registers, view. by left.
Qed.

(** A step of the send path registers at most one id. *)
Lemma send_path_view l w w' :
  is_send_path l = true -> step l w = Some w' -> registers (view w) (view w').
Proof.
  destruct l; try discriminate; intros _; simpl.
  - destruct (lock w); [discriminate|].
    destruct (tasks w !! t) as [tk|]; [|discriminate].
    destruct (t_pc tk); try discriminate. intros [= <-]. apply acquire_view.
  - destruct (tasks w !! t) as [tk|]; [|discriminate]. apply resume_view.
Qed.

(** Every other step registers nothing and inserts nothing: the
    counter and the registered ids are the same, the table is the same
    or smaller. *)
Lemma other_step_view l w w' :
  is_send_path l = false -> step l w = Some w' ->
  _msg_id (cl w') = _msg_id (cl w)
  /\ registered_ids w' = registered_ids w
  /\ length (futures w') = length (futures w)
  /\ _pending_requests (cl w') ⊆ _pending_requests (cl w)
  /\ (is_receive_loop l = false ->
      _pending_requests (cl w') = _pending_requests (cl w) /\ futures w' = futures w).
Proof.
  destruct l; try discriminate; intros _; simpl.
  - destruct (tasks w !! t); [discriminate|]. intros [= <-]. simpl.
    repeat split; done.
  - case_decide; [|discriminate]. intros [= <-].
    unfold _read_loop_body. repeat case_match; simpl;
      rewrite ?registered_ids_record; rewrite ?resolve_length;
      repeat split; try done; try apply delete_subseteq.
    all: by rewrite omap_handlers, app_nil_r.
  - case_decide; [|discriminate]. intros [= <-]. simpl.
    repeat split; try done.
    + unfold cancel_all. induction (map snd _) as [|f l IH]; simpl; [done|].
      by rewrite resolve_length.
    + apply map_empty_subseteq.
  - intros [= <-]. simpl. repeat split; done.
  - intros [= <-]. unfold close_client.
    destruct (close (cl w)) as [c' effs] eqn:Hc.
    unfold close in Hc. injection Hc as <- <-.
    rewrite registered_ids_record_eff.
    destruct (session (cl w)); simpl; repeat split; done.
  - intros [= <-]. simpl. repeat split; done.
Qed.

Lemma StronglySorted_snoc {A} (R : A -> A -> Prop) (l : list A) (a : A) :
  StronglySorted R l -> Forall (fun x => R x a) l -> StronglySorted R (l ++ [a]).
Proof.
  induction 1 as [|x l Hs IH Hx]; intros Ha; simpl.
  - repeat constructor.
  - apply Forall_cons in Ha as [Hxa Ha]. constructor; [by apply IH|].
    apply Forall_app. split; [done|]. by constructor.
Qed.

Lemma ids_inv_step l w w' : ids_inv w -> step l w = Some w' -> ids_inv w'.
Proof.
  intros (Hk & Hf & Hs) Hst. destruct (is_send_path l) eqn:Hl.
  - apply send_path_view in Hst; [|done]. unfold registers, view in Hst.
    destruct Hst as [Hv | Hv]; injection Hv as Hn Hp Hi Hfu.
    + unfold ids_inv. by rewrite Hn, Hp, Hi.
    + unfold ids_inv. rewrite Hn, Hp, Hi. split; [|split].
      * intros n fut Hlk. destruct (decide (n = (_msg_id (cl w) + 1)%Z)) as [->|Hne];
          [lia|]. rewrite lookup_insert_ne in Hlk by done.
        apply Hk in Hlk. lia.
      * apply Forall_app. split; [|repeat constructor; lia].
        eapply Forall_impl; [exact Hf|]. simpl. intros; lia.
      * apply StronglySorted_snoc; [done|].
        eapply Forall_impl; [exact Hf|]. simpl. intros; lia.
  - apply other_step_view in Hst as (Hn & Hi & _ & Hp & _); [|done].
    unfold ids_inv. rewrite Hn, Hi. split; [|done].
    intros n fut Hlk. eapply Hk. eapply lookup_weaken; eauto.
Qed.

Lemma ids_inv_reachable w : reachable w -> ids_inv w.
Proof.
  apply reachable_invariant; [|apply ids_inv_step].
  intros c (_ & Hn & Hp). unfold ids_inv. simpl. rewrite Hp. split; [|split].
  - intros n fut H. by rewrite lookup_empty in H.
  - constructor.
  - constructor.
Qed.

(** What one iteration of the receive loop does to the table and the
    futures: nothing, or it removes one slot and resolves its future. *)
Lemma read_loop_body_cases conn data w :
  let w' := _read_loop_body conn data w in
  (_pending_requests (cl w') = _pending_requests (cl w) /\ futures w' = futures w)
  \/ exists d n fut,
       data = JObj d
       /\ _pending_requests (cl w) !! n = Some fut
       /\ _pending_requests (cl w') = delete n (_pending_requests (cl w))
       /\ futures w' = resolve fut (outcome_of d) (futures w).
Proof.
  unfold _read_loop_body. repeat case_match; simpl; auto.
  all: right; eexists _, _, _; eauto.
Qed.

Lemma read_loop_body_response conn d n fut w :
  dict_get "id" d = Some (JInt n) ->
  _pending_requests (cl w) !! n = Some fut ->
  _read_loop_body conn (JObj d) w
  = with_futures (resolve fut (outcome_of d) (futures w))
      (with_cl (fun c => set_pending (delete n (_pending_requests c)) c) w).
Proof. intros Hid Hp. unfold _read_loop_body. rewrite Hid. simpl. by rewrite Hp. Qed.

Lemma live_inv_step l w w' : live_inv w -> step l w = Some w' -> live_inv w'.
Proof.
  intros Hlive Hst. destruct (is_send_path l) eqn:Hl.
  - apply send_path_view in Hst; [|done]. unfold registers, view in Hst.
    destruct Hst as [Hv | Hv]; injection Hv as Hn Hp Hi Hfu.
    + unfold live_inv. by rewrite Hp, Hfu.
    + unfold live_inv. rewrite Hp, Hfu. intros n fut Hlk.
      assert (Hfresh : forall k, _pending_requests (cl w) !! k <> Some (length (futures w))).
      { intros k Hk. apply Hlive in Hk as [Hk _].
        apply lookup_lt_Some in Hk. lia. }
      destruct (decide (n = (_msg_id (cl w) + 1)%Z)) as [->|Hne].
      * rewrite lookup_insert_eq in Hlk. injection Hlk as <-. split.
        { rewrite lookup_app_r by lia. by rewrite Nat.sub_diag. }
        intros n' Hn'. destruct (decide (n' = (_msg_id (cl w) + 1)%Z)); [done|].
        rewrite lookup_insert_ne in Hn' by done. by apply Hfresh in Hn'.
      * rewrite lookup_insert_ne in Hlk by done.
        destruct (Hlive _ _ Hlk) as [Hp1 Hu]. split.
        { by apply lookup_app_l_Some. }
        intros n' Hn'. destruct (decide (n' = (_msg_id (cl w) + 1)%Z)) as [->|Hne'].
        { rewrite lookup_insert_eq in Hn'. injection Hn' as <-.
          by apply Hfresh in Hlk. }
        rewrite lookup_insert_ne in Hn' by done. by apply Hu.
  - destruct l; try discriminate.
    + apply other_step_view in Hst as (_ & _ & _ & _ & H); [|done].
      destruct H as [Hp Hf]; [done|]. unfold live_inv. by rewrite Hp, Hf.
    + simpl in Hst. case_decide; [|discriminate]. injection Hst as <-.
      destruct (read_loop_body_cases conn data w) as [[Hp Hf] | (d & n & fut & _ & Hn & Hp & Hf)].
      * unfold live_inv. by rewrite Hp, Hf.
      * unfold live_inv. rewrite Hp, Hf. intros k f Hk.
        apply lookup_delete_Some in Hk as [Hne Hk].
        destruct (Hlive _ _ Hk) as [Hp1 Hu]. split.
        { rewrite resolve_lookup_ne; [done|]. intros ->.
          destruct (Hlive _ _ Hn) as [_ Hu']. apply Hu' in Hk. congruence. }
        intros n' Hn'. apply lookup_delete_Some in Hn' as [_ Hn']. by apply Hu.
    + simpl in Hst. case_decide; [|discriminate]. injection Hst as <-.
      intros n fut Hlk. simpl in Hlk. by rewrite lookup_empty in Hlk.
    + apply other_step_view in Hst as (_ & _ & _ & _ & H); [|done].
      destruct H as [Hp Hf]; [done|]. unfold live_inv. by rewrite Hp, Hf.
    + apply other_step_view in Hst as (_ & _ & _ & _ & H); [|done].
      destruct H as [Hp Hf]; [done|]. unfold live_inv. by rewrite Hp, Hf.
    + apply other_step_view in Hst as (_ & _ & _ & _ & H); [|done].
      destruct H as [Hp Hf]; [done|]. unfold live_inv. by rewrite Hp, Hf.
Qed.

Lemma live_inv_reachable w : reachable w -> live_inv w.
Proof.
  apply reachable_invariant; [|apply live_inv_step].
  intros c (_ & _ & Hp) n fut H. simpl in H. rewrite Hp in H.
  by rewrite lookup_empty in H.
Qed.

Lemma StronglySorted_lt_NoDup (l : list Z) : StronglySorted Z.lt l -> NoDup l.
Proof.
  induction 1 as [|x l Hs IH Hx]; constructor; [|done].
  intros Hin. rewrite Forall_forall in Hx. apply Hx in Hin. lia.
Qed.

(** C9.  Along every run of the client the ids registered by the send
    path are strictly increasing, hence pairwise distinct.  A step of
    the send path registers at most one id: the counter plus one,
    greater than every id registered before, absent from the pending
    table, bound to a new future.  No other step inserts into the
    table, and only the steps of the receive loop remove from it; a
    slot is never overwritten. *)
Theorem pending_table_discipline (w : world) :
  reachable w ->
  StronglySorted Z.lt (registered_ids w)
  /\ NoDup (registered_ids w)
  /\ (forall l w', step l w = Some w' -> is_send_path l = true ->
        view w' = view w
        \/ exists n,
             n = (_msg_id (cl w) + 1)%Z
             /\ Forall (fun m => (m < n)%Z) (registered_ids w)
             /\ _pending_requests (cl w) !! n = None
             /\ _msg_id (cl w') = n
             /\ registered_ids w' = registered_ids w ++ [n]
             /\ _pending_requests (cl w')
                = <[n := length (futures w)]> (_pending_requests (cl w))
             /\ futures w' = futures w ++ [FPending])
  /\ (forall l w', step l w = Some w' -> is_send_path l = false ->
        registered_ids w' = registered_ids w
        /\ _msg_id (cl w') = _msg_id (cl w)
        /\ _pending_requests (cl w') ⊆ _pending_requests (cl w)
        /\ (is_receive_loop l = false ->
            _pending_requests (cl w') = _pending_requests (cl w))).
Proof.
  intros Hr. destruct (ids_inv_reachable w Hr) as (Hk & Hf & Hs).
  split; [done|]. split; [by apply StronglySorted_lt_NoDup|]. split.
  - intros l w' Hst Hl. apply send_path_view in Hst; [|done].
    unfold registers in Hst. unfold view at 1 in Hst.
    destruct Hst as [Hv | Hv]; [by left|]. right.
    unfold view in Hv. injection Hv as Hn Hp Hi Hfu.
    exists (_msg_id (cl w) + 1)%Z. repeat split; try done.
    + eapply Forall_impl; [exact Hf|]. simpl. intros; lia.
    + destruct (_pending_requests (cl w) !! (_msg_id (cl w) + 1)%Z) eqn:E; [|done].
      apply Hk in E. lia.
  - intros l w' Hst Hl.
    apply other_step_view in Hst as (Hn & Hi & _ & Hp & Hrest); [|done].
    repeat split; try done. intros Hrl. by destruct (Hrest Hrl).
Qed.

(** C5.  When a frame with id [n] arrives and the pending table binds
    [n] to the future a task awaits in its own [_send_locked], the
    receive loop removes the slot and resolves the future from the
    frame, and the task leaves [send] with the frame's ["result"] when
    the frame has no ["error"] field, and raises [RuntimeError] with
    the ["error"] payload when it has one. *)
Theorem response_resolves_send (w : world) (conn : nat) (d : list (string * json))
    (n : Z) (fut t : nat) (tk : task) :
  reachable w ->
  conn ∈ readers w ->
  dict_get "id" d = Some (JInt n) ->
  _pending_requests (cl w) !! n = Some fut ->
  tasks w !! t = Some tk -> t_pc tk = AwaitReply fut ->
  exists w1 w2,
    step (Deliver conn (JObj d)) w = Some w1
    /\ _pending_requests (cl w1) = delete n (_pending_requests (cl w))
    /\ _pending_requests (cl w1) !! n = None
    /\ step (Resume t) w1 = Some w2
    /\ pc_of w2 t
       = Some (Finished match dict_get "error" d with
                        | None => Ok (default JNull (dict_get "result" d))
                        | Some err => Raise (RuntimeError err)
                        end).
Proof.
  intros Hr Hconn Hid Hp Htk Hpc.
  destruct (live_inv_reachable w Hr _ _ Hp) as [Hlive _].
  set (r := match dict_get "error" d with
            | None => Ok (default JNull (dict_get "result" d))
            | Some err => Raise (RuntimeError err)
            end).
  assert (Hout : await_result (outcome_of d) = Some r).
  { unfold outcome_of, r. by destruct (dict_get "error" d). }
  set (w1 := with_futures (resolve fut (outcome_of d) (futures w))
               (with_cl (fun c => set_pending (delete n (_pending_requests c)) c) w)).
  exists w1, (finish t r w1). split.
  { change (step (Deliver conn (JObj d)) w)
      with (if decide (conn ∈ readers w)
            then Some (_read_loop_body conn (JObj d) w) else None).
    rewrite decide_True by done.
    by rewrite (read_loop_body_response conn d n fut w Hid Hp). }
  split; [reflexivity|]. split; [simpl; apply lookup_delete_eq|]. split.
  - simpl. rewrite Htk. unfold resume. rewrite Hpc. simpl.
    rewrite (resolve_lookup_eq _ _ _ Hlive). simpl. by rewrite Hout.
  - unfold pc_of, finish, set_pc. simpl. by rewrite lookup_alter_eq, Htk.
Qed.

End Registrations.

(** ** The receive loop's termination path *)

Section Termination.

Variable check_bracketed_host : string -> bool.
Variable quote : string -> string.
Variable ws_exposes_closed : bool.

Local Abbreviation step := (step check_bracketed_host quote ws_exposes_closed).
Local Abbreviation reachable := (reachable check_bracketed_host quote ws_exposes_closed).

(** C3.  When the iteration over the channel ends, cleanly or by fault,
    the termination path of the receive loop leaves the pending table
    empty; every slot registered at that moment was unresolved and is
    resolved as cancelled; and every task suspended on such a slot can
    run again and leaves [send] with the cancellation. *)
Theorem read_loop_end_cancels_all (w : world) (conn : nat) :
  reachable w ->
  conn ∈ readers w ->
  exists w',
    step (ReaderEnd conn) w = Some w'
    /\ _pending_requests (cl w') = ∅
    /\ (forall n fut, _pending_requests (cl w) !! n = Some fut ->
                      futures w !! fut = Some FPending
                      /\ futures w' !! fut = Some FCancelled)
    /\ (forall t n fut, awaits w t fut ->
                        _pending_requests (cl w) !! n = Some fut ->
                        exists w'', step (Resume t) w' = Some w''
                                    /\ pc_of w'' t = Some (Finished (Raise CancelledError))).
Proof.
  intros Hr Hconn. pose proof (live_inv_reachable _ _ _ w Hr) as Hlive.
  eexists. split.
  { simpl. rewrite decide_True by done. reflexivity. }
  simpl. split; [reflexivity|]. split.
  - intros n fut Hn. destruct (Hlive _ _ Hn) as [Hp _].
    split; [done|]. by eapply cancel_all_pending.
  - intros t n fut (tk & Htk & Hpc) Hn. destruct (Hlive _ _ Hn) as [Hp _].
    pose proof (cancel_all_pending _ _ _ _ Hn Hp) as Hc.
    rewrite Htk. unfold resume.
    destruct Hpc as [-> | [k ->]]; simpl; rewrite Hc; simpl;
      (eexists; split; [reflexivity|]);
      unfold pc_of, finish, set_pc; simpl;
      rewrite lookup_alter_eq, Htk; reflexivity.
Qed.

End Termination.

(** ** The concrete run with one command outstanding *)

Lemma one_outstanding_reachable :
  reachable Scenario.chk Scenario.quote true (Scenario.run Scenario.one_outstanding).
Proof. apply (scenario_reachable Scenario.one_outstanding). vm_compute. reflexivity. Qed.

Lemma response_resolves_send_witness :
  exists w1 w2,
    step Scenario.chk Scenario.quote true
         (Deliver 0 (Scenario.reply 4 (JObj [("ok", JBool true)])))
         (Scenario.run Scenario.one_outstanding) = Some w1
    /\ _pending_requests (cl w1)
       = delete 4%Z (_pending_requests (cl (Scenario.run Scenario.one_outstanding)))
    /\ _pending_requests (cl w1) !! 4%Z = None
    /\ step Scenario.chk Scenario.quote true (Resume 1) w1 = Some w2
    /\ pc_of w2 1 = Some (Finished (Ok (JObj [("ok", JBool true)]))).
Proof.
  apply (response_resolves_send Scenario.chk Scenario.quote true
           (Scenario.run Scenario.one_outstanding) 0
           [("id", JInt 4); ("result", JObj [("ok", JBool true)])] 4 3 1
           (Task "Runtime.evaluate" (Some (Facade.evaluate_params "1")) (AwaitReply 3))).
  - exact one_outstanding_reachable.
  - vm_compute. set_solver.
  - reflexivity.
  - vm_compute. reflexivity.
  - vm_compute. reflexivity.
  - reflexivity.
Defined.

Lemma read_loop_end_cancels_all_witness :
  exists w',
    step Scenario.chk Scenario.quote true (ReaderEnd 0)
         (Scenario.run Scenario.one_outstanding) = Some w'
    /\ _pending_requests (cl w') = ∅
    /\ futures w' !! 3%nat = Some FCancelled
    /\ exists w'', step Scenario.chk Scenario.quote true (Resume 1) w' = Some w''
                   /\ pc_of w'' 1 = Some (Finished (Raise CancelledError)).
Proof.
  destruct (read_loop_end_cancels_all Scenario.chk Scenario.quote true
              (Scenario.run Scenario.one_outstanding) 0)
    as (w' & Hs & He & Hc & Hr).
  - exact one_outstanding_reachable.
  - vm_compute. set_solver.
  - exists w'. split; [exact Hs|]. split; [exact He|]. split.
    + apply (Hc 4%Z 3%nat). vm_compute. reflexivity.
    + apply (Hr 1%nat 4%Z 3%nat).
      * eexists. split; [vm_compute; reflexivity|]. left. reflexivity.
      * vm_compute. reflexivity.
Defined.

Lemma pending_table_discipline_witness :
  StronglySorted Z.lt (registered_ids (Scenario.run Scenario.one_outstanding))
  /\ registered_ids (Scenario.run Scenario.one_outstanding) = [1; 2; 3; 4]%Z.
Proof.
  split; [|vm_compute; reflexivity].
  apply (pending_table_discipline Scenario.chk Scenario.quote true
           (Scenario.run Scenario.one_outstanding)).
  exact one_outstanding_reachable.
Defined.

(** ** Lazy connection *)

Section LazyConnect.

Variable check_bracketed_host : string -> bool.
Variable quote : string -> string.
Variable ws_exposes_closed : bool.

Local Abbreviation step := (step check_bracketed_host quote ws_exposes_closed).
Local Abbreviation exec := (exec check_bracketed_host quote ws_exposes_closed).
Local Abbreviation reachable := (reachable check_bracketed_host quote ws_exposes_closed).
Local Abbreviation connected := (connected ws_exposes_closed).
Local Abbreviation create_target := (_create_target check_bracketed_host quote).

Lemma log_of_record_self t evs w :
  log_of t (record (Caller t) evs w) = log_of t w ++ evs.
Proof.
  unfold log_of, record. cbn [trace with_trace]. rewrite omap_app. f_equal.
  induction evs as [|e evs IH]; [done|]. cbn [map]. cbn [omap list_omap].
  rewrite decide_True by done. f_equal. exact IH.
Qed.

Lemma log_of_record_other t a evs w :
  a <> Caller t -> log_of t (record a evs w) = log_of t w.
Proof.
  intros Ha. unfold log_of, record. cbn [trace with_trace]. rewrite omap_app.
  rewrite <- (app_nil_r (omap _ (trace w))) at 2. f_equal.
  induction evs as [|e evs IH]; [done|]. cbn [map]. cbn [omap list_omap].
  destruct a as [t'| |]; try exact IH.
  rewrite decide_False by congruence. exact IH.
Qed.

(** Every step appends events of its own actor to the trace. *)
Lemma send_locked_trace a m p w r w' :
  _send_locked a m p w = (r, w') ->
  exists evs, trace w' = trace w ++ map (pair a) evs.
Proof.
  unfold _send_locked. destruct (session (cl w)) as [conn|].
  - destruct (conn_closed w conn); intros [= <- <-]; unfold record; cbn [trace with_trace with_futures with_cl].
    + by exists [Register (_msg_id (cl w) + 1)%Z (length (futures w))].
    + exists [Register (_msg_id (cl w) + 1)%Z (length (futures w));
              Eff (WsSend conn (payload_of (_msg_id (cl w) + 1)%Z m p))].
      by rewrite <- app_assoc.
  - intros [= <- <-]. exists []. by rewrite app_nil_r.
Qed.

Lemma step_trace l w w' :
  step l w = Some w' -> exists evs, trace w' = trace w ++ map (pair (actor_of l)) evs.
Proof.
  destruct l; cbn [Scheduler.step actor_of].
  - destruct (tasks w !! t); [discriminate|]. intros [= <-]. exists [].
    by rewrite app_nil_r.
  - destruct (lock w); [discriminate|].
    destruct (tasks w !! t) as [tk|]; [|discriminate].
    destruct (t_pc tk); try discriminate. intros [= <-].
    unfold acquire, _ensure_connection_locked.
    destruct (Scheduler.connected _ _).
    { unfold issue. destruct (_send_locked _ _ _ _) as [[fut|e] w1] eqn:Hsl;
        apply send_locked_trace in Hsl as [evs Hsl]; exists evs; exact Hsl. }
    destruct (_create_target _ _ _ _) as [[[ws tid]|e] effs].
    2:{ exists (map Eff effs). reflexivity. }
    destruct connect_ok.
    2:{ exists (map Eff effs). reflexivity. }
    match goal with |- context [_send_locked ?a ?m ?p ?w0] =>
      destruct (_send_locked a m p w0) as [[fut|e] w4] eqn:Hsl end;
      apply send_locked_trace in Hsl as [evs Hsl];
      exists (map Eff effs ++ [Eff (WsConnect ws (length (conns w)));
                               Eff (CreateReadTask (length (conns w)))] ++ evs);
      cbn [trace finish set_pc with_lock with_tasks]; rewrite Hsl;
      unfold record; cbn [trace with_trace with_readers with_conns with_cl with_lock conns];
      rewrite !map_app, <- !app_assoc; reflexivity.
  - destruct (tasks w !! t) as [tk|]; [|discriminate]. unfold resume.
    destruct (t_pc tk) as [|k fut|fut|r]; try discriminate.
    + destruct (futures w !! fut ≫= await_result) as [[v|e]|]; try discriminate;
        intros [= <-].
      * destruct k as [|[|k]]; unfold issue;
          destruct (_send_locked _ _ _ _) as [[f|e] w1] eqn:Hsl;
          apply send_locked_trace in Hsl as [evs Hsl]; exists evs; exact Hsl.
      * exists []. by rewrite app_nil_r.
    + destruct (futures w !! fut ≫= await_result) as [r|]; try discriminate.
      intros [= <-]. exists []. by rewrite app_nil_r.
  - case_decide; [|discriminate]. intros [= <-].
    unfold _read_loop_body. repeat case_match;
      try (exists []; by rewrite app_nil_r).
    all: eexists; unfold record; cbn [trace with_trace]; reflexivity.
  - case_decide; [|discriminate]. intros [= <-]. exists []. by rewrite app_nil_r.
  - intros [= <-]. exists []. by rewrite app_nil_r.
  - intros [= <-]. unfold close_client. destruct (close (cl w)) as [c' effs].
    exists (map Eff effs). by destruct (session (cl w)).
  - intros [= <-]. exists []. by rewrite app_nil_r.
Qed.

Lemma log_of_step_other t l w w' :
  step l w = Some w' -> actor_of l <> Caller t -> log_of t w' = log_of t w.
Proof.
  intros Hs Ha. apply step_trace in Hs as [evs He].
  rewrite <- (log_of_record_other t (actor_of l) evs w Ha).
  unfold log_of, record. cbn [trace with_trace]. by rewrite He.
Qed.

Lemma log_of_set_pc t t' p w : log_of t (set_pc t' p w) = log_of t w.
Proof. reflexivity. Qed.

Lemma log_of_finish t t' r w : log_of t (finish t' r w) = log_of t w.
Proof. reflexivity. Qed.

Lemma lookup_set_pc t p w tk :
  tasks w !! t = Some tk ->
  tasks (set_pc t p w) !! t = Some (Task (t_method tk) (t_params tk) p).
Proof. intros H. unfold set_pc. cbn [tasks with_tasks]. by rewrite lookup_alter_eq, H. Qed.

Lemma lookup_finish t r w tk :
  tasks w !! t = Some tk ->
  tasks (finish t r w) !! t = Some (Task (t_method tk) (t_params tk) (Finished r)).
Proof. intros H. unfold finish. cbn [tasks with_lock]. by apply lookup_set_pc. Qed.

(** What issuing a command does to the task that issues it. *)
Lemma issue_spec t m p next w tk :
  tasks w !! t = Some tk ->
  session (cl (issue t m p next w)) = session (cl w)
  /\ match session (cl w) with
     | None =>
         tasks (issue t m p next w) !! t
         = Some (Task (t_method tk) (t_params tk) (Finished (Raise AssertionError)))
         /\ log_of t (issue t m p next w) = log_of t w
     | Some conn =>
         _msg_id (cl (issue t m p next w)) = (_msg_id (cl w) + 1)%Z
         /\ length (futures (issue t m p next w)) = S (length (futures w))
         /\ if conn_closed w conn then
              tasks (issue t m p next w) !! t
              = Some (Task (t_method tk) (t_params tk)
                        (Finished (Raise (TransportError "connection closed"))))
              /\ log_of t (issue t m p next w)
                 = log_of t w ++ [Register (_msg_id (cl w) + 1)%Z (length (futures w))]
            else
              tasks (issue t m p next w) !! t
              = Some (Task (t_method tk) (t_params tk) (next (length (futures w))))
              /\ log_of t (issue t m p next w)
                 = log_of t w
                   ++ [Register (_msg_id (cl w) + 1)%Z (length (futures w));
                       Eff (WsSend conn (payload_of (_msg_id (cl w) + 1)%Z m p))]
     end.
Proof.
  intros Htk. unfold issue, _send_locked.
  destruct (session (cl w)) as [conn|] eqn:Hs.
  - destruct (conn_closed w conn) eqn:Hc.
    + split; [exact Hs|]. split; [reflexivity|]. split.
      { cbn [futures finish set_pc with_lock with_tasks record with_trace with_futures].
        rewrite length_app. simpl. lia. }
      split; [by apply lookup_finish|].
      rewrite log_of_finish, log_of_record_self. reflexivity.
    + split; [exact Hs|]. split; [reflexivity|]. split.
      { cbn [futures finish set_pc with_lock with_tasks record with_trace with_futures].
        rewrite length_app. simpl. lia. }
      split; [by apply lookup_set_pc|].
      rewrite log_of_set_pc, !log_of_record_self, <- app_assoc. reflexivity.
  - split; [exact Hs|]. split; [by apply lookup_finish|]. reflexivity.
Qed.

Lemma handshake_S conn n f0 k :
  handshake conn n f0 (S k) = handshake conn n f0 k ++ enable_events conn n f0 k.
Proof.
  unfold handshake. rewrite seq_S, flat_map_app. reflexivity.
Qed.

Lemma next_enable conn (n : Z) (f0 k : nat) (msg : Z) (len : nat) :
  msg = (n + 1 + Z.of_nat k)%Z -> len = (f0 + k + 1)%nat ->
  [Register (msg + 1)%Z len;
   Eff (WsSend conn (payload_of (msg + 1)%Z (enable_name (S k)) None))]
  = enable_events conn n f0 (S k).
Proof.
  intros -> ->. unfold enable_events.
  replace (n + 1 + Z.of_nat k + 1)%Z with (n + 1 + Z.of_nat (S k))%Z by lia.
  replace (f0 + k + 1)%nat with (f0 + S k)%nat by lia. reflexivity.
Qed.

Lemma next_own conn (n : Z) (f0 : nat) (msg : Z) (len : nat) m p :
  msg = (n + 1 + Z.of_nat 2)%Z -> len = (f0 + 2 + 1)%nat ->
  [Register (msg + 1)%Z len; Eff (WsSend conn (payload_of (msg + 1)%Z m p))]
  = own_events conn n f0 m p.
Proof.
  intros -> ->. unfold own_events.
  replace (n + 1 + Z.of_nat 2 + 1)%Z with (n + 4)%Z by lia.
  replace (f0 + 2 + 1)%nat with (f0 + 3)%nat by lia. reflexivity.
Qed.

Lemma handshake_prefix conn n f0 k :
  (k <= 3)%nat -> handshake conn n f0 k `prefix_of` handshake conn n f0 3.
Proof.
  intros Hk. unfold handshake.
  replace 3%nat with (k + (3 - k))%nat at 1 by lia.
  rewrite seq_app, flat_map_app. by apply prefix_app_r.
Qed.

Lemma script_prefix_enable (L0 pre : list event) conn n f0 k m p :
  (k <= 3)%nat ->
  L0 ++ pre ++ handshake conn n f0 k
  `prefix_of` L0 ++ pre ++ handshake conn n f0 3 ++ own_events conn n f0 m p.
Proof.
  intros Hk. do 2 apply prefix_app. apply prefix_app_r. by apply handshake_prefix.
Qed.

Lemma script_prefix_register (L0 pre : list event) conn n f0 k m p msg len :
  (k <= 2)%nat -> msg = (n + 1 + Z.of_nat k)%Z -> len = (f0 + k + 1)%nat ->
  (L0 ++ pre ++ handshake conn n f0 (S k)) ++ [Register (msg + 1)%Z len]
  `prefix_of` L0 ++ pre ++ handshake conn n f0 3 ++ own_events conn n f0 m p.
Proof.
  intros Hk Hm Hl. rewrite <- !app_assoc. do 2 apply prefix_app.
  destruct (decide (k = 2%nat)) as [->|Hne].
  - apply prefix_app. rewrite <- (next_own conn n f0 msg len m p Hm Hl).
    by exists [Eff (WsSend conn (payload_of (msg + 1)%Z m p))].
  - apply prefix_app_r.
    transitivity (handshake conn n f0 (S (S k))); [|apply handshake_prefix; lia].
    rewrite (handshake_S _ _ _ (S k)). apply prefix_app.
    rewrite <- (next_enable conn n f0 k msg len Hm Hl).
    by eexists [_].
Qed.

Lemma other_step_session l w w' :
  is_send_path l = false -> step l w = Some w' ->
  session (cl w') = session (cl w) \/ session (cl w') = None.
Proof.
  destruct l; try discriminate; intros _; cbn [Scheduler.step].
  - destruct (tasks w !! t); [discriminate|]. intros [= <-]. by left.
  - case_decide; [|discriminate]. intros [= <-]. left.
    unfold _read_loop_body. repeat case_match; reflexivity.
  - case_decide; [|discriminate]. intros [= <-]. by left.
  - intros [= <-]. by left.
  - intros [= <-]. right. unfold close_client, close.
    by destruct (session (cl w)).
  - intros [= <-]. by left.
Qed.

Lemma resume_awaits t tk w w' :
  tasks w !! t = Some tk -> resume t tk w = Some w' -> exists fut, awaits w t fut.
Proof.
  intros Htk. unfold resume. destruct (t_pc tk) as [|k fut|fut|r] eqn:Hpc;
    try discriminate; intros _; exists fut, tk; eauto.
Qed.

(** A step of another actor leaves the entry of [t] in the task table
    as it is. *)
Lemma step_other_task t l w w' :
  is_Some (tasks w !! t) -> step l w = Some w' -> actor_of l <> Caller t ->
  tasks w' !! t = tasks w !! t.
Proof.
  intros Hex Hs Ha. destruct (is_send_path l) eqn:Hl.
  - destruct l; try discriminate; cbn [Scheduler.step] in Hs; cbn [actor_of] in Ha.
    + destruct (lock w); [discriminate|].
      destruct (tasks w !! t0) as [tk0|]; [|discriminate].
      destruct (t_pc tk0); try discriminate. injection Hs as <-.
      destruct (acquire_moves check_bracketed_host quote ws_exposes_closed
                  t0 tk0 env connect_ok w) as (p0 & Hm & _).
      rewrite Hm. apply lookup_alter_ne. congruence.
    + destruct (tasks w !! t0) as [tk0|]; [|discriminate].
      destruct (resume_moves _ _ _ _ Hs) as (p0 & Hm & _).
      rewrite Hm. apply lookup_alter_ne. congruence.
  - destruct l; try discriminate.
    + cbn [Scheduler.step] in Hs. cbn [actor_of] in Ha.
      destruct (tasks w !! t0); [discriminate|]. injection Hs as <-.
      cbn [tasks with_tasks]. apply lookup_insert_ne. congruence.
    + apply step_other_frame in Hs as [-> _]; done.
    + apply step_other_frame in Hs as [-> _]; done.
    + apply step_other_frame in Hs as [-> _]; done.
    + apply step_other_frame in Hs as [-> _]; done.
    + apply step_other_frame in Hs as [-> _]; done.
Qed.

Lemma lazy_inv_step t m p L0 pre conn n f0 l w w' :
  lock_inv w -> lazy_inv t m p L0 pre conn n f0 w -> step l w = Some w' ->
  lazy_inv t m p L0 pre conn n f0 w'.
Proof.
  intros Hlock (tk & Htk & Hm & Hp & Hpc) Hs.
  assert (Hcases : l = Resume t \/ actor_of l <> Caller t).
  { destruct l; cbn [actor_of]; try (right; discriminate).
    - destruct (decide (t0 = t)) as [->|Hne]; [|right; congruence].
      cbn [Scheduler.step] in Hs. by rewrite Htk in Hs.
    - destruct (decide (t0 = t)) as [->|Hne]; [|right; congruence].
      cbn [Scheduler.step] in Hs. rewrite Htk in Hs.
      destruct (lock w); [discriminate|]. destruct (t_pc tk); try discriminate. done.
    - destruct (decide (t0 = t)) as [->|Hne]; [by left | right; congruence]. }
  destruct Hcases as [-> | Ha].
  { (* the task itself runs *)
    cbn [Scheduler.step] in Hs. rewrite Htk in Hs. unfold resume in Hs.
    destruct (t_pc tk) as [|k fut|fut|r] eqn:Hk; try discriminate.
    - destruct Hpc as (Hk2 & Hlog & Hmsg & Hlen & Hsess).
      destruct (futures w !! fut ≫= await_result) as [[v|e]|]; try discriminate;
        injection Hs as <-.
      + (* the enabling command was answered: the next command goes out *)
        assert (Hk3 : k = 0%nat \/ k = 1%nat \/ k = 2%nat) by lia.
        destruct Hk3 as [-> | [-> | ->]].
        * destruct (issue_spec t "Runtime.enable" None (AwaitEnable 1) w tk Htk)
            as (Hs' & Hcase).
          destruct Hsess as [Hsess | Hsess]; rewrite Hsess in Hcase.
          -- destruct Hcase as (Hmsg' & Hlen' & Hcase).
             destruct (conn_closed w conn); destruct Hcase as (Htk' & Hlog');
               (eexists; split; [exact Htk'|]; split; [done|]; split; [done|]);
               cbn [t_pc]; rewrite Hlog', Hlog.
             { apply script_prefix_register; [lia|done|lia]. }
             split; [lia|]. split.
             { rewrite (next_enable conn n f0 0 _ _ Hmsg); [|lia].
               rewrite (handshake_S _ _ _ 1), <- !app_assoc. reflexivity. }
             rewrite Hmsg', Hlen', Hmsg, Hlen, Hs', Hsess.
             split; [lia|]. split; [lia|]. by left.
          -- destruct Hcase as (Htk' & Hlog').
             eexists. split; [exact Htk'|]. split; [done|]. split; [done|].
             cbn [t_pc]. rewrite Hlog', Hlog. apply script_prefix_enable. lia.
        * destruct (issue_spec t "Network.enable" None (AwaitEnable 2) w tk Htk)
            as (Hs' & Hcase).
          destruct Hsess as [Hsess | Hsess]; rewrite Hsess in Hcase.
          -- destruct Hcase as (Hmsg' & Hlen' & Hcase).
             destruct (conn_closed w conn); destruct Hcase as (Htk' & Hlog');
               (eexists; split; [exact Htk'|]; split; [done|]; split; [done|]);
               cbn [t_pc]; rewrite Hlog', Hlog.
             { apply script_prefix_register; [lia|done|lia]. }
             split; [lia|]. split.
             { rewrite (next_enable conn n f0 1 _ _ Hmsg); [|lia].
               rewrite (handshake_S _ _ _ 2), <- !app_assoc. reflexivity. }
             rewrite Hmsg', Hlen', Hmsg, Hlen, Hs', Hsess.
             split; [lia|]. split; [lia|]. by left.
          -- destruct Hcase as (Htk' & Hlog').
             eexists. split; [exact Htk'|]. split; [done|]. split; [done|].
             cbn [t_pc]. rewrite Hlog', Hlog. apply script_prefix_enable. lia.
        * destruct (issue_spec t (t_method tk) (t_params tk) AwaitReply w tk Htk)
            as (Hs' & Hcase).
          destruct Hsess as [Hsess | Hsess]; rewrite Hsess in Hcase.
          -- destruct Hcase as (Hmsg' & Hlen' & Hcase).
             destruct (conn_closed w conn); destruct Hcase as (Htk' & Hlog');
               (eexists; split; [exact Htk'|]; split; [done|]; split; [done|]);
               cbn [t_pc]; rewrite Hlog', Hlog.
             { apply script_prefix_register; [lia|done|lia]. }
             rewrite (next_own conn n f0 _ _ (t_method tk) (t_params tk) Hmsg); [|lia].
             rewrite <- !app_assoc, Hm, Hp. reflexivity.
          -- destruct Hcase as (Htk' & Hlog').
             eexists. split; [exact Htk'|]. split; [done|]. split; [done|].
             cbn [t_pc]. rewrite Hlog', Hlog. apply script_prefix_enable. lia.
      + (* the enabling command failed *)
        eexists. split; [by apply lookup_finish|]. split; [done|]. split; [done|].
        cbn [t_pc]. rewrite log_of_finish, Hlog. apply script_prefix_enable. lia.
    - destruct (futures w !! fut ≫= await_result) as [r|]; try discriminate.
      injection Hs as <-.
      eexists. split; [by apply lookup_finish|]. split; [done|]. split; [done|].
      cbn [t_pc]. rewrite log_of_finish. destruct r; [done|]. by rewrite Hpc. }
  pose proof (log_of_step_other t l w w' Hs Ha) as Hlog.
  pose proof (step_other_task t l w w' (mk_is_Some _ _ Htk) Hs Ha) as Htk'.
  exists tk. rewrite Htk', Hlog. split; [done|]. split; [done|]. split; [done|].
  destruct (t_pc tk) as [|k fut|fut|r] eqn:Hk; try done.
  destruct Hpc as (Hk2 & Hl0 & Hmsg & Hlen & Hsess).
  assert (Hheld : lock w = Some t).
  { apply (Hlock t fut). exists tk. eauto. }
  destruct (is_send_path l) eqn:Hsp.
  { exfalso. destruct l; try discriminate; cbn [Scheduler.step actor_of] in *.
    - by rewrite Hheld in Hs.
    - destruct (tasks w !! t0) as [tk0|] eqn:Htk0; [|discriminate].
      destruct (resume_awaits _ _ _ _ Htk0 Hs) as [f Haw].
      apply Hlock in Haw. congruence. }
  destruct (other_step_view _ _ _ l w w' Hsp Hs) as (Hn' & _ & Hlen' & _).
  rewrite Hn', Hlen'. repeat split; try done.
  destruct (other_step_session l w w' Hsp Hs) as [-> | ->]; [done | by right].
Qed.

Lemma create_target_lists_first (c : client) (env : http_env) :
  exists rest, snd (create_target c env) = HttpGet (list_url c) :: rest.
Proof.
  unfold _create_target. destruct (http_get env (list_url c)) as [resp|e]; [|by eexists].
  destruct (raise_for_status resp); [|by eexists].
  destruct (body resp); try by eexists.
  destruct (scan_targets _ c targets None) as [[ws|fb]|e]; try by eexists.
  destruct (try_create quote c env). by eexists.
Qed.

(** The step that takes the lock on a client without a usable channel
    resolves a target, opens the channel, starts the receive loop and
    sends [Page.enable]. *)
Lemma acquire_lazy t tk env ok w :
  tasks w !! t = Some tk -> connected w = false ->
  lazy_inv t (t_method tk) (t_params tk) (log_of t w)
    (opening (snd (create_target (cl w) env))
             (resolved_url (fst (create_target (cl w) env))) (length (conns w)))
    (length (conns w)) (_msg_id (cl w)) (length (futures w))
    (acquire check_bracketed_host quote ws_exposes_closed t tk env ok w).
Proof.
  intros Htk Hconn. unfold acquire, _ensure_connection_locked.
  change (Scheduler.connected ws_exposes_closed (with_lock (Some t) w))
    with (connected w). rewrite Hconn.
  change (cl (with_lock (Some t) w)) with (cl w).
  destruct (create_target (cl w) env) as [[[ws tid]|e] effs]; cbn [fst snd resolved_url].
  2:{ eexists. split; [by apply lookup_finish|]. split; [done|]. split; [done|].
      cbn [t_pc]. rewrite log_of_finish, log_of_record_self.
      apply prefix_app. unfold opening. rewrite <- app_assoc. by apply prefix_app_r. }
  destruct ok.
  2:{ eexists. split; [by apply lookup_finish|]. split; [done|]. split; [done|].
      cbn [t_pc]. rewrite log_of_finish.
      change (log_of t (with_cl (adopt_target tid) ?w0)) with (log_of t w0).
      rewrite log_of_record_self.
      apply prefix_app. unfold opening. rewrite <- app_assoc. by apply prefix_app_r. }
  match goal with |- context [_send_locked ?a ?m ?p ?w0] => set (w3 := w0) end.
  assert (Hs3 : session (cl w3) = Some (length (conns w))) by reflexivity.
  assert (Hc3 : conn_closed w3 (length (conns w)) = false).
  { unfold conn_closed, w3. cbn [conns record with_trace with_readers with_conns with_cl with_lock].
    rewrite lookup_app_r by lia. by rewrite Nat.sub_diag. }
  assert (Hl3 : log_of t w3
                = log_of t w ++ opening effs ws (length (conns w))).
  { unfold w3. rewrite log_of_record_self.
    change (log_of t (with_readers ?a (with_conns ?b (with_cl ?c (with_cl ?d ?w0)))))
      with (log_of t w0).
    rewrite log_of_record_self. unfold opening. rewrite <- app_assoc. reflexivity. }
  unfold _send_locked. rewrite Hs3, Hc3.
  eexists. split; [by apply lookup_set_pc|]. split; [done|]. split; [done|].
  cbn [t_pc]. split; [lia|]. split.
  { rewrite log_of_set_pc, !log_of_record_self.
    change (log_of t (with_futures ?a (with_cl ?b w3))) with (log_of t w3).
    rewrite Hl3, <- !app_assoc. do 2 f_equal.
    unfold handshake, enable_events. cbn [seq flat_map app].
    change (_msg_id (cl w3)) with (_msg_id (cl w)).
    change (length (futures w3)) with (length (futures w)).
    replace (_msg_id (cl w) + 1 + Z.of_nat 0)%Z with (_msg_id (cl w) + 1)%Z by lia.
    replace (length (futures w) + 0)%nat with (length (futures w)) by lia.
    reflexivity. }
  split.
  { cbn [cl _msg_id set_pc record with_trace with_tasks with_futures with_cl
         set_pending set_msg_id].
    change (_msg_id (cl w3)) with (_msg_id (cl w)). lia. }
  split.
  { cbn [futures set_pc record with_trace with_tasks with_futures with_cl].
    rewrite length_app. change (futures w3) with (futures w). simpl. lia. }
  left. reflexivity.
Qed.

(** C10.  A task that enters [send] on a client without a usable
    channel (none opened, the opened one closed, or its state not
    visible) performs, in this order and before anything else: the
    discovery request and the creation requests of target resolution,
    the opening of the channel, the start of the receive loop, and the
    commands [Page.enable], [Runtime.enable], [Network.enable]; only
    then its own command.  Whatever the other tasks and the browser do
    meanwhile, what the task has done is always a prefix of that
    script, and once its own command is on the wire it is the whole
    script. *)
Theorem send_connects_lazily (w w' : world) (t : nat) (tk : task)
    (env : http_env) (ok : bool) (ls : list label) :
  reachable w ->
  tasks w !! t = Some tk -> t_pc tk = WaitLock -> connected w = false ->
  exec (Acquire t env ok :: ls) w = Some w' ->
  (exists rest, snd (create_target (cl w) env) = HttpGet (list_url (cl w)) :: rest)
  /\ log_of t w' `prefix_of`
       log_of t w ++
       connect_script (snd (create_target (cl w) env))
         (resolved_url (fst (create_target (cl w) env))) (length (conns w))
         (_msg_id (cl w)) (length (futures w)) (t_method tk) (t_params tk)
  /\ (forall fut v,
        pc_of w' t = Some (AwaitReply fut) \/ pc_of w' t = Some (Finished (Ok v)) ->
        log_of t w'
        = log_of t w ++
          connect_script (snd (create_target (cl w) env))
            (resolved_url (fst (create_target (cl w) env))) (length (conns w))
            (_msg_id (cl w)) (length (futures w)) (t_method tk) (t_params tk)).
Proof.
  intros Hr Htk Hpc Hconn Hex. split; [apply create_target_lists_first|].
  cbn [Scheduler.exec] in Hex.
  destruct (step (Acquire t env ok) w) as [w1|] eqn:Hs1; [|discriminate].
  pose proof (reachable_step _ _ _ _ _ _ Hr Hs1) as Hr1.
  cbn [Scheduler.step] in Hs1. rewrite Htk, Hpc in Hs1.
  destruct (lock w); [discriminate|]. injection Hs1 as <-.
  pose proof (acquire_lazy t tk env ok w Htk Hconn) as Hinv.
  set (pre := opening _ _ _) in Hinv.
  assert (Hfin : reachable w'
                 /\ lazy_inv t (t_method tk) (t_params tk) (log_of t w) pre
                      (length (conns w)) (_msg_id (cl w)) (length (futures w)) w').
  { eapply (exec_invariant _ _ _
              (fun w0 => reachable w0
                         /\ lazy_inv t (t_method tk) (t_params tk) (log_of t w) pre
                              (length (conns w)) (_msg_id (cl w))
                              (length (futures w)) w0));
      [|split; [exact Hr1 | exact Hinv] | exact Hex].
    intros l wa wb [Hra Hia] Hst. split; [by eapply reachable_step|].
    eapply lazy_inv_step; [by apply lock_inv_reachable in Hra | exact Hia | exact Hst]. }
  destruct Hfin as [_ (tk' & Htk' & _ & _ & Hcase)].
  unfold connect_script. fold pre. unfold pc_of. rewrite Htk'. cbn [fmap option_fmap option_map].
  split.
  - destruct (t_pc tk') as [|k fut|fut|[v|e]]; try done.
    + destruct Hcase as (Hk & -> & _). apply script_prefix_enable. lia.
    + by rewrite Hcase.
    + by rewrite Hcase.
  - intros fut v [[= Hp] | [= Hp]]; rewrite Hp in Hcase; exact Hcase.
Qed.

End LazyConnect.

Lemma send_connects_lazily_witness :
  log_of 1 (Scenario.run (ScenarioLazy.called
                          ++ Acquire 1 Scenario.fresh_env true :: ScenarioLazy.answered))
  = connect_script
      [HttpGet "http://127.0.0.1:9222/json/list";
       HttpGet "http://127.0.0.1:9222/json/new?https://example.com"]
      "ws://127.0.0.1:9222/devtools/page/N" 0 0 0
      "Runtime.evaluate" (Some (Facade.evaluate_params "1")).
Proof.
  pose proof (send_connects_lazily Scenario.chk Scenario.quote true
                (Scenario.run ScenarioLazy.called)
                (Scenario.run (ScenarioLazy.called
                               ++ Acquire 1 Scenario.fresh_env true :: ScenarioLazy.answered))
                1 (Task "Runtime.evaluate" (Some (Facade.evaluate_params "1")) WaitLock)
                Scenario.fresh_env true ScenarioLazy.answered) as H.
  destruct H as (_ & _ & H).
  - apply (scenario_reachable ScenarioLazy.called). vm_compute. reflexivity.
  - vm_compute. reflexivity.
  - reflexivity.
  - vm_compute. reflexivity.
  - vm_compute. reflexivity.
  - apply (H 3%nat JNull). left. vm_compute. reflexivity.
Defined.

(** ** Closing adopted targets *)

Lemma close_http_adopted (tid : string) (c : client) :
  close_http (adopt_target tid c)
  = if Str.is_empty tid || String.eqb tid "existing" then []
    else [HttpGet (close_url c tid)].
Proof.
  unfold close_http, adopt_target. cbn [target_id _reused_existing set_target].
  destruct (Str.is_empty tid), (String.eqb tid "existing"); reflexivity.
Qed.

(** A target tagged ["existing"] by the reuse policy is left alone. *)
Lemma close_spares_policy_reuse (c : client) :
  close_http (adopt_target "existing" c) = [].
Proof. reflexivity. Qed.

(** The degraded-mode fallback hands back the id of the listed page. *)
Lemma fallback_keeps_id (fe : target_entry) (id : string) :
  t_id fe = Some id ->
  on_create_failure (Some fe) (Raise (HTTPStatusError 405))
  = Ok (default "" (t_webSocketDebuggerUrl fe), id).
Proof. intros H. unfold on_create_failure. cbn. by rewrite H. Qed.

(** Resolution through the reuse policy: the target is tagged
    ["existing"], and [close] sends no HTTP request for it. *)
Lemma policy_reuse_is_spared chk quote (c : client) (env : http_env)
    (resp : http_response) (targets : list target_entry) (ws : string) :
  http_get env (list_url c) = Ok resp -> raise_for_status resp = Ok tt ->
  body resp = BodyTargets targets ->
  scan_targets chk c targets None = Ok (inl ws) ->
  _create_target chk quote c env = (Ok (ws, "existing"), [HttpGet (list_url c)])
  /\ close_http (adopt_target "existing" c) = [].
Proof.
  intros Hget Hst Hbody Hscan. unfold _create_target.
  by rewrite Hget, Hst, Hbody, Hscan.
Qed.

(** Resolution through the fallback: when creation is answered 405 and
    the discovery list held a usable page with an id, the target keeps
    that id, and [close] sends the HTTP close request for it. *)
Lemma fallback_is_closed chk quote (c : client) (env : http_env)
    (resp : http_response) (targets : list target_entry)
    (fe : target_entry) (id : string) effs :
  http_get env (list_url c) = Ok resp -> raise_for_status resp = Ok tt ->
  body resp = BodyTargets targets ->
  scan_targets chk c targets None = Ok (inr (Some fe)) ->
  try_create quote c env = (Raise (HTTPStatusError 405), effs) ->
  t_id fe = Some id -> id <> "" -> id <> "existing" ->
  fst (_create_target chk quote c env)
  = Ok (default "" (t_webSocketDebuggerUrl fe), id)
  /\ close_http (adopt_target id c) = [HttpGet (close_url c id)].
Proof.
  intros Hget Hst Hbody Hscan Htry Hid Hne Hnex. split.
  - unfold _create_target. rewrite Hget, Hst, Hbody, Hscan, Htry.
    cbn [fst]. by apply fallback_keeps_id.
  - rewrite close_http_adopted.
    apply is_empty_false in Hne. apply String.eqb_neq in Hnex.
    by rewrite Hne, Hnex.
Qed.

(** C1 on the code.  The browser lists one page, of another site, and
    answers 405 to both creation requests: the client adopts the listed
    page [T1] in degraded mode, does not mark it as reused, and
    [close()] then sends the HTTP close request for [T1].  A page
    adopted through the reuse policy is spared, a created one closed. *)
Theorem close_destroys_fallback_target :
  _create_target Scenario.chk Scenario.quote Scenario.c0 Scenario.blocked_env
  = (Ok ("ws://127.0.0.1:9222/devtools/page/T1", "T1"),
     [HttpGet "http://127.0.0.1:9222/json/list";
      HttpGet "http://127.0.0.1:9222/json/new?https://example.com";
      HttpPost "http://127.0.0.1:9222/json/new"
        (JObj [("url", JStr "https://example.com")])])
  /\ target_id (cl (Scenario.run (ScenarioClose.connect Scenario.blocked_env)))
     = Some "T1"
  /\ _reused_existing (cl (Scenario.run (ScenarioClose.connect Scenario.blocked_env)))
     = false
  /\ snd (close (cl (Scenario.run (ScenarioClose.connect Scenario.blocked_env))))
     = [WsClose 0; HttpGet "http://127.0.0.1:9222/json/close/T1"]
  /\ snd (close (cl (Scenario.run (ScenarioClose.connect Scenario.page_env))))
     = [WsClose 0]
  /\ snd (close (cl (Scenario.run (ScenarioClose.connect Scenario.fresh_env))))
     = [WsClose 0; HttpGet "http://127.0.0.1:9222/json/close/N"].
Proof. repeat split; vm_compute; reflexivity. Qed.

(** ** The drag gesture *)

Section Drag.

Import Facade.
Local Open Scope Q_scope.

(** [smoothstep b - smoothstep a] is [(b - a)] times a sum of products
    that are non-negative on the unit interval. *)
Lemma smoothstep_diff (a b : Q) :
  smoothstep b - smoothstep a
  == (b - a) * (2 * (a * (1 - a)) + 2 * (b * (1 - b)) + a * (1 - b) + b * (1 - a)).
Proof. unfold smoothstep. ring. Qed.

Lemma smoothstep_mono (a b : Q) :
  0 <= a -> a <= b -> b <= 1 -> smoothstep a <= smoothstep b.
Proof.
  intros Ha Hab Hb.
  assert (H1 : 0 <= a * (1 - a)) by (apply Qmult_le_0_compat; lra).
  assert (H2 : 0 <= b * (1 - b)) by (apply Qmult_le_0_compat; lra).
  assert (H3 : 0 <= a * (1 - b)) by (apply Qmult_le_0_compat; lra).
  assert (H4 : 0 <= b * (1 - a)) by (apply Qmult_le_0_compat; lra).
  assert (H : 0 <= smoothstep b - smoothstep a).
  { rewrite smoothstep_diff. apply Qmult_le_0_compat; lra. }
  lra.
Qed.

Lemma smoothstep_strict (a b : Q) :
  0 <= a -> a < b -> b <= 1 -> smoothstep a < smoothstep b.
Proof.
  intros Ha Hab Hb.
  assert (H1 : 0 <= a * (1 - a)) by (apply Qmult_le_0_compat; lra).
  assert (H2 : 0 <= b * (1 - b)) by (apply Qmult_le_0_compat; lra).
  assert (H3 : 0 <= a * (1 - b)) by (apply Qmult_le_0_compat; lra).
  assert (H4 : 0 < b * (1 - a)) by (apply Qmult_lt_0_compat; lra).
  assert (H : 0 < smoothstep b - smoothstep a).
  { rewrite smoothstep_diff. apply Qmult_lt_0_compat; lra. }
  lra.
Qed.

Lemma smoothstep_0 : smoothstep 0 == 0.
Proof. reflexivity. Qed.

Lemma smoothstep_1 : smoothstep 1 == 1.
Proof. reflexivity. Qed.

Lemma smoothstep_range (a : Q) : 0 <= a -> a <= 1 -> 0 <= smoothstep a <= 1.
Proof.
  intros H0 H1. split.
  - rewrite <- smoothstep_0. apply smoothstep_mono; lra.
  - rewrite <- smoothstep_1. apply smoothstep_mono; lra.
Qed.

Lemma frac_bounds (n : Z) (i j : nat) :
  (0 < n)%Z -> (i <= j)%nat -> (Z.of_nat j <= n)%Z ->
  0 <= inject_Z (Z.of_nat i) / inject_Z n
  /\ inject_Z (Z.of_nat i) / inject_Z n <= inject_Z (Z.of_nat j) / inject_Z n
  /\ inject_Z (Z.of_nat j) / inject_Z n <= 1.
Proof.
  intros Hn Hij Hjn.
  assert (Hn' : 0 < inject_Z n) by (change 0 with (inject_Z 0); rewrite <- Zlt_Qlt; lia).
  assert (Hi : 0 <= inject_Z (Z.of_nat i))
    by (change 0 with (inject_Z 0); rewrite <- Zle_Qle; lia).
  assert (Hij' : inject_Z (Z.of_nat i) <= inject_Z (Z.of_nat j))
    by (rewrite <- Zle_Qle; lia).
  assert (Hjn' : inject_Z (Z.of_nat j) <= inject_Z n) by (rewrite <- Zle_Qle; lia).
  split; [|split].
  - apply Qle_shift_div_l; [done|]. lra.
  - apply Qle_shift_div_l; [done|]. unfold Qdiv.
    rewrite <- Qmult_assoc, (Qmult_comm (/ inject_Z n)), Qmult_inv_r; lra.
  - apply Qle_shift_div_r; [done|]. lra.
Qed.

Lemma frac_strict (n : Z) (i j : nat) :
  (0 < n)%Z -> (i < j)%nat ->
  inject_Z (Z.of_nat i) / inject_Z n < inject_Z (Z.of_nat j) / inject_Z n.
Proof.
  intros Hn Hij.
  assert (Hn' : 0 < inject_Z n) by (change 0 with (inject_Z 0); rewrite <- Zlt_Qlt; lia).
  assert (Hij' : inject_Z (Z.of_nat i) < inject_Z (Z.of_nat j))
    by (rewrite <- Zlt_Qlt; lia).
  apply Qlt_shift_div_l; [done|]. unfold Qdiv.
  rewrite <- Qmult_assoc, (Qmult_comm (/ inject_Z n)), Qmult_inv_r; lra.
Qed.

(** The distance left to the end point, without jitter, is the whole
    distance scaled by [1 - smoothstep]. *)
Lemma eased_distance (a b : Q) (n : Z) (i : nat) :
  (0 < n)%Z -> (Z.of_nat i <= n)%Z ->
  Qabs (b - eased a b n i)
  == Qabs (b - a) * (1 - smoothstep (inject_Z (Z.of_nat i) / inject_Z n)).
Proof.
  intros Hn Hi. unfold eased.
  destruct (frac_bounds n i i Hn (le_n i) Hi) as (H0 & _ & H1).
  destruct (smoothstep_range _ H0 H1) as [_ Hs].
  set (s := smoothstep _) in *.
  assert (E : b - (a + (b - a) * s) == (b - a) * (1 - s)) by ring.
  rewrite E, Qabs_Qmult. rewrite (Qabs_pos (1 - s)); [reflexivity | lra].
Qed.

Lemma eased_approaches (a b : Q) (n : Z) (i j : nat) :
  (0 < n)%Z -> (i <= j)%nat -> (Z.of_nat j <= n)%Z ->
  Qabs (b - eased a b n j) <= Qabs (b - eased a b n i).
Proof.
  intros Hn Hij Hj.
  rewrite !eased_distance by lia.
  destruct (frac_bounds n i j Hn Hij Hj) as (H0 & Hle & H1).
  pose proof (smoothstep_mono _ _ H0 Hle H1) as Hs.
  pose proof (Qabs_nonneg (b - a)) as Ha.
  set (si := smoothstep (inject_Z (Z.of_nat i) / inject_Z n)) in *.
  set (sj := smoothstep (inject_Z (Z.of_nat j) / inject_Z n)) in *.
  set (d := Qabs (b - a)) in *.
  assert (H : 0 <= d * (sj - si)) by (apply Qmult_le_0_compat; lra).
  assert (E : d * (1 - si) == d * (1 - sj) + d * (sj - si)) by ring.
  rewrite E. lra.
Qed.

Lemma eased_start (a b : Q) (n : Z) : eased a b n 0 == a.
Proof.
  unfold eased, smoothstep, Qdiv. change (inject_Z (Z.of_nat 0)) with 0. ring.
Qed.

Lemma eased_finish (a b : Q) (n : Z) : (0 < n)%Z -> eased a b n (Z.to_nat n) == b.
Proof.
  intros Hn. unfold eased. rewrite Z2Nat.id by lia.
  assert (Hn' : ~ inject_Z n == 0).
  { intros H. assert (0 < inject_Z n)
      by (change 0 with (inject_Z 0); rewrite <- Zlt_Qlt; lia). lra. }
  unfold smoothstep. field. auto.
Qed.

Lemma dispatched_app (l1 l2 : list action) :
  dispatched (l1 ++ l2) = dispatched l1 ++ dispatched l2.
Proof. apply omap_app. Qed.

Lemma sleeps_app (l1 l2 : list action) : sleeps (l1 ++ l2) = sleeps l1 ++ sleeps l2.
Proof. apply omap_app. Qed.

Lemma dispatched_steps start finish duration steps jitter (l : list nat) :
  dispatched (flat_map (drag_step start finish duration steps jitter) l)
  = map (interpolated start finish steps jitter) l.
Proof.
  induction l as [|i l IH]; [done|]. cbn [flat_map map].
  rewrite dispatched_app, IH. reflexivity.
Qed.

Lemma sleeps_steps start finish duration steps jitter (l : list nat) :
  sleeps (flat_map (drag_step start finish duration steps jitter) l)
  = repeat (pace duration steps) (length l).
Proof.
  induction l as [|i l IH]; [done|]. cbn [flat_map length repeat].
  rewrite sleeps_app, IH. reflexivity.
Qed.



End Drag.

(** ** Polling *)

Section Polling.

Import Facade.
Local Open Scope Q_scope.

Variable sends : nat -> res json.

Lemma evaluate_raises (r : res json) (e : exn) :
  evaluate r = Raise e -> is_Exception e = true \/ r = Raise e.
Proof.
  destruct r as [v|e']; [|intros [= ->]; by right]. intros H. left.
  unfold evaluate in H. cbn [res_bind] in H.
  destruct v as [| | | | | |d]; try (by injection H as <-).
  unfold pick_value in H.
  destruct (default (JObj []) (dict_get "result" d)) as [| | | |s|l|d'];
    try (by injection H as <-).
  - destruct (Str.has_substring _ _); [by injection H as <- | discriminate].
  - destruct (existsb _ _); [by injection H as <- | discriminate].
  - destruct (dict_get "value" d'); discriminate.
Qed.

Lemma poll_expression_spec (deadline : Q) (clock : list Q) (k : nat) :
  (forall i e, sends i = Raise e -> is_Exception e = true) ->
  (exists now, now ∈ clock /\ deadline <= now) ->
  exists r,
    poll_expression sends deadline k clock = Some (Ok r)
    /\ exists j,
         (forall i, (i < j)%nat -> quiet sends (k + i))
         /\ (forall i t, (i < j)%nat -> clock !! i = Some t -> t < deadline)
         /\ match r with
            | Some v => truthy v = true /\ evaluate (sends (k + j)) = Ok v
                        /\ exists t, clock !! j = Some t /\ t < deadline
            | None => exists t, clock !! j = Some t /\ deadline <= t
            end.
Proof.
  intros Hexn. revert k. induction clock as [|now clock' IH]; intros k Hlate.
  { destruct Hlate as (t & Hin & _). by apply elem_of_nil in Hin. }
  cbn [poll_expression]. destruct (Qlt_le_dec now deadline) as [Hlt | Hge].
  2:{ exists None. split; [done|]. exists 0%nat. split; [intros; lia|].
      split; [intros; lia|]. by exists now. }
  assert (Hlate' : exists t, t ∈ clock' /\ deadline <= t).
  { destruct Hlate as (t & Hin & Ht). apply elem_of_cons in Hin as [-> | Hin];
      [lra | by exists t]. }
  assert (Hnext : quiet sends k ->
    exists r, poll_expression sends deadline (S k) clock' = Some (Ok r)
      /\ exists j,
           (forall i, (i < j)%nat -> quiet sends (k + i))
           /\ (forall i t, (i < j)%nat -> (now :: clock') !! i = Some t -> t < deadline)
           /\ match r with
              | Some v => truthy v = true /\ evaluate (sends (k + j)) = Ok v
                          /\ exists t, (now :: clock') !! j = Some t /\ t < deadline
              | None => exists t, (now :: clock') !! j = Some t /\ deadline <= t
              end).
  { intros Hq. destruct (IH (S k) Hlate') as (r & Hr & j & Hquiet & Hearly & Hlast).
    exists r. split; [done|]. exists (S j). split; [|split].
    - intros i Hi. destruct i as [|i]; [by rewrite Nat.add_0_r|].
      replace (k + S i)%nat with (S k + i)%nat by lia. apply Hquiet. lia.
    - intros i t Hi Hlk. destruct i as [|i]; [by injection Hlk as <-|].
      apply (Hearly i t); [lia | done].
    - replace (k + S j)%nat with (S k + j)%nat by lia. exact Hlast. }
  destruct (evaluate (sends k)) as [v|e] eqn:Hev.
  - destruct (truthy v) eqn:Htr.
    + exists (Some v). split; [done|]. exists 0%nat. split; [intros; lia|].
      split; [intros; lia|]. rewrite Nat.add_0_r. split; [done|]. split; [done|].
      by exists now.
    + apply Hnext. unfold quiet. by rewrite Hev.
  - assert (He : is_Exception e = true).
    { destruct (evaluate_raises _ _ Hev) as [H | H]; [done | by apply (Hexn k)]. }
    rewrite He. apply Hnext. unfold quiet. by rewrite Hev.
Qed.



End Polling.


(** ** The process supervisor *)

Section Supervisor.

Import Guard.

Variable cfg : config.
Variable world : env.

Local Abbreviation ensure := (ensure cfg world).
Local Abbreviation ensure_many := (ensure_many cfg world).
Local Abbreviation wait_loop := (wait_loop world).
Local Abbreviation no_endpoint_loss := (no_endpoint_loss world).

Lemma wait_loop_spec (fuel : nat) (deadline : Q) (s s' : state) (r : res unit) :
  wait_loop fuel deadline s = Some (r, s') ->
  (probes s <= probes s')%nat /\ spawned s' = spawned s /\ g s' = g s
  /\ (r = Ok tt -> exists p, (p < probes s')%nat /\ alive world p = true).
Proof.
  revert s. induction fuel as [|fuel IH]; intros s; [discriminate|].
  cbn [Guard.wait_loop]. unfold read_clock, _devtools_alive, poll_returncode.
  destruct (Qlt_le_dec _ _).
  - cbn [probes reads polls spawned g].
    destruct (alive world (probes s)) eqn:Hup.
    + intros [= <- <-]. cbn. repeat split; try lia.
      intros _. exists (probes s). split; [lia | done].
    + destruct (match _proc (g s) with Some _ => _ | None => _ end).
      * intros [= <- <-]. cbn. repeat split; try lia. discriminate.
      * intros H. apply IH in H as (Hp & Hsp & Hg & Hok). cbn in *.
        repeat split; try done. lia.
  - intros [= <- <-]. cbn. repeat split; try lia. discriminate.
Qed.

(** What one call of [ensure] does. *)
Lemma ensure_spec (fuel : nat) (s s' : state) (r : res bool) :
  ensure fuel s = Some (r, s') ->
  (probes s < probes s')%nat
  /\ match r with
     | Ok false => alive world (probes s) = true /\ spawned s' = spawned s
     | Ok true =>
         alive world (probes s) = false /\ manage_process (g s) = true
         /\ spawned s' = spawned s ++ [launch_args cfg (g s)]
         /\ exists p, (p < probes s')%nat /\ alive world p = true
     | Raise _ => alive world (probes s) = false
     end.
Proof.
  unfold Guard.ensure, _devtools_alive.
  destruct (alive world (probes s)) eqn:Hup.
  { intros [= <- <-]. cbn. split; [lia | done]. }
  cbn [g]. destruct (manage_process (g s)) eqn:Hm; cbn [negb].
  2:{ intros [= <- <-]. cbn. split; [lia | done]. }
  unfold _launch. cbn [spawned].
  destruct (spawn_error world (length (spawned s))).
  { intros [= <- <-]. cbn. split; [lia | done]. }
  unfold _wait_until_ready, read_clock. cbn [reads].
  match goal with |- context [Guard.wait_loop world fuel ?d ?s0] =>
    destruct (wait_loop fuel d s0) as [[[[]|e] s3]|] eqn:Hw end; try discriminate.
  - intros [= <- <-]. apply wait_loop_spec in Hw as (Hp & Hsp & Hg & Hok).
    cbn in Hp, Hsp. split; [lia|]. repeat split; try done. by apply Hok.
  - intros [= <- <-]. apply wait_loop_spec in Hw as (Hp & _). cbn in Hp.
    split; [lia | done].
Qed.

(** The loop of [_wait_until_ready] ends once the clock has passed the
    deadline. *)
Lemma wait_loop_total (d fuel : nat) (deadline : Q) (s : state) :
  (deadline <= now world (reads s + d))%Q -> (d < fuel)%nat ->
  exists out, wait_loop fuel deadline s = Some out.
Proof.
  revert fuel s. induction d as [|d IH]; intros fuel s Hlate Hfuel;
    (destruct fuel as [|fuel]; [lia|]); cbn [Guard.wait_loop];
    unfold read_clock, _devtools_alive, poll_returncode.
  - rewrite Nat.add_0_r in Hlate. destruct (Qlt_le_dec _ _); [lra | by eexists].
  - destruct (Qlt_le_dec _ _); [|by eexists].
    destruct (alive world _); [by eexists|].
    destruct (match _proc _ with Some _ => _ | None => _ end); [by eexists|].
    apply IH; [|lia]. cbn [reads]. by replace (S (reads s) + d)%nat with (reads s + S d)%nat by lia.
Qed.

Lemma ensure_total (d fuel : nat) (s : state) :
  clock_advances cfg world s d -> (d < fuel)%nat ->
  exists out, ensure fuel s = Some out.
Proof.
  unfold clock_advances. intros Hclock Hfuel. unfold Guard.ensure, _devtools_alive.
  destruct (alive world (probes s)); [by eexists|]. cbn [g].
  destruct (negb _); [by eexists|]. unfold _launch. cbn [spawned].
  destruct (spawn_error world _); [by eexists|].
  unfold _wait_until_ready, read_clock. cbn [reads].
  match goal with |- context [Guard.wait_loop world fuel ?dl ?s0] =>
    destruct (wait_loop_total d fuel dl s0) as [[[[]|e] s3] Hw] end;
    [cbn [reads]; by replace (S (reads s) + d)%nat with (reads s + 1 + d)%nat by lia
    | done | |]; rewrite Hw; by eexists.
Qed.

Lemma ensure_many_lookup (fuel n i : nat) (s si : state) runs (r : res bool) :
  ensure_many fuel n s = Some runs -> runs !! i = Some (r, si) ->
  ensure fuel (state_before s runs i) = Some (r, si).
Proof.
  revert s runs i. induction n as [|n IH]; intros s runs i; cbn [Guard.ensure_many].
  { intros [= <-] H. by rewrite lookup_nil in H. }
  destruct (ensure fuel s) as [[r1 s1]|] eqn:He; [|discriminate].
  destruct (ensure_many fuel n s1) as [runs'|] eqn:Hm; [|discriminate].
  intros [= <-] Hi. destruct i as [|i].
  - cbn in Hi. injection Hi as <- <-. exact He.
  - cbn in Hi. specialize (IH s1 runs' i Hm Hi).
    unfold state_before in *. destruct i as [|i]; [exact IH|].
    cbn [lookup list_lookup]. change ((?x :: ?l) !! S ?k) with (l !! k).
    destruct (runs' !! i) as [[ri si']|] eqn:Hprev; [exact IH|].
    apply lookup_lt_Some in Hi. apply lookup_ge_None in Hprev. lia.
Qed.

(** Once the endpoint is known to answer, every further call returns
    false and spawns nothing. *)
Lemma ensure_many_alive (fuel n p : nat) (s : state) runs :
  no_endpoint_loss -> (p <= probes s)%nat -> alive world p = true ->
  ensure_many fuel n s = Some runs ->
  Forall (fun run => fst run = Ok false /\ spawned (snd run) = spawned s) runs.
Proof.
  intros Hloss. revert s runs. induction n as [|n IH]; intros s runs Hp Hup;
    cbn [Guard.ensure_many].
  { intros [= <-]. constructor. }
  destruct (ensure fuel s) as [[r1 s1]|] eqn:He; [|discriminate].
  destruct (ensure_many fuel n s1) as [runs'|] eqn:Hm; [|discriminate].
  intros [= <-]. pose proof (Hloss _ _ Hp Hup) as Hnow.
  apply ensure_spec in He as (Hlt & Hcase).
  destruct r1 as [[|]|e]; try (destruct Hcase; congruence); try congruence.
  destruct Hcase as [_ Hsp]. constructor; [done|].
  rewrite <- Hsp. apply IH; [lia | done | done].
Qed.

Lemma ensure_alive (fuel : nat) (s : state) :
  alive world (probes s) = true ->
  exists s', ensure fuel s = Some (Ok false, s') /\ spawned s' = spawned s.
Proof.
  intros Hup. unfold Guard.ensure, _devtools_alive. rewrite Hup. by eexists.
Qed.

Lemma ensure_sequence (fuel n : nat) (s : state) runs :
  no_endpoint_loss ->
  ensure_many fuel n s = Some runs ->
  (forall fuel0 s0, alive world (probes s0) = true ->
     exists s1, ensure fuel0 s0 = Some (Ok false, s1) /\ spawned s1 = spawned s0)
  /\ (forall d fuel0 s0, clock_advances cfg world s0 d -> (d < fuel0)%nat ->
        exists out, ensure fuel0 s0 = Some out)
  /\ (forall i r si, runs !! i = Some (r, si) ->
     (alive world (probes (state_before s runs i)) = true ->
      r = Ok false /\ spawned si = spawned (state_before s runs i))
     /\ (r = Ok false -> spawned si = spawned (state_before s runs i))
     /\ (r = Ok true ->
         spawned si = spawned (state_before s runs i)
                      ++ [launch_args cfg (g (state_before s runs i))]))
  /\ (length (filter (fun run => returned_true run = true) runs) <= 1)%nat
  /\ (forall pre post b si, runs = pre ++ (Ok b, si) :: post ->
        Forall (fun run => fst run = Ok false /\ spawned (snd run) = spawned si) post).
Proof.
  intros Hloss Hm. split; [exact ensure_alive|]. split; [exact ensure_total|]. split.
  { intros i r si Hi. pose proof (ensure_many_lookup _ _ _ _ _ _ _ Hm Hi) as He.
    apply ensure_spec in He as (_ & Hcase).
    destruct r as [[|]|e].
    - destruct Hcase as (Hdown & _ & Hsp & _).
      split; [intros Hup; congruence|]. split; [discriminate | done].
    - destruct Hcase as (Hup & Hsp).
      split; [done|]. split; [done | discriminate].
    - split; [intros Hup; congruence|]. split; discriminate. }
  revert s runs Hm. induction n as [|n IH]; intros s runs; cbn [Guard.ensure_many].
  { intros [= <-]. split; [cbn; lia|]. intros [|? ?] ? ? ? H; discriminate H. }
  destruct (ensure fuel s) as [[r1 s1]|] eqn:He; [|discriminate].
  destruct (ensure_many fuel n s1) as [runs'|] eqn:Hm; [|discriminate].
  intros [= <-]. destruct (IH s1 runs' Hm) as (Hcount & Hafter).
  assert (Hret : forall b, r1 = Ok b ->
            Forall (fun run => fst run = Ok false /\ spawned (snd run) = spawned s1) runs').
  { intros b ->. apply ensure_spec in He as (Hlt & Hcase).
    destruct b.
    - destruct Hcase as (_ & _ & _ & p & Hp & Hup).
      apply (ensure_many_alive fuel n p s1 runs' Hloss); [lia | done | done].
    - destruct Hcase as [Hup _].
      apply (ensure_many_alive fuel n (probes s) s1 runs' Hloss); [lia | done | done]. }
  split.
  - rewrite filter_cons. case_decide as Htrue; [|exact Hcount].
    unfold returned_true in Htrue. cbn [fst] in Htrue.
    destruct r1 as [[|]|e]; try discriminate.
    specialize (Hret true eq_refl).
    replace (filter _ runs') with (@nil (res bool * state)); [cbn; lia|].
    symmetry. clear -Hret. induction Hret as [|[r x] l [Hr _] _ IHl]; [done|].
    rewrite filter_cons. cbn [fst] in Hr. subst r.
    rewrite decide_False by (unfold returned_true; cbn; discriminate). exact IHl.
  - intros pre post b si Hsplit. destruct pre as [|x pre].
    + cbn in Hsplit. injection Hsplit as -> -> ->. by apply (Hret b).
    + cbn in Hsplit. injection Hsplit as _ ->. by apply (Hafter pre post b si).
Qed.


End Supervisor.

Lemma scenario_guard_no_loss : Guard.no_endpoint_loss ScenarioGuard.world.
Proof.
  unfold Guard.no_endpoint_loss, ScenarioGuard.world. cbn [Guard.alive].
  intros i j Hij. rewrite !Nat.leb_le. lia.
Qed.


(** * Further properties *)

(** ** Target resolution *)

Section Resolution.

Variable check_bracketed_host : string -> bool.
Variable quote : string -> string.

Local Abbreviation can_reuse := (_can_reuse_target check_bracketed_host).
Local Abbreviation scan := (scan_targets check_bracketed_host).
Local Abbreviation turned_down := (turned_down check_bracketed_host).
Local Abbreviation create_target := (_create_target check_bracketed_host quote).

Lemma usable_page_ws (entry : target_entry) :
  usable_page entry = true ->
  exists ws, t_webSocketDebuggerUrl entry = Some ws /\ ws <> "".
Proof.
  unfold usable_page. destruct (t_type entry); [|discriminate].
  destruct (t_webSocketDebuggerUrl entry) as [ws|]; [|discriminate].
  intros [_ H]%andb_true_iff. exists ws. split; [reflexivity|].
  apply is_empty_false. now destruct (Str.is_empty ws).
Qed.

Lemma scan_inl (c : client) (targets : list target_entry)
    (fb : option target_entry) (ws : string) :
  scan c targets fb = Ok (inl ws) <->
  exists pre entry post,
    targets = pre ++ entry :: post
    /\ Forall (turned_down c) pre
    /\ usable_page entry = true
    /\ can_reuse c (default "" (t_url entry)) = Ok true
    /\ t_webSocketDebuggerUrl entry = Some ws.
Proof.
  revert fb. induction targets as [|e targets IH]; intros fb; simpl.
  - split; [discriminate|]. intros (pre & entry & post & H & _).
    destruct pre; discriminate.
  - destruct (usable_page e) eqn:Hu; simpl.
    + destruct (can_reuse c (default "" (t_url e))) as [[|]|err] eqn:Hr; simpl.
      * split.
        -- intros [= <-]. exists [], e, targets.
           destruct (usable_page_ws e Hu) as (ws' & Hws & _).
           rewrite Hws. simpl. repeat split; auto.
        -- intros (pre & entry & post & H & Hpre & Hue & Hre & Hws).
           destruct pre as [|e' pre]; simpl in H.
           ++ injection H as <- <-. now rewrite Hws.
           ++ injection H as <- ->. apply Forall_cons in Hpre as [Hd _].
              specialize (Hd Hu). congruence.
      * rewrite IH. split.
        -- intros (pre & entry & post & -> & Hpre & Hrest).
           exists (e :: pre), entry, post. split; [reflexivity|].
           split; [|exact Hrest]. apply Forall_cons. split; [|exact Hpre].
           intros _. exact Hr.
        -- intros (pre & entry & post & H & Hpre & Hue & Hre & Hws).
           destruct pre as [|e' pre]; simpl in H.
           ++ injection H as <- <-. congruence.
           ++ injection H as <- ->. apply Forall_cons in Hpre as [_ Hpre].
              exists pre, entry, post. auto.
      * split; [discriminate|].
        intros (pre & entry & post & H & Hpre & Hue & Hre & Hws).
        destruct pre as [|e' pre]; simpl in H.
        -- injection H as <- <-. congruence.
        -- injection H as <- ->. apply Forall_cons in Hpre as [Hd _].
           specialize (Hd Hu). congruence.
    + rewrite IH. split.
      * intros (pre & entry & post & -> & Hpre & Hrest).
        exists (e :: pre), entry, post. split; [reflexivity|].
        split; [|exact Hrest]. apply Forall_cons. split; [|exact Hpre].
        intros Hu'. congruence.
      * intros (pre & entry & post & H & Hpre & Hue & Hre & Hws).
        destruct pre as [|e' pre]; simpl in H.
        -- injection H as <- <-. congruence.
        -- injection H as <- ->. apply Forall_cons in Hpre as [_ Hpre].
           exists pre, entry, post. auto.
Qed.

Lemma scan_inr (c : client) (targets : list target_entry)
    (fb0 fb : option target_entry) :
  scan c targets fb0 = Ok (inr fb) <->
  fb = match fb0 with
       | Some _ => fb0
       | None => List.find usable_page targets
       end
  /\ Forall (turned_down c) targets.
Proof.
  revert fb0. induction targets as [|e targets IH]; intros fb0; simpl.
  - split.
    + intros [= <-]. split; [now destruct fb0 | constructor].
    + intros [-> _]. now destruct fb0.
  - destruct (usable_page e) eqn:Hu; simpl.
    + destruct (can_reuse c (default "" (t_url e))) as [[|]|err] eqn:Hr; simpl.
      * split; [discriminate|]. intros [_ [Hd _]%Forall_cons].
        specialize (Hd Hu). congruence.
      * rewrite IH. split.
        -- intros [-> H]. split; [now destruct fb0|].
           apply Forall_cons. split; [intros _; exact Hr | exact H].
        -- intros [-> [_ H]%Forall_cons]. split; [now destruct fb0 | exact H].
      * split; [discriminate|]. intros [_ [Hd _]%Forall_cons].
        specialize (Hd Hu). congruence.
    + rewrite IH. split.
      * intros [-> H]. split; [reflexivity|].
        apply Forall_cons. split; [intros Hu'; congruence | exact H].
      * intros [-> [_ H]%Forall_cons]. split; [reflexivity | exact H].
Qed.

(** X1.  The discovery loop returns the channel address of a listed
    page exactly when that page is usable (a page with a non-empty
    channel address), passes the reuse policy, and every usable page
    listed before it was turned down by the policy: the first match
    wins. *)
Theorem scan_reuses_first_match (c : client) (targets : list target_entry)
    (ws : string) :
  scan c targets None = Ok (inl ws) <->
  exists pre entry post,
    targets = pre ++ entry :: post
    /\ Forall (turned_down c) pre
    /\ usable_page entry = true
    /\ can_reuse c (default "" (t_url entry)) = Ok true
    /\ t_webSocketDebuggerUrl entry = Some ws.
Proof. apply scan_inl. Qed.

(** X2.  The discovery loop falls through to target creation exactly
    when the policy turns down every usable page of the list, and the
    fallback entry it keeps is then the first usable page of the list,
    if there is one. *)
Theorem scan_keeps_first_usable (c : client) (targets : list target_entry)
    (fb : option target_entry) :
  scan c targets None = Ok (inr fb) <->
  fb = List.find usable_page targets /\ Forall (turned_down c) targets.
Proof. apply scan_inr. Qed.

Lemma hostname_raises (url : string) (e : exn) :
  Url.hostname check_bracketed_host url = Raise e -> exists msg, e = ValueError msg.
Proof.
  unfold Url.hostname.
  destruct (Url.check_netloc check_bracketed_host (Url.netloc url)) as [[]|e0] eqn:Hc;
    simpl.
  - by destruct (Str.is_empty _).
  - intros [= <-]. unfold Url.check_netloc in Hc.
    repeat case_match; simplify_eq; eauto.
Qed.

Lemma scan_raise (c : client) (targets : list target_entry)
    (fb : option target_entry) (e : exn) :
  scan c targets fb = Raise e <->
  exists pre entry post,
    targets = pre ++ entry :: post
    /\ Forall (turned_down c) pre
    /\ usable_page entry = true
    /\ can_reuse c (default "" (t_url entry)) = Raise e.
Proof.
  revert fb. induction targets as [|e0 targets IH]; intros fb; simpl.
  - split; [discriminate|]. intros (pre & entry & post & H & _).
    destruct pre; discriminate.
  - destruct (usable_page e0) eqn:Hu; simpl.
    + destruct (can_reuse c (default "" (t_url e0))) as [[|]|err] eqn:Hr; simpl.
      * split; [discriminate|].
        intros (pre & entry & post & H & Hpre & Hue & Hre).
        destruct pre as [|e' pre]; simpl in H.
        -- injection H as <- <-. congruence.
        -- injection H as <- ->. apply Forall_cons in Hpre as [Hd _].
           specialize (Hd Hu). congruence.
      * rewrite IH. split.
        -- intros (pre & entry & post & -> & Hpre & Hrest).
           exists (e0 :: pre), entry, post. split; [reflexivity|].
           split; [|exact Hrest]. apply Forall_cons. split; [|exact Hpre].
           intros _. exact Hr.
        -- intros (pre & entry & post & H & Hpre & Hue & Hre).
           destruct pre as [|e' pre]; simpl in H.
           ++ injection H as <- <-. congruence.
           ++ injection H as <- ->. apply Forall_cons in Hpre as [_ Hpre].
              exists pre, entry, post. auto.
      * split.
        -- intros [= <-]. exists [], e0, targets. repeat split; auto.
        -- intros (pre & entry & post & H & Hpre & Hue & Hre).
           destruct pre as [|e' pre]; simpl in H.
           ++ injection H as <- <-. congruence.
           ++ injection H as <- ->. apply Forall_cons in Hpre as [Hd _].
              specialize (Hd Hu). congruence.
    + rewrite IH. split.
      * intros (pre & entry & post & -> & Hpre & Hrest).
        exists (e0 :: pre), entry, post. split; [reflexivity|].
        split; [|exact Hrest]. apply Forall_cons. split; [|exact Hpre].
        intros Hu'. congruence.
      * intros (pre & entry & post & H & Hpre & Hue & Hre).
        destruct pre as [|e' pre]; simpl in H.
        -- injection H as <- <-. congruence.
        -- injection H as <- ->. apply Forall_cons in Hpre as [_ Hpre].
           exists pre, entry, post. auto.
Qed.

(** X3.  Target resolution fails on a listed page whose address the
    URL parser rejects: when the first usable page that the policy does
    not turn down has such an address, the parser's [ValueError] leaves
    [_create_target] after the single list request: no creation request
    is sent and no later page of the list is looked at. *)
Theorem unparsable_listed_page_aborts (c : client) (env : http_env)
    (listed : http_response) (pre post : list target_entry)
    (entry : target_entry) (e : exn) :
  http_get env (list_url c) = Ok listed ->
  raise_for_status listed = Ok tt ->
  body listed = BodyTargets (pre ++ entry :: post) ->
  Forall (turned_down c) pre ->
  usable_page entry = true ->
  can_reuse c (default "" (t_url entry)) = Raise e ->
  create_target c env = (Raise e, [HttpGet (list_url c)])
  /\ exists msg, e = ValueError msg.
Proof.
  intros Hl Hs Hb Hpre Hu Hr. split.
  - unfold _create_target. rewrite Hl, Hs, Hb.
    assert (Hscan : scan c (pre ++ entry :: post) None = Raise e).
    { apply scan_raise. exists pre, entry, post. auto. }
    by rewrite Hscan.
  - unfold _can_reuse_target in Hr.
    destruct (Str.is_empty _); [discriminate|].
    destruct (Str.startswith _ _); [discriminate|].
    destruct (_allowed_host c) as [allowed|]; [|discriminate].
    destruct (Str.is_empty allowed); [discriminate|].
    unfold target_host, urlparse_hostname in Hr.
    destruct (Url.hostname _ _) as [h|e0] eqn:Hh; simpl in Hr.
    + destruct (Str.is_empty _); [discriminate|].
      by destruct (String.eqb _ _).
    + injection Hr as <-. by apply hostname_raises in Hh.
Qed.

Lemma try_create_requests (c : client) (env : http_env) :
  (snd (try_create quote c env) = [HttpGet (new_get_url quote c)]
   /\ forall resp, http_get env (new_get_url quote c) = Ok resp ->
                   status_code resp <> 405)
  \/ (snd (try_create quote c env)
      = [HttpGet (new_get_url quote c);
         HttpPost (new_post_url c) (new_post_body c)]
      /\ exists resp, http_get env (new_get_url quote c) = Ok resp
                      /\ status_code resp = 405).
Proof.
  unfold try_create.
  destruct (http_get env (new_get_url quote c)) as [resp|e] eqn:Hg.
  - destruct (status_code resp =? 405)%Z eqn:Hs.
    + right. apply Z.eqb_eq in Hs.
      destruct (http_post env _ _); simpl; eauto.
    + left. apply Z.eqb_neq in Hs. simpl. split; [reflexivity|].
      now intros resp' [= <-].
  - left. simpl. split; [reflexivity | discriminate].
Qed.

(** X4.  [_create_target] sends at most three HTTP requests, always in
    the order list, create by GET, create by POST.  A creation request
    is sent only after the list was fetched with a success status and
    the policy turned down every usable page in it; the POST is sent
    only after the GET for creation was answered with status 405. *)
Theorem create_target_requests (c : client) (env : http_env) :
  let effs := snd (create_target c env) in
  let listing := HttpGet (list_url c) in
  let by_get := HttpGet (new_get_url quote c) in
  let by_post := HttpPost (new_post_url c) (new_post_body c) in
  (effs = [listing] \/ effs = [listing; by_get]
   \/ effs = [listing; by_get; by_post])
  /\ (effs <> [listing] ->
      exists resp targets,
        http_get env (list_url c) = Ok resp
        /\ raise_for_status resp = Ok tt
        /\ body resp = BodyTargets targets
        /\ Forall (turned_down c) targets)
  /\ (by_post ∈ effs ->
      exists resp, http_get env (new_get_url quote c) = Ok resp
                   /\ status_code resp = 405).
Proof.
  cbv zeta. unfold _create_target.
  destruct (http_get env (list_url c)) as [resp|e] eqn:Hl.
  2:{ simpl. split; [auto|]. split; [congruence|].
      intros H. apply list_elem_of_singleton in H. discriminate. }
  destruct (raise_for_status resp) as [[]|e] eqn:Hs.
  2:{ simpl. split; [auto|]. split; [congruence|].
      intros H. apply list_elem_of_singleton in H. discriminate. }
  destruct (body resp) as [targets| |] eqn:Hb.
  2,3: simpl; (split; [auto|]); (split; [congruence|]);
       intros H; apply list_elem_of_singleton in H; discriminate.
  destruct (scan c targets None) as [[ws|fb]|e] eqn:Hscan.
  1,3: simpl; (split; [auto|]); (split; [congruence|]);
       intros H; apply list_elem_of_singleton in H; discriminate.
  apply scan_inr in Hscan as [_ Hall].
  pose proof (try_create_requests c env) as Htc.
  destruct (try_create quote c env) as [r tr]. simpl in *.
  destruct Htc as [[-> Hno]|[-> Hyes]].
  - split; [right; left; reflexivity|].
    split; [intros _; exists resp, targets; auto|].
    intros H. exfalso.
    apply elem_of_cons in H as [H|H]; [discriminate|].
    apply list_elem_of_singleton in H. discriminate.
  - split; [right; right; reflexivity|].
    split; [intros _; exists resp, targets; auto|]. intros _. exact Hyes.
Qed.

(** X5.  When the list is fetched, no listed page passes the policy and
    both ways of creating a target are answered with status 405,
    [_create_target] adopts the first usable page of the list, under
    that page's own id (or under the tag ["existing"] when the page
    has no id), and raises a [RuntimeError] when the list has no usable
    page. *)
Theorem create_target_when_blocked (c : client) (env : http_env)
    (listed by_get by_post : http_response) (targets : list target_entry) :
  http_get env (list_url c) = Ok listed ->
  raise_for_status listed = Ok tt ->
  body listed = BodyTargets targets ->
  Forall (turned_down c) targets ->
  http_get env (new_get_url quote c) = Ok by_get -> status_code by_get = 405 ->
  http_post env (new_post_url c) (new_post_body c) = Ok by_post ->
  status_code by_post = 405 ->
  fst (create_target c env)
  = match List.find usable_page targets with
    | Some entry =>
        Ok (default "" (t_webSocketDebuggerUrl entry),
            default "existing" (t_id entry))
    | None => Raise (RuntimeErrorMsg blocked_message)
    end.
Proof.
  intros Hl Hs Hb Hall Hg Hg405 Hp Hp405.
  unfold _create_target. rewrite Hl, Hs, Hb.
  assert (Hscan : scan c targets None = Ok (inr (List.find usable_page targets)))
    by (apply scan_inr; auto).
  rewrite Hscan. unfold try_create. rewrite Hg, Hg405. simpl.
  rewrite Hp. unfold raise_for_status. rewrite Hp405. simpl.
  destruct (List.find usable_page targets); reflexivity.
Qed.

End Resolution.

Lemma create_target_when_blocked_witness :
  fst (_create_target Scenario.chk Scenario.quote Scenario.c0 anonymous_env)
  = Ok ("ws://127.0.0.1:9222/devtools/page/T2", "existing").
Proof.
  apply (create_target_when_blocked Scenario.chk Scenario.quote Scenario.c0
           anonymous_env
           {| status_code := 200; body := BodyTargets [anonymous_page] |}
           {| status_code := 405; body := BodyOther |}
           {| status_code := 405; body := BodyOther |}
           [anonymous_page]).
  - reflexivity.
  - reflexivity.
  - reflexivity.
  - constructor; [|constructor]. intros _. vm_compute. reflexivity.
  - reflexivity.
  - reflexivity.
  - reflexivity.
  - reflexivity.
Defined.

(** ** The allowed host *)

Lemma lower_char_idem (c : ascii) :
  Str.lower_char (Str.lower_char c) = Str.lower_char c.
Proof. destruct c as [[] [] [] [] [] [] [] []]; reflexivity. Qed.

Lemma lower_idem (s : string) : Str.lower (Str.lower s) = Str.lower s.
Proof. induction s as [|c s IH]; simpl; [reflexivity|]. by rewrite lower_char_idem, IH. Qed.

Lemma lower_is_empty (s : string) : Str.is_empty (Str.lower s) = Str.is_empty s.
Proof. by destruct s. Qed.

(** X6.  The allowed host a client derives from its initial URL is
    never empty and is in lower case; it is the host the reuse policy
    computes for that same URL, so a page showing the client's initial
    URL always passes the policy. *)
Theorem allowed_host_is_normalised (chk : string -> bool) (remote : string)
    (base : option string) (initial : string) (c : client) (h : string) :
  init chk remote base initial = Ok c ->
  _allowed_host c = Some h ->
  h <> "" /\ Str.lower h = h
  /\ target_host chk initial = Ok h
  /\ _can_reuse_target chk c initial = Ok true.
Proof.
  unfold init, _derive_host.
  destruct (Str.is_empty initial) eqn:He; simpl.
  { intros [= <-]. discriminate. }
  destruct (Str.startswith initial "about:") eqn:Ha; simpl.
  { intros [= <-]. discriminate. }
  unfold urlparse_hostname.
  destruct (Url.hostname chk initial) as [[h0|]|e] eqn:Hh; simpl;
    [|intros [= <-]; discriminate|discriminate].
  destruct (Str.is_empty h0) eqn:He0; simpl; intros [= <-]; [discriminate|].
  simpl. intros [= <-].
  assert (Hne : Str.lower h0 <> "").
  { apply is_empty_false. by rewrite lower_is_empty. }
  assert (Hth : target_host chk initial = Ok (Str.lower h0)).
  { unfold target_host, urlparse_hostname. by rewrite Hh. }
  split; [exact Hne|]. split; [apply lower_idem|]. split; [exact Hth|].
  unfold _can_reuse_target. rewrite He. simpl.
  destruct (Str.startswith initial "about:blank"); [reflexivity|].
  rewrite lower_is_empty, He0, Hth. simpl.
  rewrite lower_is_empty, He0. by rewrite String.eqb_refl.
Qed.

Lemma allowed_host_is_normalised_witness :
  exists c,
    init Scenario.chk Scenario.base None "HTTPS://Example.COM/explore" = Ok c
    /\ _allowed_host c = Some "example.com"
    /\ _can_reuse_target Scenario.chk c "HTTPS://Example.COM/explore" = Ok true.
Proof.
  destruct (init Scenario.chk Scenario.base None "HTTPS://Example.COM/explore")
    as [c|e] eqn:Hc; [|vm_compute in Hc; discriminate].
  exists c. split; [reflexivity|].
  assert (Hh : _allowed_host c = Some "example.com").
  { vm_compute in Hc. injection Hc as <-. reflexivity. }
  split; [exact Hh|].
  apply (allowed_host_is_normalised Scenario.chk Scenario.base None
           "HTTPS://Example.COM/explore" c "example.com" Hc Hh).
Defined.

(** ** The channel, the pending table and the lock *)

Section Channel.

Variable check_bracketed_host : string -> bool.
Variable quote : string -> string.
Variable ws_exposes_closed : bool.

Local Abbreviation step := (step check_bracketed_host quote ws_exposes_closed).
Local Abbreviation exec := (exec check_bracketed_host quote ws_exposes_closed).
Local Abbreviation reachable := (reachable check_bracketed_host quote ws_exposes_closed).
Local Abbreviation connected := (connected ws_exposes_closed).
Local Abbreviation ensure_connection :=
  (_ensure_connection_locked check_bracketed_host quote ws_exposes_closed).
Local Abbreviation acquire := (acquire check_bracketed_host quote ws_exposes_closed).

(** *** Event handlers *)

Lemma issue_handlers t m p next w :
  _event_handlers (cl (issue t m p next w)) = _event_handlers (cl w).
Proof.
  unfold issue. destruct (_send_locked _ _ _ _) as [[fut|e] w1] eqn:Hsl;
    apply send_locked_frame in Hsl as (_ & _ & _ & _ & _ & H); exact H.
Qed.

Lemma step_handlers l w w' :
  step l w = Some w' ->
  _event_handlers (cl w')
  = match l with
    | On ev handler =>
        <[ev := default [] (_event_handlers (cl w) !! ev) ++ [handler]]>
          (_event_handlers (cl w))
    | _ => _event_handlers (cl w)
    end.
Proof.
  destruct l; cbn [Scheduler.step].
  - destruct (tasks w !! t); [discriminate|]. by intros [= <-].
  - destruct (lock w); [discriminate|].
    destruct (tasks w !! t) as [tk|]; [|discriminate].
    destruct (t_pc tk); try discriminate. intros [= <-].
    unfold Scheduler.acquire, _ensure_connection_locked.
    destruct (Scheduler.connected _ _); [by rewrite issue_handlers|].
    destruct (_create_target _ _ _ _) as [[[ws tid]|e] effs]; [|reflexivity].
    destruct connect_ok; [|reflexivity].
    match goal with |- context [_send_locked ?a ?m ?p ?w0] =>
      destruct (_send_locked a m p w0) as [[fut|e] w4] eqn:Hsl end;
      apply send_locked_frame in Hsl as (_ & _ & _ & _ & _ & H); exact H.
  - destruct (tasks w !! t) as [tk|]; [|discriminate]. unfold resume.
    destruct (t_pc tk) as [|k fut|fut|r]; try discriminate.
    + destruct (futures w !! fut ≫= await_result) as [[v|e]|]; try discriminate;
        intros [= <-]; [|reflexivity].
      destruct k as [|[|k]]; by rewrite issue_handlers.
    + destruct (futures w !! fut ≫= await_result) as [r|]; try discriminate.
      by intros [= <-].
  - case_decide; [|discriminate]. intros [= <-].
    unfold _read_loop_body. by repeat case_match.
  - case_decide; [|discriminate]. by intros [= <-].
  - by intros [= <-].
  - intros [= <-]. unfold close_client. destruct (close (cl w)) as [c' effs] eqn:Hc.
    unfold close in Hc. injection Hc as <- <-. by destruct (session (cl w)).
  - by intros [= <-].
Qed.

Lemma exec_handlers ev ls w w' :
  exec ls w = Some w' ->
  default [] (_event_handlers (cl w') !! ev)
  = default [] (_event_handlers (cl w) !! ev) ++ handlers_registered ev ls.
Proof.
  revert w. induction ls as [|l ls IH]; intros w; cbn [Scheduler.exec].
  - intros [= <-]. unfold handlers_registered. simpl. by rewrite app_nil_r.
  - destruct (step l w) as [w1|] eqn:Hs; [|discriminate]. intros Hex.
    rewrite (IH _ Hex). apply step_handlers in Hs. rewrite Hs.
    unfold handlers_registered. cbn [omap list_omap].
    destruct l; simpl; try reflexivity.
    destruct (String.eqb_spec ev0 ev) as [->|Hne].
    + rewrite lookup_insert_eq. simpl. by rewrite <- app_assoc.
    + by rewrite lookup_insert_ne.
Qed.


(** *** Ids and futures over a run *)

Lemma step_settled_id l w w' (n : Z) :
  step l w = Some w' ->
  (n <= _msg_id (cl w))%Z -> _pending_requests (cl w) !! n = None ->
  (n <= _msg_id (cl w'))%Z /\ _pending_requests (cl w') !! n = None.
Proof.
  intros Hs Hn Hp. destruct (is_send_path l) eqn:Hsp.
  - apply send_path_view in Hs; [|exact Hsp]. unfold registers, view in Hs.
    destruct Hs as [[= -> -> _ _]|[= -> -> _ _]]; [done|].
    split; [lia|]. rewrite lookup_insert_ne by lia. exact Hp.
  - apply other_step_view in Hs as (-> & _ & _ & Hsub & _); [|exact Hsp].
    split; [exact Hn|]. eapply lookup_weaken_None; eauto.
Qed.

(** X8.  An id that has been issued and is no longer in the pending
    table is never in the table again, whatever the client does next:
    ids are not reused, so a late or repeated reply to a settled
    command finds no slot. *)
Theorem settled_id_is_never_pending_again (ls : list label) (w w' : world)
    (n : Z) :
  exec ls w = Some w' ->
  (n <= _msg_id (cl w))%Z ->
  _pending_requests (cl w) !! n = None ->
  _pending_requests (cl w') !! n = None
  /\ forall conn d, dict_get "id" d = Some (JInt n) ->
       view (_read_loop_body conn (JObj d) w') = view w'.
Proof.
  intros Hex Hn Hp.
  assert (H : (n <= _msg_id (cl w'))%Z /\ _pending_requests (cl w') !! n = None).
  { revert Hex. revert Hn Hp.
    generalize dependent w. induction ls as [|l ls IH]; intros w; cbn [Scheduler.exec].
    - intros Hn Hp [= <-]. auto.
    - destruct (step l w) as [w1|] eqn:Hs; [|discriminate]. intros Hn Hp Hex.
      destruct (step_settled_id _ _ _ _ Hs Hn Hp) as [Hn1 Hp1]. eauto. }
  destruct H as [_ H]. split; [exact H|].
  intros conn d Hid. unfold _read_loop_body. rewrite Hid. simpl. by rewrite H.
Qed.

Lemma step_future_final l w w' (fut : nat) (s : fut_state) :
  step l w = Some w' ->
  futures w !! fut = Some s -> s <> FPending -> futures w' !! fut = Some s.
Proof.
  intros Hs Hf Hd. destruct (is_send_path l) eqn:Hsp.
  - apply send_path_view in Hs; [|exact Hsp]. unfold registers, view in Hs.
    destruct Hs as [[= _ _ _ ->]|[= _ _ _ ->]]; [done|].
    by apply lookup_app_l_Some.
  - destruct l; try discriminate; cbn [Scheduler.step] in Hs.
    + destruct (tasks w !! t); [discriminate|]. by injection Hs as <-.
    + case_decide; [|discriminate]. injection Hs as <-.
      destruct (read_loop_body_cases conn data w) as [[_ ->]|(d & n & f & _ & _ & _ & ->)];
        [done|]. by eapply resolve_lookup_done.
    + case_decide; [|discriminate]. injection Hs as <-. simpl.
      by eapply cancel_all_done.
    + by injection Hs as <-.
    + injection Hs as <-. unfold close_client.
      destruct (close (cl w)) as [c' effs]. by destruct (session (cl w)).
    + by injection Hs as <-.
Qed.

(** X9.  The outcome of a future is final: once a command's future
    holds a result, an exception or a cancellation, no later step of
    any task, of the receive loop or of [close] changes it. *)
Theorem future_outcome_is_final (ls : list label) (w w' : world) (fut : nat)
    (s : fut_state) :
  exec ls w = Some w' ->
  futures w !! fut = Some s -> fut_done s = true ->
  futures w' !! fut = Some s.
Proof.
  intros Hex Hf Hd.
  assert (Hs : s <> FPending) by (intros ->; discriminate).
  revert Hex Hf. generalize dependent w.
  induction ls as [|l ls IH]; intros w; cbn [Scheduler.exec].
  - by intros [= <-].
  - destruct (step l w) as [w1|] eqn:Hst; [|discriminate]. intros Hex Hf.
    eapply IH; [exact Hex|]. eapply step_future_final; eauto.
Qed.

(** The counter numbers the commands: what holds of ids, futures and
    the table in every reachable state. *)
Lemma numbering_reachable w :
  reachable w ->
  (0 <= _msg_id (cl w))%Z
  /\ registered_ids w = map Z.of_nat (seq 1 (Z.to_nat (_msg_id (cl w))))
  /\ length (futures w) = Z.to_nat (_msg_id (cl w))
  /\ forall n fut, _pending_requests (cl w) !! n = Some fut ->
                   (Z.of_nat fut + 1 = n)%Z.
Proof.
  revert w. apply reachable_invariant.
  - intros c (_ & Hm & Hp). simpl. rewrite Hm, Hp. simpl.
    split; [done|]. split; [done|]. split; [done|].
    intros n fut H. by rewrite lookup_empty in H.
  - intros l w0 w' (H0 & Hids & Hlen & Htab) Hs.
    destruct (is_send_path l) eqn:Hsp.
    + apply send_path_view in Hs; [|exact Hsp]. unfold registers, view in Hs.
      destruct Hs as [[= -> -> -> ->]|[= -> -> -> ->]]; [done|].
      split; [lia|]. split; [|split].
      * replace (Z.to_nat (_msg_id (cl w0) + 1)) with (S (Z.to_nat (_msg_id (cl w0))))
          by lia.
        rewrite seq_S, map_app, <- Hids. simpl. do 2 f_equal. lia.
      * rewrite length_app. simpl. lia.
      * intros n fut Hl. destruct (decide (n = (_msg_id (cl w0) + 1)%Z)) as [->|Hne].
        -- rewrite lookup_insert_eq in Hl. injection Hl as <-. lia.
        -- rewrite lookup_insert_ne in Hl by done. eauto.
    + apply other_step_view in Hs as (-> & -> & -> & Hsub & _); [|exact Hsp].
      repeat split; try done. intros n fut Hl. eapply Htab, lookup_weaken; eauto.
Qed.

(** X10.  The ids of a client are consecutive: in every reachable state
    the ids registered so far are exactly 1, 2, ..., [_msg_id], in
    this order, the k-th command owns the k-th future, and the slot of
    a pending id holds that command's own future. *)
Theorem ids_are_consecutive (w : world) :
  reachable w ->
  (0 <= _msg_id (cl w))%Z
  /\ registered_ids w = map Z.of_nat (seq 1 (Z.to_nat (_msg_id (cl w))))
  /\ length (futures w) = Z.to_nat (_msg_id (cl w))
  /\ forall n fut, _pending_requests (cl w) !! n = Some fut ->
                   (Z.of_nat fut + 1 = n)%Z /\ (1 <= n <= _msg_id (cl w))%Z.
Proof.
  intros Hr. destruct (numbering_reachable w Hr) as (H0 & Hids & Hlen & Htab).
  repeat split; try done.
  - by apply Htab.
  - apply Htab in H. lia.
  - apply (ids_inv_reachable _ _ _ w Hr) in H. exact H.
Qed.

(** *** The lock *)

Lemma in_flight_frame (w w' : world) (t : nat) :
  tasks w' = tasks w -> in_flight w t -> in_flight w' t.
Proof. intros Ht (fut & tk & Htk & Hpc). exists fut, tk. by rewrite Ht. Qed.

Lemma moves_holder t p lk w w' tk t' :
  moves t p lk w w' -> tasks w !! t = Some tk -> lk = Some t ->
  lock w' = Some t' -> t' = t /\ in_flight w' t.
Proof.
  intros (Ht & Hl & Hp) Htk -> Hl'. rewrite Hl in Hl'.
  assert (Htk' : tasks w' !! t = Some (Task (t_method tk) (t_params tk) p)).
  { by rewrite Ht, lookup_alter_eq, Htk. }
  destruct p as [|k fut|fut|r]; try done; injection Hl' as <-; (split; [done|]).
  - exists fut. eexists. split; [exact Htk'|]. right. by exists k.
  - exists fut. eexists. split; [exact Htk'|]. by left.
Qed.

Lemma held_step l w w' :
  lock_inv w -> (forall t, lock w = Some t -> in_flight w t) ->
  step l w = Some w' -> forall t, lock w' = Some t -> in_flight w' t.
Proof.
  intros Hinv Hheld Hs t' Hl'. destruct (is_send_path l) eqn:Hsp.
  - destruct l; try discriminate; cbn [Scheduler.step] in Hs.
    + destruct (lock w) eqn:Hlk; [discriminate|].
      destruct (tasks w !! t) as [tk|] eqn:Htk; [|discriminate].
      destruct (t_pc tk) eqn:Hpc; try discriminate. injection Hs as <-.
      destruct (acquire_moves check_bracketed_host quote ws_exposes_closed
                  t tk env connect_ok w) as (p & Hm).
      destruct (moves_holder _ _ _ _ _ _ _ Hm Htk eq_refl Hl') as [-> H]. exact H.
    + destruct (tasks w !! t) as [tk|] eqn:Htk; [|discriminate].
      destruct (resume_awaits _ _ _ _ Htk Hs) as [fut Ha].
      apply Hinv in Ha. destruct (resume_moves _ _ _ _ Hs) as (p & Hm).
      destruct (moves_holder _ _ _ _ _ _ _ Hm Htk Ha Hl') as [-> H]. exact H.
  - destruct l; try discriminate.
    1:{ cbn [Scheduler.step] in Hs. destruct (tasks w !! t) eqn:Htk; [discriminate|].
        injection Hs as <-. simpl in Hl'.
        destruct (Hheld _ Hl') as (fut & tk & Htk' & Hpc).
        exists fut, tk. split; [|exact Hpc]. simpl.
        rewrite lookup_insert_ne; [exact Htk'|]. intros ->. congruence. }
    all: apply step_other_frame in Hs as [Ht Hl]; [|done|done];
      rewrite Hl in Hl'; eapply in_flight_frame; eauto.
Qed.


(** *** Closing and reconnecting *)


(** X13.  On an open channel [send] goes straight to the wire: the
    task that obtains the lock registers the next id and transmits its
    own command on the existing connection, and does nothing else; no
    HTTP request is made, no channel is opened and no enabling command
    is repeated, whatever the browser's HTTP endpoint would answer. *)
Theorem send_on_open_channel (w : world) (t : nat) (tk : task)
    (env : http_env) (ok : bool) :
  tasks w !! t = Some tk -> t_pc tk = WaitLock -> lock w = None ->
  connected w = true ->
  exists conn w',
    session (cl w) = Some conn
    /\ step (Acquire t env ok) w = Some w'
    /\ trace w'
       = trace w ++
         [(Caller t, Register (_msg_id (cl w) + 1)%Z (length (futures w)));
          (Caller t, Eff (WsSend conn (payload_of (_msg_id (cl w) + 1)%Z
                                         (t_method tk) (t_params tk))))]
    /\ pc_of w' t = Some (AwaitReply (length (futures w)))
    /\ lock w' = Some t
    /\ session (cl w') = Some conn
    /\ conns w' = conns w.
Proof.
  intros Htk Hpc Hl Hc.
  assert (Hc' := Hc). unfold Scheduler.connected in Hc'.
  destruct (session (cl w)) as [conn|] eqn:Hs; [|discriminate].
  apply andb_true_iff in Hc' as [_ Hcl]. apply negb_true_iff in Hcl.
  exists conn. eexists. split; [reflexivity|].
  cbn [Scheduler.step]. rewrite Hl, Htk, Hpc. split; [reflexivity|].
  unfold Scheduler.acquire, _ensure_connection_locked.
  assert (Hc2 : connected (with_lock (Some t) w) = true) by exact Hc.
  rewrite Hc2. unfold issue, _send_locked. cbn [cl with_lock]. rewrite Hs.
  assert (Hcl2 : conn_closed (with_lock (Some t) w) conn = false) by exact Hcl.
  rewrite Hcl2. unfold record, pc_of, set_pc. simpl.
  rewrite <- app_assoc, lookup_alter_eq, Htk, Hs. auto.
Qed.

Lemma issue_channel t m p next w :
  session (cl (issue t m p next w)) = session (cl w)
  /\ conns (issue t m p next w) = conns w.
Proof.
  unfold issue. destruct (_send_locked _ _ _ _) as [[fut|e] w1] eqn:Hsl;
    apply send_locked_frame in Hsl as (_ & _ & _ & Hc & Hs & _); auto.
Qed.

Lemma session_inv_step l w w' :
  session_inv w -> step l w = Some w' -> session_inv w'.
Proof.
  intros Hinv. destruct l; cbn [Scheduler.step].
  - destruct (tasks w !! t); [discriminate|]. by intros [= <-].
  - destruct (lock w); [discriminate|].
    destruct (tasks w !! t) as [tk|]; [|discriminate].
    destruct (t_pc tk); try discriminate. intros [= <-].
    unfold Scheduler.acquire, _ensure_connection_locked.
    destruct (Scheduler.connected _ _).
    { intros conn. destruct (issue_channel t (t_method tk) (t_params tk) AwaitReply
                               (with_lock (Some t) w)) as [-> ->]. apply Hinv. }
    destruct (_create_target _ _ _ _) as [[[ws tid]|e] effs]; [|exact Hinv].
    destruct connect_ok; [|exact Hinv].
    match goal with |- context [_send_locked ?a ?m ?p ?w0] =>
      destruct (_send_locked a m p w0) as [[fut|e] w4] eqn:Hsl end;
      apply send_locked_frame in Hsl as (_ & _ & _ & Hc & Hs & _);
      intros conn; unfold session_inv; simpl; rewrite Hc, Hs; simpl;
      intros [= <-]; rewrite length_app; simpl; lia.
  - destruct (tasks w !! t) as [tk|]; [|discriminate]. unfold resume.
    destruct (t_pc tk) as [|k fut|fut|r]; try discriminate.
    + destruct (futures w !! fut ≫= await_result) as [[v|e]|]; try discriminate;
        intros [= <-]; [|exact Hinv].
      intros conn.
      destruct k as [|[|k]];
        match goal with |- context [issue ?t ?m ?p ?n ?w0] =>
          destruct (issue_channel t m p n w0) as [-> ->] end; apply Hinv.
    + destruct (futures w !! fut ≫= await_result) as [r|]; try discriminate.
      by intros [= <-].
  - case_decide; [|discriminate]. intros [= <-].
    unfold _read_loop_body. by repeat case_match.
  - case_decide; [|discriminate]. intros [= <-] c Hc. simpl in *.
    rewrite length_insert. by apply Hinv.
  - intros [= <-] c Hc. simpl in *. rewrite length_insert. by apply Hinv.
  - intros [= <-]. unfold close_client. destruct (close (cl w)) as [c' effs] eqn:Hc.
    unfold close in Hc. injection Hc as <- <-. intros c. simpl. discriminate.
  - by intros [= <-].
Qed.

Lemma session_inv_reachable w : reachable w -> session_inv w.
Proof.
  revert w. apply reachable_invariant.
  - intros c (Hs & _) conn. simpl. by rewrite Hs.
  - apply session_inv_step.
Qed.

Lemma disconnected_step l w w' :
  is_acquire l = false -> step l w = Some w' ->
  connected w = false -> connected w' = false.
Proof.
  intros Hl Hs Hc.
  assert (Hkeep : forall w1, session (cl w1) = session (cl w) ->
                             conns w1 = conns w -> connected w1 = false).
  { intros w1 H1 H2. unfold Scheduler.connected, conn_closed in *. by rewrite H1, H2. }
  assert (Hmark : forall w1 c, session (cl w1) = session (cl w) ->
                               conns w1 = <[c := true]> (conns w) ->
                               connected w1 = false).
  { intros w1 c H1 H2. unfold Scheduler.connected, conn_closed in *. rewrite H1, H2.
    destruct (session (cl w)) as [conn|]; [|done].
    destruct ws_exposes_closed; [|done]. simpl in *.
    destruct (decide (c = conn)) as [->|Hne].
    - destruct (conns w !! conn) as [b|] eqn:Hb.
      + rewrite list_lookup_insert_eq by by eapply lookup_lt_Some. done.
      + rewrite list_insert_ge by by apply lookup_ge_None. by rewrite Hb.
    - by rewrite list_lookup_insert_ne. }
  destruct l; try discriminate; cbn [Scheduler.step] in Hs.
  - destruct (tasks w !! t); [discriminate|]. injection Hs as <-. by apply Hkeep.
  - destruct (tasks w !! t) as [tk|]; [|discriminate]. unfold resume in Hs.
    destruct (t_pc tk) as [|k fut|fut|r]; try discriminate.
    + destruct (futures w !! fut ≫= await_result) as [[v|e]|]; try discriminate;
        injection Hs as <-; [|by apply Hkeep].
      destruct k as [|[|k]];
        match goal with |- context [issue ?t ?m ?p ?n ?w0] =>
          destruct (issue_channel t m p n w0) as [H1 H2] end; by apply Hkeep.
    + destruct (futures w !! fut ≫= await_result) as [r|]; try discriminate.
      injection Hs as <-. by apply Hkeep.
  - case_decide; [|discriminate]. injection Hs as <-.
    apply Hkeep; unfold _read_loop_body; by repeat case_match.
  - case_decide; [|discriminate]. injection Hs as <-. by apply (Hmark _ conn).
  - injection Hs as <-. by apply (Hmark _ conn).
  - injection Hs as <-. unfold close_client.
    destruct (close (cl w)) as [c' effs] eqn:Hcl.
    unfold close in Hcl. injection Hcl as <- <-.
    unfold Scheduler.connected. by destruct (session (cl w)).
  - injection Hs as <-. by apply Hkeep.
Qed.


End Channel.

(** ** Waiting for the page and taking a screenshot *)

Section Readiness.

Import Facade Probe.

Variable sends : nat -> res json.

Lemma is_complete_true (v : json) : is_complete v = true <-> v = JStr "complete".
Proof.
  split; [|by intros ->]. destruct v; try discriminate. simpl.
  by intros ->%String.eqb_eq.
Qed.

Lemma poll_ready_spec (deadline : Q) (clock : list Q) (k : nat) :
  (exists now, now ∈ clock /\ deadline <= now)%Q ->
  exists j t,
    clock !! j = Some t
    /\ (forall i, (i < j)%nat -> not_ready sends (k + i))
    /\ (forall i t', (i < j)%nat -> clock !! i = Some t' -> t' < deadline)%Q
    /\ ((poll_ready sends deadline k clock = Some (Ok true)
         /\ (t < deadline)%Q
         /\ evaluate (sends (k + j)%nat) = Ok (JStr "complete"))
        \/ (poll_ready sends deadline k clock = Some (Ok false)
            /\ (deadline <= t)%Q)
        \/ (exists e, poll_ready sends deadline k clock = Some (Raise e)
                      /\ (t < deadline)%Q
                      /\ sends (k + j)%nat = Raise e /\ is_Exception e = false)).
Proof.
  revert k. induction clock as [|now clock IH]; intros k (t0 & Hin & Hle).
  { by apply elem_of_nil in Hin. }
  simpl. destruct (Qlt_le_dec now deadline) as [Hlt|Hge].
  2:{ exists 0%nat, now. split; [done|]. split; [lia|]. split; [lia|]. auto. }
  assert (Hrest : exists now', now' ∈ clock /\ (deadline <= now')%Q).
  { apply elem_of_cons in Hin as [->|Hin]; [|eauto]. exfalso.
    apply (Qlt_irrefl now). by eapply Qlt_le_trans. }
  assert (Hgo : not_ready sends k ->
    exists j t,
      (now :: clock) !! j = Some t
      /\ (forall i, (i < j)%nat -> not_ready sends (k + i))
      /\ (forall i t', (i < j)%nat -> (now :: clock) !! i = Some t' -> t' < deadline)%Q
      /\ ((poll_ready sends deadline (S k) clock = Some (Ok true)
           /\ (t < deadline)%Q
           /\ evaluate (sends (k + j)%nat) = Ok (JStr "complete"))
          \/ (poll_ready sends deadline (S k) clock = Some (Ok false)
              /\ (deadline <= t)%Q)
          \/ (exists e, poll_ready sends deadline (S k) clock = Some (Raise e)
                        /\ (t < deadline)%Q
                        /\ sends (k + j)%nat = Raise e /\ is_Exception e = false))).
  { intros Hq. destruct (IH (S k) Hrest) as (j & t & Ht & Hbefore & Hclock & Hend).
    exists (S j), t. split; [exact Ht|]. split; [|split].
    - intros [|i] Hi; [by rewrite Nat.add_0_r|].
      replace (k + S i)%nat with (S k + i)%nat by lia. apply Hbefore. lia.
    - intros [|i] t' Hi; simpl; [by intros [= <-]|]. apply Hclock. lia.
    - replace (k + S j)%nat with (S k + j)%nat by lia. exact Hend. }
  destruct (evaluate (sends k)) as [v|e] eqn:Hev.
  - destruct (is_complete v) eqn:Hc.
    + apply is_complete_true in Hc as ->.
      exists 0%nat, now. split; [done|]. split; [lia|]. split; [lia|].
      left. by rewrite Nat.add_0_r.
    + apply Hgo. unfold not_ready. by rewrite Hev.
  - destruct (is_Exception e) eqn:He.
    + apply Hgo. unfold not_ready. by rewrite Hev.
    + exists 0%nat, now. split; [done|]. split; [lia|]. split; [lia|].
      right. right. exists e. rewrite Nat.add_0_r.
      destruct (evaluate_raises _ _ Hev) as [H|H]; [congruence|auto].
Qed.

(** X15.  [wait_for_ready] always comes to an end once the clock
    reaches the deadline, and it ends at the first attempt that settles
    the wait: it returns [True] when that attempt, made before the
    deadline, read ["complete"]; it returns [False] when the deadline
    had passed; and it raises only an error of [send] that is not an
    [Exception] (a cancellation).  Every earlier attempt was made
    before the deadline and read another state or raised an ordinary
    exception, which the loop swallows. *)
Theorem wait_for_ready_settles (start timeout : Q) (clock : list Q) :
  (exists now, now ∈ clock /\ start + timeout <= now)%Q ->
  exists j t,
    clock !! j = Some t
    /\ (forall i, (i < j)%nat -> not_ready sends i)
    /\ (forall i t', (i < j)%nat -> clock !! i = Some t' -> t' < start + timeout)%Q
    /\ ((wait_for_ready sends start clock timeout = Some (Ok true)
         /\ (t < start + timeout)%Q
         /\ evaluate (sends j) = Ok (JStr "complete"))
        \/ (wait_for_ready sends start clock timeout = Some (Ok false)
            /\ (start + timeout <= t)%Q)
        \/ (exists e, wait_for_ready sends start clock timeout = Some (Raise e)
                      /\ (t < start + timeout)%Q
                      /\ sends j = Raise e /\ is_Exception e = false)).
Proof. intros H. exact (poll_ready_spec (start + timeout) clock 0 H). Qed.

Lemma metrics_clip_raises (r : res json) (e : exn) :
  metrics_clip r = Raise e -> is_Exception e = true \/ r = Raise e.
Proof.
  unfold metrics_clip, content_clip. destruct r as [v|e0]; simpl.
  - destruct v; try (intros [= <-]; by left).
    destruct (default (JObj []) (dict_get "contentSize" l));
      try discriminate; intros [= <-]; by left.
  - intros [= <-]. by right.
Qed.

(** X16.  [capture_screenshot] asks for the screenshot as its last
    command on every path but one, and returns the [data] field of
    that command's reply: a clip given by the caller is used as it is
    and no layout query is made; the layout query is made only for a
    full-page capture without such a clip, at most once and first; when
    that query fails with an ordinary exception or its reply has not
    the expected shape the screenshot is taken without a clip.  The
    one path without a screenshot is a layout query whose [send]
    raised an error that is not an [Exception], which is passed on. *)
Theorem capture_screenshot_requests (full_page : bool) (clip : option json) :
  let r := fst (capture_screenshot sends full_page clip) in
  let cmds := snd (capture_screenshot sends full_page clip) in
  ((exists c, cmds = [capture_command c]
              /\ r = screenshot_data (sends 0%nat)
              /\ c = (if given_clip clip then clip else None)
              /\ (given_clip clip = true \/ full_page = false))
   \/ (exists c, cmds = [layout_command; capture_command c]
                 /\ r = screenshot_data (sends 1%nat)
                 /\ match metrics_clip (sends 0%nat) with
                    | Ok rect => c = Some rect
                    | Raise e => c = None /\ is_Exception e = true
                    end)
   \/ (exists e, cmds = [layout_command] /\ r = Raise e
                 /\ sends 0%nat = Raise e /\ is_Exception e = false))
  /\ (layout_command ∈ cmds -> full_page = true /\ given_clip clip = false).
Proof.
  cbv zeta.
  assert (Hun : given_clip clip = false ->
    let r := fst (capture_unclipped sends full_page) in
    let cmds := snd (capture_unclipped sends full_page) in
    ((exists c, cmds = [capture_command c]
                /\ r = screenshot_data (sends 0%nat)
                /\ c = (if given_clip clip then clip else None)
                /\ (given_clip clip = true \/ full_page = false))
     \/ (exists c, cmds = [layout_command; capture_command c]
                   /\ r = screenshot_data (sends 1%nat)
                   /\ match metrics_clip (sends 0%nat) with
                      | Ok rect => c = Some rect
                      | Raise e => c = None /\ is_Exception e = true
                      end)
     \/ (exists e, cmds = [layout_command] /\ r = Raise e
                   /\ sends 0%nat = Raise e /\ is_Exception e = false))
    /\ (layout_command ∈ cmds -> full_page = true /\ given_clip clip = false)).
  { intros Hg. cbv zeta. unfold capture_unclipped. rewrite Hg.
    destruct full_page.
    - destruct (metrics_clip (sends 0%nat)) as [rect|e] eqn:Hm.
      + simpl. split; [|done]. right. left. exists (Some rect). auto.
      + destruct (is_Exception e) eqn:He; simpl; (split; [|done]).
        * right. left. exists None. auto.
        * right. right. exists e.
          destruct (metrics_clip_raises _ _ Hm) as [H|H]; [congruence|auto].
    - simpl. split.
      + left. exists None. auto.
      + intros H. apply list_elem_of_singleton in H. discriminate. }
  unfold capture_screenshot. destruct clip as [c|]; [|by apply Hun].
  destruct (truthy c) eqn:Ht; [|by apply Hun]. simpl. rewrite Ht. split.
  - left. exists (Some c). auto.
  - intros H. apply list_elem_of_singleton in H. discriminate.
Qed.

End Readiness.

(** ** The path of a drag *)

Section DragPath.

Import Facade.

Lemma eased_between (a b : Q) (n : Z) (i : nat) :
  (0 < n)%Z -> (Z.of_nat i <= n)%Z ->
  ((a <= b -> a <= eased a b n i /\ eased a b n i <= b)
   /\ (b <= a -> b <= eased a b n i /\ eased a b n i <= a))%Q.
Proof.
  intros Hn Hi.
  destruct (frac_bounds n i i Hn (Nat.le_refl i) Hi) as (H0 & _ & H1).
  destruct (smoothstep_range _ H0 H1) as [Hs0 Hs1].
  unfold eased. set (s := smoothstep (inject_Z (Z.of_nat i) / inject_Z n)) in *.
  split; intros Hab.
  - assert (0 <= (b - a) * s)%Q by (apply Qmult_le_0_compat; lra).
    assert (0 <= (b - a) * (1 - s))%Q by (apply Qmult_le_0_compat; lra).
    split; lra.
  - assert (0 <= (a - b) * s)%Q by (apply Qmult_le_0_compat; lra).
    assert (0 <= (a - b) * (1 - s))%Q by (apply Qmult_le_0_compat; lra).
    split; lra.
Qed.

Lemma within_eased (a b r j : Q) (n : Z) (i : nat) :
  (0 < n)%Z -> (Z.of_nat i <= n)%Z -> (- r <= j /\ j <= r)%Q ->
  within a b r (eased a b n i + j).
Proof.
  intros Hn Hi [Hj1 Hj2]. destruct (eased_between a b n i Hn Hi) as [Hab Hba].
  unfold within. destruct (Qlt_le_dec b a) as [Hlt|Hle].
  - destruct Hba as [H1 H2]; [lra|]. split; [right|left]; lra.
  - destruct (Hab Hle) as [H1 H2]. split; [left|right]; lra.
Qed.


End DragPath.

(** ** Stopping the managed browser *)

Section Stopping.

Import Guard Teardown.

Variable cfg : config.
Variable world : env.

Local Abbreviation ensure := (ensure cfg world).
Local Abbreviation lifecycle := (lifecycle cfg world).
Local Abbreviation run_op := (run_op cfg world).
Local Abbreviation run_ops := (run_ops cfg world).
Local Abbreviation new_guard := (new_guard cfg).

(** What [ensure] does to the handle, the mark and the switches. *)
Lemma ensure_owned (fuel : nat) (s s' : state) (r : res bool) :
  ensure fuel s = Some (r, s') ->
  (owned s -> owned s')
  /\ (length (spawned s) <= length (spawned s'))%nat
  /\ manage_process (g s') = manage_process (g s)
  /\ auto_close (g s') = auto_close (g s)
  /\ (manage_process (g s) = false ->
      spawned s' = spawned s /\ g s' = g s /\ reads s' = reads s).
Proof.
  unfold Guard.ensure, _devtools_alive.
  destruct (alive world (probes s)).
  { intros [= <- <-]. unfold owned. cbn. split; [tauto|]. repeat split; auto. }
  cbn [g]. destruct (manage_process (g s)) eqn:Hm; cbn [negb].
  2:{ intros [= <- <-]. unfold owned. cbn. split; [tauto|]. repeat split; auto. }
  unfold _launch. cbn [spawned].
  destruct (spawn_error world (length (spawned s))).
  { intros [= <- <-]. unfold owned. cbn. split; [tauto|].
    repeat split; auto; discriminate. }
  unfold _wait_until_ready, read_clock. cbn [reads].
  match goal with |- context [Guard.wait_loop ?w ?f ?d ?s0] =>
    destruct (Guard.wait_loop w f d s0) as [[r1 s3]|] eqn:Hw end; [|discriminate].
  apply wait_loop_spec in Hw as (_ & Hsp & Hg & _). cbn in Hsp, Hg.
  assert (Hgoal : (owned s -> owned s3)
                  /\ (length (spawned s) <= length (spawned s3))%nat
                  /\ manage_process (g s3) = true
                  /\ auto_close (g s3) = auto_close (g s)
                  /\ (true = false ->
                      spawned s3 = spawned s /\ g s3 = g s /\ reads s3 = reads s)).
  { rewrite Hg, Hsp. cbn. split; [|split; [|split; [|split]]]; try done.
    - intros _. unfold owned. rewrite Hg, Hsp. cbn. split.
      + split; [by eexists | done].
      + intros pid [= <-]. rewrite length_app. simpl. lia.
    - rewrite length_app. lia. }
  destruct r1; intros [= <- <-]; exact Hgoal.
Qed.

Lemma shutdown_owned (graceful forced : exit_wait) (s : state) :
  owned s ->
  owned (with_guard (shutdown graceful forced (g s)).1.2 s)
  /\ Forall (fun a => S (pid_of a) = length (spawned s))
            (shutdown graceful forced (g s)).2.
Proof.
  intros [Hmark Hpid]. unfold shutdown.
  destruct (_proc (g s)) as [pid|] eqn:Hp.
  - specialize (Hpid pid eq_refl).
    assert (Hrel : owned (with_guard (released (g s)) s)).
    { split; cbn; [|discriminate]. split; [discriminate|]. by intros [? ?]. }
    destruct (caught graceful); cbn; (split; [exact Hrel|]);
      repeat (apply Forall_cons; split; [exact Hpid|]); apply Forall_nil_2.
  - cbn. split; [|apply Forall_nil_2]. split; cbn; rewrite Hp; [exact Hmark|].
    discriminate.
Qed.

Lemma escaping_raises (o : exit_wait) (e : exn) :
  escaping o = Raise e -> o = Failed e /\ is_Exception e = false.
Proof.
  destruct o as [| |e0]; try discriminate. cbn.
  destruct (is_Exception e0) eqn:He; [discriminate|]. by intros [= <-].
Qed.

Lemma shutdown_outcome (graceful forced : exit_wait) (gd : guard) :
  _proc (shutdown graceful forced gd).1.2 = None
  /\ forall e, (shutdown graceful forced gd).1.1 = Raise e -> is_Exception e = false.
Proof.
  unfold shutdown. destruct (_proc gd) eqn:Hp.
  - destruct (caught graceful); cbn; (split; [done|]);
      intros e H; by apply escaping_raises in H as [_ H].
  - cbn. split; [done | discriminate].
Qed.

Lemma run_ops_owned (fuel : nat) (os : list op) (s s' : state)
    (acts : list proc_action) :
  run_ops fuel os s = Some (s', acts) ->
  owned s ->
  owned s'
  /\ (length (spawned s) <= length (spawned s'))%nat
  /\ manage_process (g s') = manage_process (g s)
  /\ Forall (fun a => (pid_of a < length (spawned s'))%nat) acts.
Proof.
  revert s s' acts. induction os as [|o os IH]; intros s s' acts; cbn [Teardown.run_ops].
  { intros [= <- <-] Ho. split; [done|]. split; [done|]. split; [done|].
    apply Forall_nil_2. }
  destruct (run_op fuel o s) as [[s1 acts1]|] eqn:Ho; [|discriminate].
  destruct (run_ops fuel os s1) as [[s2 acts2]|] eqn:Hos; [|discriminate].
  intros [= <- <-] Hown.
  assert (H1 : owned s1 /\ (length (spawned s) <= length (spawned s1))%nat
               /\ manage_process (g s1) = manage_process (g s)
               /\ Forall (fun a => (pid_of a < length (spawned s1))%nat) acts1).
  { destruct o as [|graceful forced]; cbn [Teardown.run_op] in Ho.
    - destruct (ensure fuel s) as [[r s1']|] eqn:He; [|discriminate].
      injection Ho as <- <-.
      apply ensure_owned in He as (Hk & Hlen & Hm & _). auto.
    - destruct (shutdown_owned graceful forced s Hown) as [Hk Hacts].
      destruct (shutdown graceful forced (g s)) as [[r gd] acts0] eqn:Hsd.
      injection Ho as <- <-. cbn in *. split; [exact Hk|]. split; [lia|]. split.
      + unfold shutdown in Hsd. destruct (_proc (g s)); [|by injection Hsd as _ <- _].
        destruct (caught graceful); by injection Hsd as _ <- _.
      + eapply Forall_impl; [exact Hacts|]. intros a Ha. simpl in Ha. lia. }
  destruct H1 as (Hown1 & Hlen1 & Hm1 & Hacts1).
  destruct (IH _ _ _ Hos Hown1) as (Hown2 & Hlen2 & Hm2 & Hacts2).
  split; [exact Hown2|]. split; [lia|]. split; [congruence|].
  apply Forall_app. split; [|exact Hacts2].
  eapply Forall_impl; [exact Hacts1|]. intros a Ha. simpl in Ha. lia.
Qed.

(** X18.  Over any sequence of [ensure] and [shutdown] calls on a new
    supervisor, however each call ends, the process handle and the
    ownership mark change together ([_started_here] holds exactly when
    [_proc] is set), the handle names the process spawned last, and
    every signal the supervisor sends goes to a process it spawned
    itself. *)
Theorem supervisor_signals_only_its_own (fuel : nat) (os : list op)
    (auto_close headless manage_process : bool) (s' : state)
    (acts : list proc_action) :
  run_ops fuel os (start (new_guard auto_close headless manage_process))
  = Some (s', acts) ->
  (_started_here (g s') = true <-> is_Some (_proc (g s')))
  /\ (forall pid, _proc (g s') = Some pid -> S pid = length (spawned s'))
  /\ Forall (fun a => (pid_of a < length (spawned s'))%nat) acts.
Proof.
  intros H. apply run_ops_owned in H as ([Hmark Hpid] & _ & _ & Hacts); [auto|].
  split; cbn; [|discriminate]. split; [discriminate|]. by intros [? ?].
Qed.

(** X19.  [shutdown] always lets go of the child: whatever the two
    attempts to stop it do, the handle is cleared, and a second
    [shutdown] does nothing.  Without a child nothing is signalled.
    With one, the child is asked to terminate, and it is killed exactly
    when that attempt timed out or raised an ordinary exception.  The
    call raises only an error that is not an [Exception]. *)
Theorem shutdown_always_releases (graceful forced : exit_wait) (gd : guard) :
  let '(r, gd', acts) := shutdown graceful forced gd in
  _proc gd' = None
  /\ (is_Some (_proc gd) -> _started_here gd' = false)
  /\ (forall graceful' forced', shutdown graceful' forced' gd' = (Ok tt, gd', []))
  /\ acts = match _proc gd with
            | None => []
            | Some pid =>
                if caught graceful then [Terminate pid; Kill pid] else [Terminate pid]
            end
  /\ (forall e, r = Raise e ->
        is_Exception e = false
        /\ (graceful = Failed e \/ (caught graceful = true /\ forced = Failed e))).
Proof.
  unfold shutdown. destruct (_proc gd) as [pid|] eqn:Hp.
  - destruct (caught graceful) eqn:Hc; cbn;
      (split; [done|]); (split; [done|]); (split; [done|]); (split; [done|]);
      intros e H.
    + destruct forced as [| |e0]; try discriminate. cbn in H.
      destruct (is_Exception e0) eqn:He; [discriminate|]. injection H as <-. auto.
    + destruct graceful as [| |e0]; try discriminate. cbn in H, Hc.
      rewrite Hc in H. injection H as <-. auto.
  - rewrite Hp. split; [done|]. split; [by intros [? ?]|]. split; [done|].
    split; [done|]. discriminate.
Qed.

(** X20.  With process management switched off the supervisor never
    spawns and never signals a process and never waits: every sequence
    of calls comes to an end without a single poll of the start-up
    loop, and leaves the supervisor without a child. *)
Theorem unmanaged_supervisor_is_passive (fuel : nat) (os : list op)
    (auto_close headless : bool) :
  exists s',
    run_ops fuel os (start (new_guard auto_close headless false)) = Some (s', [])
    /\ spawned s' = [] /\ reads s' = 0%nat /\ _proc (g s') = None.
Proof.
  set (s0 := start (new_guard auto_close headless false)).
  assert (H : forall s, manage_process (g s) = false -> _proc (g s) = None ->
                exists s', run_ops fuel os s = Some (s', [])
                           /\ spawned s' = spawned s /\ reads s' = reads s
                           /\ _proc (g s') = None).
  { induction os as [|o os IH]; intros s Hm Hp; cbn [Teardown.run_ops].
    { exists s. auto. }
    assert (H1 : exists s1, run_op fuel o s = Some (s1, [])
                            /\ spawned s1 = spawned s /\ reads s1 = reads s
                            /\ g s1 = g s).
    { destruct o as [|graceful forced]; cbn [Teardown.run_op].
      - unfold Guard.ensure, _devtools_alive. cbn [g]. rewrite Hm.
        destruct (alive world (probes s)); cbn; eexists; eauto.
      - unfold shutdown. rewrite Hp. exists s.
        split; [by destruct s|]. auto. }
    destruct H1 as (s1 & -> & Hsp & Hr & Hg).
    destruct (IH s1) as (s' & -> & Hsp' & Hr' & Hp'); [congruence|congruence|].
    exists s'. rewrite Hsp', Hr', Hsp, Hr. auto. }
  destruct (H s0 eq_refl eq_refl) as (s' & Hrun & Hsp & Hr & Hp).
  exists s'. auto.
Qed.

(** X21.  [lifecycle] stops the browser exactly when it started it and
    [auto_close] is set, and then on every way out of the [with] body,
    also when the body raises: the handle is cleared and the body's
    outcome is passed on unless stopping itself was cancelled.  When
    the endpoint answered on entry, nothing is signalled, whatever the
    body did; when [ensure] raises, the body is never entered. *)
Theorem lifecycle_stops_what_it_started {A : Type} (fuel : nat)
    (body : bool -> state -> option (res A * state))
    (graceful forced : exit_wait) (s s' : state) (r : res A)
    (acts : list proc_action) :
  lifecycle fuel body graceful forced s = Some (r, s', acts) ->
  (exists e, ensure fuel s = Some (Raise e, s') /\ r = Raise e /\ acts = [])
  \/ exists started s1 rb s2,
       ensure fuel s = Some (Ok started, s1)
       /\ (started = false <-> alive world (probes s) = true)
       /\ body started s1 = Some (rb, s2)
       /\ if started && auto_close (g s2) then
            _proc (g s') = None
            /\ acts = (shutdown graceful forced (g s2)).2
            /\ (r = rb \/ exists e, r = Raise e /\ is_Exception e = false)
          else r = rb /\ s' = s2 /\ acts = [].
Proof.
  unfold Teardown.lifecycle.
  destruct (ensure fuel s) as [[[started|e] s1]|] eqn:He; [| |discriminate].
  2:{ intros [= <- <- <-]. left. exists e. auto. }
  destruct (body started s1) as [[rb s2]|] eqn:Hb; [|discriminate].
  intros H. right. exists started, s1, rb, s2. split; [reflexivity|]. split.
  { apply ensure_spec in He as [_ He]. destruct started.
    - destruct He as [He _]. split; [discriminate | congruence].
    - destruct He as [He _]. by split. }
  split; [exact Hb|].
  destruct (started && auto_close (g s2)).
  2:{ by injection H as <- <- <-. }
  pose proof (shutdown_outcome graceful forced (g s2)) as Hsd.
  destruct (shutdown graceful forced (g s2)) as [[stopped gd] acts0].
  destruct Hsd as (Hp & Hraise).
  injection H as <- <- <-. cbn. split; [exact Hp|]. split; [reflexivity|].
  destruct stopped as [[]|e]; [by left|]. right. exists e.
  split; [reflexivity|]. by apply Hraise.
Qed.

End Stopping.

(** ** Start-up failures *)

Section Startup.

Import Guard.

Variable cfg : config.
Variable world : env.

Local Abbreviation ensure := (ensure cfg world).
Local Abbreviation wait_loop := (wait_loop world).

Lemma wait_loop_outcome (fuel : nat) (deadline : Q) (s s' : state) (r : res unit) :
  wait_loop fuel deadline s = Some (r, s') ->
  g s' = g s /\ spawned s' = spawned s
  /\ (reads s < reads s')%nat
  /\ (forall p, (probes s <= p < probes s')%nat ->
                alive world p = match r with
                                | Ok _ => bool_decide (S p = probes s')
                                | Raise _ => false
                                end)
  /\ match r with
     | Ok _ => (probes s < probes s')%nat
               /\ (now world (reads s' - 1) < deadline)%Q
     | Raise e =>
         (e = RuntimeErrorMsg exited_message
          /\ is_Some (_proc (g s)) /\ (polls s < polls s')%nat
          /\ is_Some (returncode world (polls s' - 1)))
         \/ (e = RuntimeErrorMsg timeout_message
             /\ (deadline <= now world (reads s' - 1))%Q)
     end.
Proof.
  revert s. induction fuel as [|fuel IH]; intros s; [discriminate|].
  cbn [Guard.wait_loop]. unfold read_clock, _devtools_alive, poll_returncode.
  destruct (Qlt_le_dec _ _) as [Hlt|Hge].
  - cbn [probes reads polls spawned g].
    destruct (alive world (probes s)) eqn:Hup.
    + intros [= <- <-]. cbn. replace (reads s - 0)%nat with (reads s) by lia.
      split; [done|]. split; [done|]. split; [lia|]. split; [|split; [lia | done]].
      intros p Hp. replace p with (probes s) by lia. rewrite Hup.
      symmetry. by apply bool_decide_eq_true.
    + destruct (_proc (g s)) as [pid|] eqn:Hproc.
      * destruct (returncode world (polls s)) as [code|] eqn:Hcode.
        -- intros [= <- <-]. cbn. replace (polls s - 0)%nat with (polls s) by lia.
           split; [done|]. split; [done|]. split; [lia|]. split.
           ++ intros p Hp. by replace p with (probes s) by lia.
           ++ left. rewrite Hcode. split; [done|]. split; [by eexists|].
              split; [lia | by eexists].
        -- intros H. apply IH in H as (Hg & Hsp & Hr & Hal & Hend). cbn in *.
           split; [done|]. split; [done|]. split; [lia|]. split.
           ++ intros p Hp. destruct (decide (p = probes s)) as [->|Hne].
              ** rewrite Hup. destruct r; [|done]. symmetry.
                 apply bool_decide_eq_false. destruct Hend as [Hend _]. lia.
              ** apply Hal. lia.
           ++ destruct r as [[]|e]; [destruct Hend; split; [lia | done]|].
              destruct Hend as [(-> & Hs & Hpl & Hrc)|Hend]; [|by right].
              left. split; [done|]. split; [by eexists|]. split; [lia | done].
      * intros H. apply IH in H as (Hg & Hsp & Hr & Hal & Hend). cbn in *.
        split; [done|]. split; [done|]. split; [lia|]. split.
        -- intros p Hp. destruct (decide (p = probes s)) as [->|Hne].
           ++ rewrite Hup. destruct r; [|done]. symmetry.
              apply bool_decide_eq_false. destruct Hend as [Hend _]. lia.
           ++ apply Hal. lia.
        -- destruct r as [[]|e]; [destruct Hend; split; [lia | done]|].
           destruct Hend as [(-> & Hs & Hpl & Hrc)|Hend]; [|by right].
           rewrite Hproc in Hs. by destruct Hs.
  - intros [= <- <-]. cbn. replace (reads s - 0)%nat with (reads s) by lia.
    split; [done|]. split; [done|]. split; [lia|]. split; [intros p Hp; lia|].
    right. done.
Qed.

(** X22.  When [ensure] raises, the endpoint did not answer a single
    probe of the call, and the error is one of four: process management
    is off; spawning the browser failed, with the spawn's own error;
    the child showed a return code during start-up; or the start-up
    timeout passed.  In the first two cases no process was spawned and
    the supervisor is as before; in the last two the child was spawned
    and [ensure] leaves its handle and the ownership mark in place. *)
Theorem ensure_failure_modes (fuel : nat) (s s' : state) (e : exn) :
  ensure fuel s = Some (Raise e, s') ->
  (forall p, (probes s <= p < probes s')%nat -> alive world p = false)
  /\ ((manage_process (g s) = false
       /\ e = RuntimeErrorMsg unavailable_message
       /\ spawned s' = spawned s /\ g s' = g s)
      \/ (manage_process (g s) = true
          /\ spawn_error world (length (spawned s)) = Some e
          /\ spawned s' = spawned s /\ g s' = g s)
      \/ (manage_process (g s) = true
          /\ spawned s' = spawned s ++ [launch_args cfg (g s)]
          /\ _proc (g s') = Some (length (spawned s))
          /\ _started_here (g s') = true
          /\ ((e = RuntimeErrorMsg exited_message
               /\ is_Some (returncode world (polls s' - 1)))
              \/ (e = RuntimeErrorMsg timeout_message
                  /\ (now world (reads s) + CHROME_STARTUP_TIMEOUT cfg
                      <= now world (reads s' - 1))%Q)))).
Proof.
  unfold Guard.ensure, _devtools_alive.
  destruct (alive world (probes s)) eqn:Hup; [discriminate|].
  cbn [g]. destruct (manage_process (g s)) eqn:Hm; cbn [negb].
  2:{ intros [= <- <-]. cbn. split; [|by left].
      intros p Hp. by replace p with (probes s) by lia. }
  unfold _launch. cbn [spawned].
  destruct (spawn_error world (length (spawned s))) as [e0|] eqn:Hsp.
  { intros [= <- <-]. cbn. split; [|by right; left].
    intros p Hp. by replace p with (probes s) by lia. }
  unfold _wait_until_ready, read_clock. cbn [reads].
  match goal with |- context [Guard.wait_loop world fuel ?d ?s0] =>
    destruct (wait_loop fuel d s0) as [[[[]|e1] s3]|] eqn:Hw end; try discriminate.
  intros [= <- <-]. apply wait_loop_outcome in Hw as (Hg & Hs & Hr & Hal & Hend).
  cbn in Hg, Hs, Hr, Hal, Hend. split.
  - intros p Hp. destruct (decide (p = probes s)) as [->|Hne]; [done|].
    apply Hal. lia.
  - right. right. rewrite Hg, Hs. cbn. repeat split; try done.
    destruct Hend as [(-> & _ & _ & Hrc)|(-> & Hlate)]; [by left | by right].
Qed.

End Startup.

(** ** Waiting for a login *)

Section Login.

Import Workflow.

Variable probe : nat -> res login_response.
Variable attempts : Z.
Variable interval : Q.

Local Abbreviation ends_at := (ends_at probe attempts).

Lemma login_loop_spec (n a : nat) (latest : option login_response) :
  (Z.of_nat (a + n) = attempts + 1)%Z -> (0 < n)%nat ->
  exists j,
    (a <= j < a + n)%nat
    /\ probes_of (login_loop probe attempts interval (seq a n) latest).2
       = seq a (S j - a)
    /\ pauses_of (login_loop probe attempts interval (seq a n) latest).2
       = repeat interval (j - a)
    /\ (forall k, (a <= k < j)%nat -> pending_login probe k)
    /\ ends_at j (login_loop probe attempts interval (seq a n) latest).1.
Proof.
  revert a latest. induction n as [|n IH]; intros a latest Ha Hn; [lia|].
  cbn [seq login_loop]. unfold Workflow.ends_at.
  assert (Hhere : forall r steps,
    (match probe a with
     | Raise e => r = Raise e
     | Ok response =>
         r = Ok response
         /\ (success response = true \/ pollable (state response) = false
             \/ Z.of_nat a = attempts)
     end) ->
    probes_of steps = [a] -> pauses_of steps = [] ->
    exists j,
      (a <= j < a + S n)%nat
      /\ probes_of (r, steps).2 = seq a (S j - a)
      /\ pauses_of (r, steps).2 = repeat interval (j - a)
      /\ (forall k, (a <= k < j)%nat -> pending_login probe k)
      /\ match probe j with
         | Raise e => (r, steps).1 = Raise e
         | Ok response =>
             (r, steps).1 = Ok response
             /\ (success response = true \/ pollable (state response) = false
                 \/ Z.of_nat j = attempts)
         end).
  { intros r steps Hend Hpr Hpa. exists a. split; [lia|].
    replace (S a - a)%nat with 1%nat by lia. rewrite Nat.sub_diag. cbn.
    split; [exact Hpr|]. split; [exact Hpa|]. split; [lia | exact Hend]. }
  destruct (probe a) as [response|e] eqn:Hp.
  2:{ apply Hhere; [reflexivity | done | done]. }
  destruct (success response) eqn:Hs.
  { apply Hhere; [auto | done | done]. }
  destruct (pollable (state response)) eqn:Hpo; cbn [negb].
  2:{ apply Hhere; [auto | done | done]. }
  destruct n as [|n].
  { cbn [seq login_loop]. replace (Z.of_nat a <? attempts)%Z with false
      by (symmetry; apply Z.ltb_ge; lia).
    apply Hhere; [split; [done|]; right; right; lia | done | done]. }
  destruct (IH (S a) (Some response)) as (j & Hj & Hpr & Hpa & Hpend & Hend);
    [lia | lia |].
  destruct (login_loop probe attempts interval (seq (S a) (S n)) (Some response))
    as [r rest].
  replace (Z.of_nat a <? attempts)%Z with true by (symmetry; apply Z.ltb_lt; lia).
  exists j. split; [lia|]. cbn in Hpr, Hpa, Hend |- *. split; [|split; [|split]].
  - unfold probes_of in *. cbn. rewrite Hpr.
    replace (S j - a)%nat with (S (S j - S a))%nat by lia. reflexivity.
  - unfold pauses_of in *. cbn. rewrite Hpa.
    replace (j - a)%nat with (S (j - S a))%nat by lia. reflexivity.
  - intros k Hk. destruct (decide (k = a)) as [->|Hne].
    + exists response. auto.
    + apply Hpend. lia.
  - exact Hend.
Qed.


End Login.

(** ** The properties on concrete runs *)

Lemma idle_reachable :
  reachable Scenario.chk Scenario.quote true (Scenario.run ScenarioMore.idle).
Proof. apply (scenario_reachable ScenarioMore.idle). vm_compute. reflexivity. Qed.


Lemma settled_id_is_never_pending_again_witness :
  _pending_requests (cl (Scenario.run ScenarioMore.idle)) !! 1%Z = None
  /\ forall conn d, dict_get "id" d = Some (JInt 1) ->
       view (_read_loop_body conn (JObj d) (Scenario.run ScenarioMore.idle))
       = view (Scenario.run ScenarioMore.idle).
Proof.
  apply (settled_id_is_never_pending_again Scenario.chk Scenario.quote true
           ScenarioMore.settled (Scenario.run Scenario.one_outstanding)).
  - vm_compute. reflexivity.
  - vm_compute. discriminate.
  - vm_compute. reflexivity.
Defined.

Lemma future_outcome_is_final_witness :
  futures (Scenario.run ScenarioMore.idle) !! 0%nat = Some (FResult (JObj [])).
Proof.
  apply (future_outcome_is_final Scenario.chk Scenario.quote true
           ScenarioMore.settled (Scenario.run Scenario.one_outstanding)).
  - vm_compute. reflexivity.
  - vm_compute. reflexivity.
  - reflexivity.
Defined.

Lemma ids_are_consecutive_witness :
  (0 <= _msg_id (cl (Scenario.run Scenario.one_outstanding)))%Z
  /\ registered_ids (Scenario.run Scenario.one_outstanding)
     = map Z.of_nat
         (seq 1 (Z.to_nat (_msg_id (cl (Scenario.run Scenario.one_outstanding)))))
  /\ length (futures (Scenario.run Scenario.one_outstanding))
     = Z.to_nat (_msg_id (cl (Scenario.run Scenario.one_outstanding)))
  /\ forall n fut,
       _pending_requests (cl (Scenario.run Scenario.one_outstanding)) !! n = Some fut ->
       (Z.of_nat fut + 1 = n)%Z
       /\ (1 <= n <= _msg_id (cl (Scenario.run Scenario.one_outstanding)))%Z.
Proof.
  apply (ids_are_consecutive Scenario.chk Scenario.quote true).
  apply (scenario_reachable Scenario.one_outstanding). vm_compute. reflexivity.
Defined.


Lemma send_on_open_channel_witness :
  exists conn w',
    session (cl (Scenario.run ScenarioMore.idle)) = Some conn
    /\ step Scenario.chk Scenario.quote true (Acquire 2 Scenario.blocked_env false)
            (Scenario.run ScenarioMore.idle) = Some w'
    /\ trace w'
       = trace (Scenario.run ScenarioMore.idle) ++
         [(Caller 2, Register (_msg_id (cl (Scenario.run ScenarioMore.idle)) + 1)%Z
                       (length (futures (Scenario.run ScenarioMore.idle))));
          (Caller 2,
           Eff (WsSend conn
                  (payload_of (_msg_id (cl (Scenario.run ScenarioMore.idle)) + 1)%Z
                     "Page.navigate"
                     (Some (JObj [("url", JStr "https://example.com")])))))]
    /\ pc_of w' 2 = Some (AwaitReply (length (futures (Scenario.run ScenarioMore.idle))))
    /\ lock w' = Some 2%nat
    /\ session (cl w') = Some conn
    /\ conns w' = conns (Scenario.run ScenarioMore.idle).
Proof.
  apply (send_on_open_channel Scenario.chk Scenario.quote true
           (Scenario.run ScenarioMore.idle) 2
           (Task "Page.navigate" (Some (JObj [("url", JStr "https://example.com")]))
                 WaitLock)).
  - vm_compute. reflexivity.
  - reflexivity.
  - vm_compute. reflexivity.
  - vm_compute. reflexivity.
Defined.


Lemma wait_for_ready_settles_witness :
  exists j,
    Probe.wait_for_ready ScenarioMore.slow_page 0 ScenarioMore.ticks 15 = Some (Ok true)
    /\ Facade.evaluate (ScenarioMore.slow_page j) = Ok (JStr "complete").
Proof.
  destruct (wait_for_ready_settles ScenarioMore.slow_page 0 15 ScenarioMore.ticks)
    as (j & t & _ & _ & _ & [(Hr & _ & He)|[(Hr & _)|(e & Hr & _)]]).
  - exists 20%Q. split; [unfold ScenarioMore.ticks; set_solver | by vm_compute].
  - exists j. auto.
  - vm_compute in Hr. discriminate.
  - vm_compute in Hr. discriminate.
Defined.


Lemma supervisor_signals_only_its_own_witness :
  exists s' acts,
    Teardown.run_ops ScenarioGuard.cfg ScenarioGuard.world 10 ScenarioMore.restart
      (Guard.start ScenarioGuard.guard) = Some (s', acts)
    /\ acts = [Teardown.Terminate 0; Teardown.Kill 0]
    /\ (Guard._started_here (Guard.g s') = true <-> is_Some (Guard._proc (Guard.g s')))
    /\ (forall pid, Guard._proc (Guard.g s') = Some pid ->
                    S pid = length (Guard.spawned s'))
    /\ Forall (fun a => (Teardown.pid_of a < length (Guard.spawned s'))%nat) acts.
Proof.
  destruct (Teardown.run_ops ScenarioGuard.cfg ScenarioGuard.world 10
              ScenarioMore.restart (Guard.start ScenarioGuard.guard))
    as [[s' acts]|] eqn:Hrun; [|vm_compute in Hrun; discriminate].
  exists s', acts. split; [reflexivity|]. split.
  - vm_compute in Hrun. by injection Hrun as _ <-.
  - apply (supervisor_signals_only_its_own ScenarioGuard.cfg ScenarioGuard.world
             10 ScenarioMore.restart true true true s' acts Hrun).
Defined.

Lemma lifecycle_stops_what_it_started_witness :
  exists s' acts,
    Teardown.lifecycle ScenarioGuard.cfg ScenarioGuard.world 10
      ScenarioMore.failing_body Teardown.Exited Teardown.Exited
      (Guard.start ScenarioGuard.guard)
    = Some (Raise (ValueError "workflow"), s', acts)
    /\ acts = [Teardown.Terminate 0]
    /\ Guard._proc (Guard.g s') = None.
Proof.
  destruct (Teardown.lifecycle ScenarioGuard.cfg ScenarioGuard.world 10
              ScenarioMore.failing_body Teardown.Exited Teardown.Exited
              (Guard.start ScenarioGuard.guard))
    as [[[r s'] acts]|] eqn:Hrun; [|vm_compute in Hrun; discriminate].
  assert (Hr : r = Raise (ValueError "workflow")).
  { vm_compute in Hrun. by injection Hrun as <- _ _. }
  subst r. exists s', acts. split; [reflexivity|]. split.
  { vm_compute in Hrun. by injection Hrun as _ <-. }
  destruct (lifecycle_stops_what_it_started ScenarioGuard.cfg ScenarioGuard.world
              10 ScenarioMore.failing_body Teardown.Exited Teardown.Exited
              (Guard.start ScenarioGuard.guard) s' _ acts Hrun)
    as [(e & He & _)|(started & s1 & rb & s2 & He & _ & Hb & Hend)].
  - vm_compute in He. discriminate.
  - vm_compute in He. injection He as <- <-.
    unfold ScenarioMore.failing_body in Hb. injection Hb as <- <-.
    cbn in Hend. by destruct Hend as [Hp _].
Defined.

Lemma unparsable_listed_page_aborts_witness :
  _create_target Scenario.chk Scenario.quote Scenario.c0 ScenarioMore.broken_env
  = (Raise (ValueError "Invalid IPv6 URL"), [HttpGet (list_url Scenario.c0)])
  /\ exists msg, ValueError "Invalid IPv6 URL" = ValueError msg.
Proof.
  apply (unparsable_listed_page_aborts Scenario.chk Scenario.quote Scenario.c0
           ScenarioMore.broken_env
           {| status_code := 200;
              body := BodyTargets [ScenarioMore.broken_page;
                                   Scenario.page "A" "https://example.com/p"] |}
           [] [Scenario.page "A" "https://example.com/p"] ScenarioMore.broken_page).
  - reflexivity.
  - reflexivity.
  - reflexivity.
  - constructor.
  - reflexivity.
  - vm_compute. reflexivity.
Defined.

Lemma ensure_failure_modes_witness :
  exists s',
    Guard.ensure ScenarioGuard.cfg ScenarioMore.crashing_world 5
      (Guard.start ScenarioGuard.guard)
    = Some (Raise (RuntimeErrorMsg Guard.exited_message), s')
    /\ Guard._proc (Guard.g s') = Some 0%nat
    /\ Guard._started_here (Guard.g s') = true.
Proof.
  destruct (Guard.ensure ScenarioGuard.cfg ScenarioMore.crashing_world 5
              (Guard.start ScenarioGuard.guard)) as [[[b|e] s']|] eqn:Hrun;
    [vm_compute in Hrun; discriminate | | vm_compute in Hrun; discriminate].
  assert (He : e = RuntimeErrorMsg Guard.exited_message).
  { vm_compute in Hrun. by injection Hrun as <- _. }
  subst e. exists s'. split; [reflexivity|].
  destruct (ensure_failure_modes ScenarioGuard.cfg ScenarioMore.crashing_world
              5 (Guard.start ScenarioGuard.guard) s' _ Hrun)
    as [_ [(Hm & _)|[(_ & Hsp & _)|(_ & _ & Hp & Hst & _)]]].
  - vm_compute in Hm. discriminate.
  - vm_compute in Hsp. discriminate.
  - auto.
Defined.
